(** * RFC822 address-field parser of nullmailer (lib/address.cc)

    A shallow embedding of the tokenizer, the quote codec and the
    recursive-descent matcher, followed by the properties proved about them.

    Conventions of the embedding.
    - [mystring] is a list of bytes.  A [const char*] into a NUL-terminated
      buffer is the list of the bytes that remain; reading [*ptr] at the end
      of the list yields the terminator, [NUL].
    - An [anode*] is the list of the tokens from that node on: the empty list
      is the null pointer, and [node->next] is the tail.
    - Executions live in [exec]: besides a value they can end in a [fault],
      which records what the C++ program leaves undefined (a read through a
      null pointer, a buffer overrun) and the exhaustion of the bound that
      every [for(;;)] loop receives here. *)

From Stdlib Require Import Ascii String Bool Arith ZArith Lia List.
Import ListNotations.

Local Open Scope char_scope.
Local Open Scope list_scope.

(** ** Strings and characters *)

Definition mystring := list ascii.

Definition lit (s : string) : mystring := list_ascii_of_string s.

Definition NUL : ascii := "000".
Definition LSQBRACKET : ascii := "[".
Definition RSQBRACKET : ascii := "]".
Definition QUOTE : ascii := "034".
Definition CR : ascii := "010".
Definition LPAREN : ascii := "(".
Definition RPAREN : ascii := ")".

(** [*ptr] *)
Definition peek (ptr : list ascii) : ascii :=
  match ptr with
  | [] => NUL
  | c :: _ => c
  end.

(** Conversion of a [const char*] to a [mystring]: the bytes before the first
    terminator. *)
Fixpoint of_cstr (p : list ascii) : mystring :=
  match p with
  | [] => []
  | c :: rest => if (c =? NUL)%char then [] else c :: of_cstr rest
  end.

(** [operator!] of [mystring]: true on the empty string. *)
Definition mystring_not (s : mystring) : bool :=
  match s with
  | [] => true
  | _ :: _ => false
  end.

(** ** Tokens *)

Inductive node_type : Set :=
| EMPTY
| ATOM
| QUOTED_STRING
| DOMAIN_LITERAL
| COMMENT
| LABRACKET
| RABRACKET
| AT
| COMMA
| SEMICOLON
| COLON
| ESCAPE
| PERIOD
| EOT.

Definition node_type_eqb (a b : node_type) : bool :=
  match a, b with
  | EMPTY, EMPTY | ATOM, ATOM | QUOTED_STRING, QUOTED_STRING
  | DOMAIN_LITERAL, DOMAIN_LITERAL | COMMENT, COMMENT
  | LABRACKET, LABRACKET | RABRACKET, RABRACKET | AT, AT | COMMA, COMMA
  | SEMICOLON, SEMICOLON | COLON, COLON | ESCAPE, ESCAPE
  | PERIOD, PERIOD | EOT, EOT => true
  | _, _ => false
  end.

(** The character an enumerator is defined as ([ATOM = 'A'], [AT = '@'], ...). *)
Definition node_type_char (t : node_type) : ascii :=
  match t with
  | EMPTY => NUL
  | ATOM => "A"
  | QUOTED_STRING => "Q"
  | DOMAIN_LITERAL => "D"
  | COMMENT => "C"
  | LABRACKET => "<"
  | RABRACKET => ">"
  | AT => "@"
  | COMMA => ","
  | SEMICOLON => ";"
  | COLON => ":"
  | ESCAPE => "\"
  | PERIOD => "."
  | EOT => "$"
  end.

(** [struct token]; the field [str] of the source is [text] here, since
    [result] has a field [str] of its own. *)
Record token : Set := mk_token { type : node_type; text : mystring }.

(** [anode(t)], [anode(t, start, end)]: the text is the [end - start] bytes
    from [start]. *)
Definition anode0 (t : node_type) : token := mk_token t [].

Definition anode (t : node_type) (start end_ : list ascii) : token :=
  mk_token t (firstn (length start - length end_) start).

(** ** Classifier *)

Definition issymbol (c : ascii) : bool :=
  (c =? LPAREN) || (c =? RPAREN)
  || (c =? node_type_char LABRACKET) || (c =? node_type_char RABRACKET)
  || (c =? LSQBRACKET) || (c =? RSQBRACKET)
  || (c =? node_type_char AT) || (c =? node_type_char COMMA)
  || (c =? node_type_char SEMICOLON) || (c =? node_type_char COLON)
  || (c =? node_type_char ESCAPE) || (c =? QUOTE)
  || (c =? node_type_char PERIOD).

Definition isctl (c : ascii) : bool :=
  (nat_of_ascii c <=? 31)%nat || (nat_of_ascii c =? 127)%nat.

(** [isspace] of <ctype.h> in the "C" locale: space, and the bytes 9 to 13. *)
Definition isspace (c : ascii) : bool :=
  (nat_of_ascii c =? 32)%nat
  || ((9 <=? nat_of_ascii c)%nat && (nat_of_ascii c <=? 13)%nat).

Definition isqtext (c : ascii) : bool :=
  negb (c =? NUL) && negb (c =? QUOTE)
  && negb (c =? node_type_char ESCAPE) && negb (c =? CR).

Definition isdtext (c : ascii) : bool :=
  negb (c =? NUL) && negb (c =? LSQBRACKET) && negb (c =? RSQBRACKET)
  && negb (c =? node_type_char ESCAPE) && negb (c =? CR).

(** quoted-pair = ESCAPE CHAR *)
Definition isqpair (ptr : list ascii) : bool :=
  negb (peek ptr =? NUL) && (peek ptr =? node_type_char ESCAPE)
  && negb (peek (tl ptr) =? NUL).

Definition isatom (ch : ascii) : bool :=
  negb (isspace ch || issymbol ch || isctl ch).

(** ** Tokenizer

    Every scanner takes the cursor and returns the token with the advanced
    cursor, or [None] where the source returns the null pointer. *)

(** [while(isspace( *ptr)) ++ptr;] *)
Fixpoint skip_space (ptr : list ascii) : list ascii :=
  match ptr with
  | [] => []
  | c :: rest => if isspace c then skip_space rest else ptr
  end.

(** [while(isatom( *ptr)) ++ptr;] *)
Fixpoint atom_end (ptr : list ascii) : list ascii :=
  match ptr with
  | [] => []
  | c :: rest => if isatom c then atom_end rest else ptr
  end.

Definition tokenize_atom (ptr : list ascii) : option (token * list ascii) :=
  if negb (isatom (peek ptr)) then None
  else
    let start := ptr in
    let ptr := atom_end (tl ptr) in
    Some (anode ATOM start ptr, ptr).

(** [unsigned] arithmetic, 32 bits wide. *)
Definition UINT_MOD : Z := 2 ^ 32.
Definition uincr (n : Z) : Z := ((n + 1) mod UINT_MOD)%Z.
Definition udecr (n : Z) : Z := ((n - 1) mod UINT_MOD)%Z.

(** The [while(ch)] loop of [tokenize_comment]; [ch] is [peek ptr]
    throughout.  In the quoted-pair branch the cursor moves twice. *)
Fixpoint comment_loop (count : Z) (start ptr : list ascii)
  : option (token * list ascii) :=
  match ptr with
  | [] => None
  | ch :: rest =>
      if ch =? NUL then None
      else if isqpair ptr then
        match rest with
        | _ :: rest' => comment_loop count start rest'
        | [] => None
        end
      else if ch =? LPAREN then comment_loop (uincr count) start rest
      else if ch =? RPAREN then
        let count := udecr count in
        if (count =? 0)%Z then Some (anode COMMENT start rest, rest)
        else comment_loop count start rest
      else if ch =? CR then None
      else comment_loop count start rest
  end.

Definition tokenize_comment (ptr : list ascii) : option (token * list ascii) :=
  if negb (peek ptr =? LPAREN) then None
  else comment_loop 0%Z ptr ptr.

(** The [for(; *ptr; ++ptr)] loop of [tokenize_domain_literal]. *)
Fixpoint dtext_end (ptr : list ascii) : list ascii :=
  match ptr with
  | [] => []
  | c :: rest =>
      if c =? NUL then ptr
      else if isdtext c then dtext_end rest
      else if isqpair ptr then
        match rest with
        | _ :: rest' => dtext_end rest'
        | [] => []
        end
      else ptr
  end.

Definition tokenize_domain_literal (ptr : list ascii)
  : option (token * list ascii) :=
  if negb (peek ptr =? LSQBRACKET) then None
  else
    let start := ptr in
    let ptr := tl ptr in
    let ptr := skip_space ptr in
    let ptr := dtext_end ptr in
    let ptr := skip_space ptr in
    if negb (peek ptr =? RSQBRACKET) then None
    else Some (anode DOMAIN_LITERAL start ptr, ptr).

(** The [for(++ptr; *ptr; ++ptr)] loop of [tokenize_quoted_string]. *)
Fixpoint qtext_end (ptr : list ascii) : list ascii :=
  match ptr with
  | [] => []
  | c :: rest =>
      if c =? NUL then ptr
      else if isqtext c then qtext_end rest
      else if isqpair ptr then
        match rest with
        | _ :: rest' => qtext_end rest'
        | [] => []
        end
      else ptr
  end.

Definition tokenize_quoted_string (ptr : list ascii)
  : option (token * list ascii) :=
  if negb (peek ptr =? QUOTE) then None
  else
    let start := ptr in
    let ptr := qtext_end (tl ptr) in
    if negb (peek ptr =? QUOTE) then None
    else
      let ptr := tl ptr in
      Some (anode QUOTED_STRING start ptr, ptr).

(** The case labels of the switch in [tokenize] that cast the character to
    its [node_type]. *)
Definition special_type (ch : ascii) : option node_type :=
  if ch =? node_type_char LABRACKET then Some LABRACKET
  else if ch =? node_type_char RABRACKET then Some RABRACKET
  else if ch =? node_type_char AT then Some AT
  else if ch =? node_type_char COMMA then Some COMMA
  else if ch =? node_type_char SEMICOLON then Some SEMICOLON
  else if ch =? node_type_char COLON then Some COLON
  else if ch =? node_type_char ESCAPE then Some ESCAPE
  else if ch =? node_type_char PERIOD then Some PERIOD
  else None.

(** [static anode* tokenize(const char* &ptr)]: one token. *)
Definition tokenize1 (ptr : list ascii) : option (token * list ascii) :=
  let ptr := skip_space ptr in
  let ch := peek ptr in
  if ch =? NUL then Some (anode0 EOT, ptr)
  else
    match special_type ch with
    | Some t => Some (anode0 t, tl ptr)
    | None =>
        if ch =? LPAREN then tokenize_comment ptr
        else if ch =? LSQBRACKET then tokenize_domain_literal ptr
        else if ch =? QUOTE then tokenize_quoted_string ptr
        else tokenize_atom ptr
    end.

(** ** Executions *)

Inductive fault : Set :=
| NullPointer   (* a field read through a null [anode*] *)
| OutOfBounds   (* a loop that runs past the end of its buffers *)
| LoopBound.    (* the bound given to a loop was used up *)

Inductive exec (A : Type) : Type :=
| Ret (a : A)
| Fault (f : fault).

Arguments Ret {A} a.
Arguments Fault {A} f.

Definition bind {A B : Type} (m : exec A) (k : A -> exec B) : exec B :=
  match m with
  | Ret a => k a
  | Fault f => Fault f
  end.

Notation "x <- m ;; k" := (bind m (fun x => k))
  (at level 61, m at next level, right associativity).
Notation "' pat <- m ;; k" := (bind m (fun x => match x with pat => k end))
  (at level 61, pat pattern, m at next level, right associativity).

(** [anode* tokenize(const mystring str)]: the chain is built by appending at
    the tail; [tokens] is the chain after the dummy head.  The result is
    [None] where the source returns the null pointer. *)
Fixpoint tokenize_loop (bound : nat) (tokens : list token) (ptr : list ascii)
  : exec (option (list token)) :=
  match bound with
  | O => Fault LoopBound
  | S bound =>
      match tokenize1 ptr with
      | None => Ret None
      | Some (tmp, ptr) =>
          let tokens := tokens ++ [tmp] in
          if node_type_eqb (type tmp) EOT then Ret (Some tokens)
          else tokenize_loop bound tokens ptr
      end
  end.

Definition tokenize (str : mystring) : exec (option (list token)) :=
  tokenize_loop (S (length str)) [] str.

(** ** Quote codec *)

(** The loop of [quote]; it runs [in.length()] times, once per byte of [in]. *)
Fixpoint quote_loop (ptrin : list ascii) (quoted : bool) : list ascii * bool :=
  match ptrin with
  | [] => ([], quoted)
  | c :: rest =>
      if issymbol c then
        let (out, quoted) := quote_loop rest true in
        (node_type_char ESCAPE :: c :: out, quoted)
      else
        let (out, quoted) := quote_loop rest quoted in
        (c :: out, quoted)
  end.

(** [out] is a [char] array: joined to the quotes it is read up to its first
    terminator.  This is the string that [quote] computes; the array, with
    its size and the stack it stands on, is in [Machine.quote] below. *)
Definition quote (in_ : mystring) : mystring :=
  let (out, quoted) := quote_loop in_ false in
  if quoted then [QUOTE] ++ of_cstr out ++ [QUOTE]
  else in_.

(** The loop of [unquote].  [length] is unsigned: when a quoted-pair is found
    with a single byte left to go, the two decrements take it below zero and
    the loop runs on beyond both buffers. *)
Fixpoint unquote_loop (length : nat) (ptrin : list ascii) (modified : bool)
  : exec (list ascii * bool) :=
  match length with
  | O => Ret ([], modified)
  | S length =>
      if isqpair ptrin then
        let ptrin := tl ptrin in
        match length with
        | O => Fault OutOfBounds
        | S length =>
            '(out, modified) <- unquote_loop length (tl ptrin) true ;;
            Ret (peek ptrin :: out, modified)
        end
      else
        '(out, modified) <- unquote_loop length (tl ptrin) modified ;;
        Ret (peek ptrin :: out, modified)
  end.

(** [in[0] == QUOTE && in[length-1] == QUOTE] strips the two quotes; on the
    one-byte string made of a quote, [length -= 2] wraps around. *)
Definition unquote (in_ : mystring) : exec mystring :=
  let length := List.length in_ in
  if (nth 0 in_ NUL =? QUOTE) && (nth (length - 1) in_ NUL =? QUOTE) then
    if (length <? 2)%nat then Fault OutOfBounds
    else
      '(out, _) <- unquote_loop (length - 2) (tl in_) true ;;
      Ret (of_cstr out)
  else
    '(out, modified) <- unquote_loop length in_ false ;;
    Ret (if modified then of_cstr out else in_).

(** ** Match results *)

Record result : Set := mk_result {
  next : list token;
  str : mystring;
  comment : mystring;
  addr : mystring
}.

(** [result()], that is [result(anode* = 0)]. *)
Definition result0 : result := mk_result [] [] [] [].

(** [operator bool]: the position is not null. *)
Definition truthy (r : result) : bool :=
  match next r with
  | [] => false
  | _ :: _ => true
  end.

(** A rule ends in [FAIL] or in [RETURN]/[RETURNR]; the outcome keeps which,
    and [value] is the [result] its caller receives. *)
Definition outcome := option result.

Definition value (o : outcome) : result :=
  match o with
  | Some r => r
  | None => result0
  end.

Definition FAIL : exec outcome := Ret None.
Definition RETURNR (r : result) : exec outcome := Ret (Some r).
Definition RETURN (n : list token) (s c l : mystring) : exec outcome :=
  RETURNR (mk_result n s c l).

(** [node->type], [node->str] and [node->next] *)
Definition deref (node : list token) : exec (token * list token) :=
  match node with
  | [] => Fault NullPointer
  | t :: nxt => Ret (t, nxt)
  end.

Definition MATCHTOKEN (X : node_type) (node : list token)
  (k : list token -> exec outcome) : exec outcome :=
  '(t, nxt) <- deref node ;;
  if negb (node_type_eqb (type t) X) then FAIL else k nxt.

Definition MATCHRULE (m : exec outcome) (k : result -> exec outcome)
  : exec outcome :=
  o <- m ;;
  let V := value o in
  if negb (truthy V) then FAIL else k V.

Definition OR_RULE (ALT1 ALT2 : list token -> exec outcome)
  (node : list token) : exec outcome :=
  o <- ALT1 node ;;
  let r := value o in
  if truthy r then RETURNR r
  else
    o <- ALT2 node ;;
    let r := value o in
    if truthy r then RETURNR r else FAIL.

Fixpoint skipcomment (node : list token) (cmt : mystring)
  : exec (list token * mystring) :=
  match node with
  | [] => Fault NullPointer
  | t :: nxt =>
      if node_type_eqb (type t) COMMENT
      then skipcomment nxt (cmt ++ lit " " ++ text t)
      else Ret (node, cmt)
  end.

(** ** Grammar rules *)

Definition match_sub_domain (node : list token) : exec outcome :=
  '(node, cmt) <- skipcomment node [] ;;
  '(t, nxt) <- deref node ;;
  if node_type_eqb (type t) ATOM || node_type_eqb (type t) DOMAIN_LITERAL
  then RETURN nxt (text t) cmt (text t)
  else FAIL.

Fixpoint domain_loop (bound : nat) (r : result) (cmt : mystring)
  : exec (result * mystring) :=
  match bound with
  | O => Fault LoopBound
  | S bound =>
      '(node, cmt) <- skipcomment (next r) cmt ;;
      let r := mk_result node (str r) (comment r) (addr r) in
      '(t, nxt) <- deref node ;;
      if negb (node_type_eqb (type t) PERIOD) then Ret (r, cmt)
      else
        o <- match_sub_domain nxt ;;
        let r1 := value o in
        if negb (truthy r1) then Ret (r, cmt)
        else
          domain_loop bound
            (mk_result (next r1)
               (str r ++ [node_type_char PERIOD] ++ str r1)
               (comment r)
               (addr r ++ [node_type_char PERIOD] ++ addr r1))
            (cmt ++ comment r1)
  end.

Definition match_domain (node : list token) : exec outcome :=
  MATCHRULE (match_sub_domain node) (fun r =>
  '(r, cmt) <- domain_loop (S (length (next r))) r [] ;;
  RETURNR (mk_result (next r) (str r) (comment r ++ cmt) (addr r))).

(** The loop of [match_route]; [None] is the [FAIL] of the [MATCHRULE]
    inside it. *)
Fixpoint route_loop (bound : nat) (node : list token) (count : Z)
  (s cmt : mystring) : exec (option (list token * Z * mystring * mystring)) :=
  match bound with
  | O => Fault LoopBound
  | S bound =>
      '(t, nxt) <- deref node ;;
      if negb (node_type_eqb (type t) AT) then Ret (Some (node, count, s, cmt))
      else
        o <- match_domain nxt ;;
        let r := value o in
        if negb (truthy r) then Ret None
        else
          route_loop bound (next r) (uincr count)
            (s ++ lit "@" ++ str r) (cmt ++ comment r)
  end.

Definition match_route (node : list token) : exec outcome :=
  st <- route_loop (S (length node)) node 0%Z [] [] ;;
  match st with
  | None => FAIL
  | Some (node, count, s, cmt) =>
      if (count =? 0)%Z then FAIL
      else
        '(node, cmt) <- skipcomment node cmt ;;
        MATCHTOKEN COLON node (fun node =>
        RETURN node s cmt [])
  end.

Definition match_word (node : list token) : exec outcome :=
  '(node, cmt) <- skipcomment node [] ;;
  '(t, nxt) <- deref node ;;
  if node_type_eqb (type t) ATOM then RETURN nxt (text t) cmt (text t)
  else if node_type_eqb (type t) QUOTED_STRING then
    a <- unquote (text t) ;;
    RETURN nxt (quote a) cmt a
  else FAIL.

Fixpoint local_part_loop (bound : nat) (r : result) : exec result :=
  match bound with
  | O => Fault LoopBound
  | S bound =>
      '(node, cmt) <- skipcomment (next r) (comment r) ;;
      let r := mk_result node (str r) cmt (addr r) in
      '(t, nxt) <- deref node ;;
      if negb (node_type_eqb (type t) PERIOD) then Ret r
      else
        o <- match_word nxt ;;
        let r1 := value o in
        if negb (truthy r1) then Ret r
        else
          local_part_loop bound
            (mk_result (next r1)
               (str r ++ lit "." ++ str r1)
               (comment r ++ comment r1)
               (addr r ++ lit "." ++ addr r1))
  end.

Definition match_local_part (node : list token) : exec outcome :=
  MATCHRULE (match_word node) (fun r =>
  r <- local_part_loop (S (length (next r))) r ;;
  RETURNR r).

Section Matcher.

(** The domain canonicalizer of canonicalize.h, which rewrites its argument
    in place; it is not part of this file's source and stays a parameter. *)
Variable canonicalize : mystring -> mystring.

(** The loop of [match_addr_spec]; the state is [r] and [domain]. *)
Fixpoint addr_spec_loop (bound : nat) (r : result) (domain : mystring)
  : exec (result * mystring) :=
  match bound with
  | O => Fault LoopBound
  | S bound =>
      '(node, cmt) <- skipcomment (next r) (comment r) ;;
      let r := mk_result node (str r) cmt (addr r) in
      '(t, nxt) <- deref node ;;
      if negb (node_type_eqb (type t) AT) then Ret (r, domain)
      else
        o <- match_domain nxt ;;
        let r2 := value o in
        if negb (truthy r2) then Ret (r, domain)
        else
          let r :=
            if negb (mystring_not domain)
            then mk_result (next r) (str r ++ lit "@" ++ domain) (comment r)
                   (addr r ++ lit "@" ++ domain)
            else r in
          addr_spec_loop bound
            (mk_result (next r2) (str r) (comment r ++ comment r2) (addr r))
            (addr r2)
  end.

Definition match_addr_spec (node : list token) : exec outcome :=
  MATCHRULE (match_local_part node) (fun r =>
  '(r, domain) <- addr_spec_loop (S (length (next r))) r [] ;;
  let domain := canonicalize domain in
  RETURN (next r) (str r ++ lit "@" ++ domain) (comment r)
    (addr r ++ lit "@" ++ domain ++ [CR])).

Definition match_route_addr (node : list token) : exec outcome :=
  '(node, cmt) <- skipcomment node [] ;;
  MATCHTOKEN LABRACKET node (fun node =>
  o <- match_route node ;;
  let r1 := value o in
  let node := if truthy r1 then next r1 else node in
  let cmt := cmt ++ comment r1 in
  MATCHRULE (match_addr_spec node) (fun r2 =>
  let node := next r2 in
  let cmt := cmt ++ comment r2 in
  '(node, cmt) <- skipcomment node cmt ;;
  MATCHTOKEN RABRACKET node (fun node =>
  RETURN node (lit "<" ++ str r2 ++ lit ">" ++ cmt) [] (addr r2)))).

Fixpoint phrase_loop (bound : nat) (r1 : result) : exec result :=
  match bound with
  | O => Fault LoopBound
  | S bound =>
      o <- match_word (next r1) ;;
      let r2 := value o in
      if negb (truthy r2) then Ret r1
      else
        phrase_loop bound
          (mk_result (next r2) (str r1 ++ lit " " ++ str r2)
             (comment r1 ++ comment r2) (addr r1))
  end.

Definition match_phrase (node : list token) : exec outcome :=
  MATCHRULE (match_word node) (fun r1 =>
  r1 <- phrase_loop (S (length (next r1))) r1 ;;
  RETURNR r1).

Definition match_route_spec (node : list token) : exec outcome :=
  o <- match_phrase node ;;
  let r1 := value o in
  let node := if truthy r1 then next r1 else node in
  MATCHRULE (match_route_addr node) (fun r2 =>
  if negb (truthy r1) then RETURNR r2
  else
    RETURNR (mk_result (next r2)
               (str r1 ++ comment r1 ++ lit " " ++ str r2 ++ comment r2)
               (comment r2) (addr r2))).

Definition match_mailbox : list token -> exec outcome :=
  OR_RULE match_route_spec match_addr_spec.

(** The inner [for(;;)] of [match_mailboxes] and [match_addresses], which
    skips comments and commas; the comments go to the display string. *)
Fixpoint comma_loop (bound : nat) (node : list token) (s : mystring)
  : exec (list token * mystring) :=
  match bound with
  | O => Fault LoopBound
  | S bound =>
      '(node, s) <- skipcomment node s ;;
      '(t, nxt) <- deref node ;;
      if node_type_eqb (type t) COMMA then comma_loop bound nxt s
      else Ret (node, s)
  end.

(** The outer [for(;;)] of [match_mailboxes] and [match_addresses]: the two
    loops are the same text but for the rule they call, [match_member] here.
    The state is [r1] and the cursor [node], which is returned as it stands
    at the [break]. *)
Fixpoint members_loop (match_member : list token -> exec outcome)
  (bound : nat) (r1 : result) : exec (result * list token) :=
  match bound with
  | O => Fault LoopBound
  | S bound =>
      let node := next r1 in
      '(node, s) <- comma_loop (S (length node)) node (str r1) ;;
      let r1 := mk_result (next r1) s (comment r1) (addr r1) in
      '(t, _) <- deref node ;;
      if node_type_eqb (type t) EOT then Ret (r1, node)
      else
        o <- match_member node ;;
        let r2 := value o in
        if negb (truthy r2) then Ret (r1, node)
        else
          members_loop match_member bound
            (mk_result (next r2)
               (str r1 ++ lit ", " ++ str r2 ++ comment r2)
               (comment r1) (addr r1 ++ addr r2))
  end.

Definition match_mailboxes (node : list token) : exec outcome :=
  MATCHRULE (match_mailbox node) (fun r1 =>
  let r1 := mk_result (next r1) (str r1 ++ comment r1) [] (addr r1) in
  '(r1, node) <- members_loop match_mailbox (S (length (next r1))) r1 ;;
  '(node, s) <- skipcomment node (str r1) ;;
  RETURNR (mk_result node s (comment r1) (addr r1))).

Definition match_group (node : list token) : exec outcome :=
  MATCHRULE (match_phrase node) (fun r1 =>
  let node := next r1 in
  MATCHTOKEN COLON node (fun node =>
  o <- match_mailboxes node ;;
  let r2 := value o in
  let node := if truthy r2 then next r2 else node in
  '(node, cmt) <- skipcomment node [] ;;
  MATCHTOKEN SEMICOLON node (fun node =>
  RETURN node
    (str r1 ++ lit ": " ++ str r2 ++ comment r2 ++ cmt ++ lit ";")
    [] (addr r2)))).

Definition match_address : list token -> exec outcome :=
  OR_RULE match_group match_mailbox.

Definition match_addresses (node : list token) : exec outcome :=
  MATCHRULE (match_address node) (fun r1 =>
  let r1 := mk_result (next r1) (str r1 ++ comment r1) [] (addr r1) in
  '(r1, node) <- members_loop match_address (S (length (next r1))) r1 ;;
  '(node, s) <- skipcomment node (str r1) ;;
  let r1 := mk_result (next r1) s (comment r1) (addr r1) in
  '(_, nxt) <- deref node ;;
  match nxt with
  | _ :: _ => FAIL
  | [] => RETURNR r1
  end).

(** [parse_addresses(line, list)]: the flag returned, then [line] and [list]
    as the call leaves them.  The tokens are built from [line.c_str()]. *)
Definition parse_addresses (line list_ : mystring)
  : exec (bool * (mystring * mystring)) :=
  tokenlist <- tokenize (of_cstr line) ;;
  match tokenlist with
  | None => Ret (false, (line, list_))
  | Some tokenlist =>
      o <- match_addresses tokenlist ;;
      let r := value o in
      if truthy r then Ret (true, (str r, addr r))
      else Ret (false, (line, list_))
  end.

End Matcher.


(** The identity canonicalizer, the stub of the testable properties. *)
Definition stub (domain : mystring) : mystring := domain.

(** ** Well-formed token chains and positions *)

(** A quoted-string token is usable when [unquote] stays within its buffers
    on the token's text. *)
Definition tok_ok (t : token) : bool :=
  if node_type_eqb (type t) QUOTED_STRING then
    match unquote (text t) with
    | Ret _ => true
    | Fault _ => false
    end
  else true.

(** A chain as [tokenize] builds it: not empty, its last token is the
    end-marker, and its quoted strings are usable. *)
Fixpoint wf (node : list token) : bool :=
  match node with
  | [] => false
  | t :: nxt =>
      tok_ok t &&
      match nxt with
      | [] => node_type_eqb (type t) EOT
      | _ :: _ => wf nxt
      end
  end.

(** [adv node nxt]: [nxt] is reached from [node] by stepping over tokens
    none of which is the end-marker. *)
Inductive adv : list token -> list token -> Prop :=
| adv_here node : adv node node
| adv_step t node nxt : type t <> EOT -> adv node nxt -> adv (t :: node) nxt.

(** The same, over one token at least. *)
Definition sadv (node nxt : list token) : Prop :=
  exists t n, node = t :: n /\ type t <> EOT /\ adv n nxt.

(** What is asked of a grammar rule on a well-formed chain: it runs to an
    outcome without a fault, and a [RETURN] carries a position reached by
    stepping over one token or more, never over the end-marker. *)
Definition rule_ok (f : list token -> exec outcome) : Prop :=
  forall node, wf node = true ->
    exists o, f node = Ret o /\
      forall r, o = Some r -> sadv node (next r).

(** The tokens of [@d1@d2...@dn] with every domain a single atom. *)
Fixpoint at_chain (ds : list mystring) : list token :=
  match ds with
  | [] => []
  | d :: ds => anode0 AT :: mk_token ATOM d :: at_chain ds
  end.

(** The text [@d1@d2...@dn]. *)
Fixpoint at_text (ds : list mystring) : mystring :=
  match ds with
  | [] => []
  | d :: ds => lit "@" ++ d ++ at_text ds
  end.

(** The bytes between the quotes of a quoted string, as [qtext_end] scans
    them: quoted-text characters and quoted-pairs. *)
Inductive qbody : list ascii -> Prop :=
| qbody_nil : qbody []
| qbody_qtext c body : isqtext c = true -> qbody body -> qbody (c :: body)
| qbody_qpair c body :
    (c =? NUL) = false -> qbody body ->
    qbody (node_type_char ESCAPE :: c :: body).

(** What holds of the tokens before the end-marker in a chain that
    [tokenize] returns. *)
Definition inner_token (t : token) : Prop :=
  tok_ok t = true /\ type t <> EOT /\ type t <> DOMAIN_LITERAL.

Definition tokenized (toks : list token) : Prop :=
  exists pre e, toks = pre ++ [e] /\ type e = EOT /\ Forall inner_token pre.

(** The tokens that may separate and follow the members of a list. *)
Definition filler (t : token) : Prop := type t = COMMA \/ type t = COMMENT.

(** The grammar rules, in the order of the source. *)
Definition rules (canonicalize : mystring -> mystring)
  : list (list token -> exec outcome) :=
  [ match_sub_domain; match_domain; match_route; match_word;
    match_local_part; match_addr_spec canonicalize;
    match_route_addr canonicalize; match_phrase;
    match_route_spec canonicalize; match_mailbox canonicalize;
    match_mailboxes canonicalize; match_group canonicalize;
    match_address canonicalize; match_addresses canonicalize ].

(** What the loop of [match_addr_spec] appends for the pending domain when
    another domain follows: nothing while the pending domain is empty. *)
Definition pending (domain : mystring) : mystring :=
  if mystring_not domain then [] else lit "@" ++ domain.

(** The text the loop has appended once the domains [ds] have gone by,
    [domain] being the pending one at the start. *)
Fixpoint route_prefix (domain : mystring) (ds : list mystring) : mystring :=
  match ds with
  | [] => []
  | d :: ds => pending domain ++ route_prefix d ds
  end.

(** A token at which a chain of [@] domains ends. *)
Definition stopper (t : token) : Prop :=
  type t <> AT /\ type t <> PERIOD /\ type t <> COMMENT.

(** The text [quote] writes to [out]: an escape before every symbol. *)
Fixpoint escaped (s : mystring) : list ascii :=
  match s with
  | [] => []
  | c :: rest =>
      if issymbol c then node_type_char ESCAPE :: c :: escaped rest
      else c :: escaped rest
  end.


(** The position does not stand on a comment. *)
Definition past_comments (node : list token) : Prop :=
  exists t nxt, node = t :: nxt /\ type t <> COMMENT.


(** A text that holds no terminator. *)
Definition nonul (s : mystring) : bool :=
  forallb (fun c => negb (c =? NUL)) s.

(** The bytes of the text that a token stands for: its text for the tokens
    with content, its character for the special ones, nothing for the
    end-marker. *)
Definition render (t : token) : list ascii :=
  match type t with
  | ATOM | QUOTED_STRING | DOMAIN_LITERAL | COMMENT => text t
  | EMPTY | EOT => []
  | LABRACKET | RABRACKET | AT | COMMA | SEMICOLON | COLON | ESCAPE
  | PERIOD => [node_type_char (type t)]
  end.

(** The tokens put back into a text, each after its gap. *)
Fixpoint weave (gaps : list (list ascii)) (toks : list token) : list ascii :=
  match gaps, toks with
  | g :: gaps, t :: toks => g ++ render t ++ weave gaps toks
  | _, _ => []
  end.


(** The tokens of [.d1.d2....dn] with every sub-domain a single atom. *)
Fixpoint dot_chain (ds : list mystring) : list token :=
  match ds with
  | [] => []
  | d :: ds => anode0 PERIOD :: mk_token ATOM d :: dot_chain ds
  end.

(** The text [.d1.d2....dn]. *)
Fixpoint dot_text (ds : list mystring) : mystring :=
  match ds with
  | [] => []
  | d :: ds => [node_type_char PERIOD] ++ d ++ dot_text ds
  end.

(** Where the loop of [match_domain] stops: at a token that is neither a
    comment nor a period, or at a period that no sub-domain follows. *)
Definition domain_stop (node : list token) : Prop :=
  exists t rest,
    node = t :: rest /\ type t <> COMMENT /\
    (type t <> PERIOD \/
     exists t2 rest2,
       rest = t2 :: rest2 /\ type t2 <> ATOM /\
       type t2 <> DOMAIN_LITERAL /\ type t2 <> COMMENT).

(** The atoms of a phrase, and the text of the words after the first. *)
Definition atom_chain (ws : list mystring) : list token :=
  map (mk_token ATOM) ws.

Fixpoint spaced (ws : list mystring) : mystring :=
  match ws with
  | [] => []
  | w :: ws => lit " " ++ w ++ spaced ws
  end.

(** The tokens that some grammar rule can step over: all kinds but the
    escape, the head's kind and the end-marker. *)
Definition grammar_kind (t : token) : Prop :=
  type t <> ESCAPE /\ type t <> EMPTY /\ type t <> EOT.

(** [gadv node nxt]: [nxt] is reached from [node] by stepping over tokens
    of those kinds only. *)
Inductive gadv : list token -> list token -> Prop :=
| gadv_here node : gadv node node
| gadv_step t node nxt :
    grammar_kind t -> gadv node nxt -> gadv (t :: node) nxt.

(** A text that [tokenize_atom] reads as one atom. *)
Definition atomic (w : mystring) : Prop :=
  w <> [] /\ forallb isatom w = true.

(** [segments node ds cmt stop]: from [node] on, the domains [ds] stand one
    after the other, each behind an [@] before which comments may stand and
    each as [match_domain] reads it; [cmt] is the comment text met on the
    way, and [stop] is the first position, past the comments, that holds no
    [@], or an [@] that no domain follows. *)
Inductive segments
  : list token -> list mystring -> mystring -> list token -> Prop :=
| segments_end (node : list token) (t : token) (rest : list token)
    (c : mystring) :
    skipcomment node [] = Ret (t :: rest, c) ->
    type t <> AT \/ match_domain rest = Ret None ->
    segments node [] c (t :: rest)
| segments_more (node : list token) (t : token) (rest : list token)
    (c : mystring) (r2 : result) (ds : list mystring) (c' : mystring)
    (stop : list token) :
    skipcomment node [] = Ret (t :: rest, c) ->
    type t = AT ->
    match_domain rest = Ret (Some r2) ->
    segments (next r2) ds c' stop ->
    segments node (addr r2 :: ds) (c ++ comment r2 ++ c') stop.

(** A dotted domain [d0.d1....dk] given by its atoms: its text, and for a
    list of them the tokens and the text of [@dom1@dom2...@domn]. *)
Definition dom_text (d : mystring * list mystring) : mystring :=
  fst d ++ dot_text (snd d).

Fixpoint dat_chain (segs : list (mystring * list mystring)) : list token :=
  match segs with
  | [] => []
  | d :: segs =>
      anode0 AT :: mk_token ATOM (fst d) :: dot_chain (snd d) ++ dat_chain segs
  end.

Fixpoint dat_text (segs : list (mystring * list mystring)) : mystring :=
  match segs with
  | [] => []
  | d :: segs => lit "@" ++ dom_text d ++ dat_text segs
  end.

(** ** The program with its arrays *)

(** [quote] and [unquote] build their result in an array declared in the
    function body, [char out[length*2 + 2 + 1]] and [char out[length+1]],
    whose size is computed from the 32-bit [unsigned length].  The
    definitions [quote] and [unquote] above give the strings the two
    functions compute; here the arrays are part of the run: an array takes
    its bytes from the stack, of which the machine leaves [stack] bytes to
    the call, and a byte written past the array is a fault.  The rules that
    reach [match_word] are the rules above, read again with these two
    functions; the rules that do not ([sub_domain], [domain], [route]), the
    tokenizer, [skipcomment], the loop of [match_addr_spec] and the loops
    over list members are shared. *)
Module Machine.

Section Stack.

Variable stack : Z.
Variable canonicalize : mystring -> mystring.

(** [unsigned length = in.length()] *)
Definition ulength (s : mystring) : nat :=
  Z.to_nat (Z.of_nat (List.length s) mod UINT_MOD).

Definition quote (in_ : mystring) : exec mystring :=
  let length := ulength in_ in
  let size := ((Z.of_nat length * 2 + 2 + 1) mod UINT_MOD)%Z in
  if (stack <? size)%Z then Fault OutOfBounds
  else
    let (out, quoted) := quote_loop (firstn length in_) false in
    if (size <? Z.of_nat (List.length out) + 1)%Z then Fault OutOfBounds
    else Ret (if quoted then [QUOTE] ++ of_cstr out ++ [QUOTE] else in_).

Definition unquote (in_ : mystring) : exec mystring :=
  let length := ulength in_ in
  let size := ((Z.of_nat length + 1) mod UINT_MOD)%Z in
  if (stack <? size)%Z then Fault OutOfBounds
  else if (nth 0 in_ NUL =? QUOTE) && (nth (length - 1) in_ NUL =? QUOTE) then
    if (length <? 2)%nat then Fault OutOfBounds
    else
      '(out, _) <- unquote_loop (length - 2) (tl in_) true ;;
      if (size <? Z.of_nat (List.length out) + 1)%Z then Fault OutOfBounds
      else Ret (of_cstr out)
  else
    '(out, modified) <- unquote_loop length in_ false ;;
    if (size <? Z.of_nat (List.length out) + 1)%Z then Fault OutOfBounds
    else Ret (if modified then of_cstr out else in_).

Definition match_word (node : list token) : exec outcome :=
  '(node, cmt) <- skipcomment node [] ;;
  '(t, nxt) <- deref node ;;
  if node_type_eqb (type t) ATOM then RETURN nxt (text t) cmt (text t)
  else if node_type_eqb (type t) QUOTED_STRING then
    a <- unquote (text t) ;;
    q <- quote a ;;
    RETURN nxt q cmt a
  else FAIL.

Fixpoint local_part_loop (bound : nat) (r : result) : exec result :=
  match bound with
  | O => Fault LoopBound
  | S bound =>
      '(node, cmt) <- skipcomment (next r) (comment r) ;;
      let r := mk_result node (str r) cmt (addr r) in
      '(t, nxt) <- deref node ;;
      if negb (node_type_eqb (type t) PERIOD) then Ret r
      else
        o <- match_word nxt ;;
        let r1 := value o in
        if negb (truthy r1) then Ret r
        else
          local_part_loop bound
            (mk_result (next r1)
               (str r ++ lit "." ++ str r1)
               (comment r ++ comment r1)
               (addr r ++ lit "." ++ addr r1))
  end.

Definition match_local_part (node : list token) : exec outcome :=
  MATCHRULE (match_word node) (fun r =>
  r <- local_part_loop (S (length (next r))) r ;;
  RETURNR r).

Definition match_addr_spec (node : list token) : exec outcome :=
  MATCHRULE (match_local_part node) (fun r =>
  '(r, domain) <- addr_spec_loop (S (length (next r))) r [] ;;
  let domain := canonicalize domain in
  RETURN (next r) (str r ++ lit "@" ++ domain) (comment r)
    (addr r ++ lit "@" ++ domain ++ [CR])).

Definition match_route_addr (node : list token) : exec outcome :=
  '(node, cmt) <- skipcomment node [] ;;
  MATCHTOKEN LABRACKET node (fun node =>
  o <- match_route node ;;
  let r1 := value o in
  let node := if truthy r1 then next r1 else node in
  let cmt := cmt ++ comment r1 in
  MATCHRULE (match_addr_spec node) (fun r2 =>
  let node := next r2 in
  let cmt := cmt ++ comment r2 in
  '(node, cmt) <- skipcomment node cmt ;;
  MATCHTOKEN RABRACKET node (fun node =>
  RETURN node (lit "<" ++ str r2 ++ lit ">" ++ cmt) [] (addr r2)))).

Fixpoint phrase_loop (bound : nat) (r1 : result) : exec result :=
  match bound with
  | O => Fault LoopBound
  | S bound =>
      o <- match_word (next r1) ;;
      let r2 := value o in
      if negb (truthy r2) then Ret r1
      else
        phrase_loop bound
          (mk_result (next r2) (str r1 ++ lit " " ++ str r2)
             (comment r1 ++ comment r2) (addr r1))
  end.

Definition match_phrase (node : list token) : exec outcome :=
  MATCHRULE (match_word node) (fun r1 =>
  r1 <- phrase_loop (S (length (next r1))) r1 ;;
  RETURNR r1).

Definition match_route_spec (node : list token) : exec outcome :=
  o <- match_phrase node ;;
  let r1 := value o in
  let node := if truthy r1 then next r1 else node in
  MATCHRULE (match_route_addr node) (fun r2 =>
  if negb (truthy r1) then RETURNR r2
  else
    RETURNR (mk_result (next r2)
               (str r1 ++ comment r1 ++ lit " " ++ str r2 ++ comment r2)
               (comment r2) (addr r2))).

Definition match_mailbox : list token -> exec outcome :=
  OR_RULE match_route_spec match_addr_spec.

Definition match_mailboxes (node : list token) : exec outcome :=
  MATCHRULE (match_mailbox node) (fun r1 =>
  let r1 := mk_result (next r1) (str r1 ++ comment r1) [] (addr r1) in
  '(r1, node) <- members_loop match_mailbox (S (length (next r1))) r1 ;;
  '(node, s) <- skipcomment node (str r1) ;;
  RETURNR (mk_result node s (comment r1) (addr r1))).

Definition match_group (node : list token) : exec outcome :=
  MATCHRULE (match_phrase node) (fun r1 =>
  let node := next r1 in
  MATCHTOKEN COLON node (fun node =>
  o <- match_mailboxes node ;;
  let r2 := value o in
  let node := if truthy r2 then next r2 else node in
  '(node, cmt) <- skipcomment node [] ;;
  MATCHTOKEN SEMICOLON node (fun node =>
  RETURN node
    (str r1 ++ lit ": " ++ str r2 ++ comment r2 ++ cmt ++ lit ";")
    [] (addr r2)))).

Definition match_address : list token -> exec outcome :=
  OR_RULE match_group match_mailbox.

Definition match_addresses (node : list token) : exec outcome :=
  MATCHRULE (match_address node) (fun r1 =>
  let r1 := mk_result (next r1) (str r1 ++ comment r1) [] (addr r1) in
  '(r1, node) <- members_loop match_address (S (length (next r1))) r1 ;;
  '(node, s) <- skipcomment node (str r1) ;;
  let r1 := mk_result (next r1) s (comment r1) (addr r1) in
  '(_, nxt) <- deref node ;;
  match nxt with
  | _ :: _ => FAIL
  | [] => RETURNR r1
  end).

(** [parse_addresses(line, list)]: the flag returned, then [line] and [list]
    as the call leaves them.  The tokens are built from [line.c_str()]. *)
Definition parse_addresses (line list_ : mystring)
  : exec (bool * (mystring * mystring)) :=
  tokenlist <- tokenize (of_cstr line) ;;
  match tokenlist with
  | None => Ret (false, (line, list_))
  | Some tokenlist =>
      o <- match_addresses tokenlist ;;
      let r := value o in
      if truthy r then Ret (true, (str r, addr r))
      else Ret (false, (line, list_))
  end.

End Stack.

End Machine.

(** A text that the arrays of [unquote] and of [quote] hold: twice its
    length and three bytes more is a size that does not wrap around and that
    the stack has room for. *)
Definition holds (stack : Z) (s : mystring) : Prop :=
  (2 * Z.of_nat (length s) + 3 < UINT_MOD /\
   2 * Z.of_nat (length s) + 3 <= stack)%Z.

(** A chain whose quoted strings are such texts. *)
Definition chain_holds (stack : Z) (node : list token) : Prop :=
  Forall (fun t => type t = QUOTED_STRING -> holds stack (text t)) node.

(** The field that is one quoted string of [n] letters. *)
Definition quoted_letters (n : nat) : mystring :=
  QUOTE :: repeat "a"%char n ++ [QUOTE].



(** * Properties *)

(** ** Token kinds, chains and positions *)

Lemma node_type_eqb_eq (a b : node_type) : node_type_eqb a b = true <-> a = b.
Proof. split; [destruct a, b; simpl; congruence | intros ->; destruct b; reflexivity]. Qed.

Lemma node_type_eqb_neq (a b : node_type) : node_type_eqb a b = false <-> a <> b.
Proof.
  split.
  - intros H E. apply node_type_eqb_eq in E. congruence.
  - intros H. destruct (node_type_eqb a b) eqn:E; [|reflexivity].
    apply node_type_eqb_eq in E. contradiction.
Qed.

Lemma adv_trans (a b c : list token) : adv a b -> adv b c -> adv a c.
Proof. induction 1; intros; [assumption | constructor; auto]. Qed.

Lemma adv_length (a b : list token) : adv a b -> length b <= length a.
Proof. induction 1; simpl; lia. Qed.

Lemma adv_prefix (a b : list token) :
  adv a b <-> exists pre, a = pre ++ b /\ Forall (fun t => type t <> EOT) pre.
Proof.
  split.
  - induction 1 as [n | t n m Ht _ (pre & -> & Hpre)].
    + exists []. split; [reflexivity | constructor].
    + exists (t :: pre). split; [reflexivity | constructor; assumption].
  - intros (pre & -> & Hpre). induction Hpre; simpl; constructor; assumption.
Qed.

Lemma sadv_adv (a b : list token) : sadv a b -> adv a b.
Proof. intros (t & n & -> & Ht & H). constructor; assumption. Qed.

Lemma sadv_length (a b : list token) : sadv a b -> length b < length a.
Proof. intros (t & n & -> & Ht & H). apply adv_length in H. simpl. lia. Qed.

Lemma adv_sadv (a b c : list token) : adv a b -> sadv b c -> sadv a c.
Proof.
  induction 1; intros Hs; [assumption|].
  exists t, node. repeat split; auto. apply sadv_adv. auto.
Qed.

Lemma sadv_trans (a b c : list token) : sadv a b -> adv b c -> sadv a c.
Proof.
  intros (t & n & -> & Ht & H) Hbc. exists t, n. repeat split; auto.
  eapply adv_trans; eassumption.
Qed.

Lemma step_sadv (t : token) (nxt : list token) :
  type t <> EOT -> sadv (t :: nxt) nxt.
Proof. intros. exists t, nxt. repeat split; auto. constructor. Qed.

Lemma wf_cons_inv (t : token) (nxt : list token) :
  wf (t :: nxt) = true -> type t <> EOT -> wf nxt = true /\ tok_ok t = true.
Proof.
  simpl. intros H Ht. apply andb_true_iff in H as [Hok H]. split; [|assumption].
  destruct nxt; [|assumption]. apply node_type_eqb_eq in H. contradiction.
Qed.

Lemma wf_nonnil (node : list token) :
  wf node = true -> exists t nxt, node = t :: nxt.
Proof. destruct node; [discriminate | eauto]. Qed.

Lemma adv_wf (a b : list token) : adv a b -> wf a = true -> wf b = true.
Proof.
  induction 1; intros Hw; [assumption|].
  apply IHadv. eapply wf_cons_inv; eassumption.
Qed.

Lemma wf_truthy (r : result) : wf (next r) = true -> truthy r = true.
Proof. unfold truthy. destruct (next r); [discriminate | reflexivity]. Qed.

(** How a caller sees a rule that is [rule_ok]: a [FAIL], or a [RETURN]
    whose result is truthy and well placed. *)
Lemma rule_ok_call (f : list token -> exec outcome) (node : list token) :
  rule_ok f -> wf node = true ->
  f node = Ret None \/
  exists r, f node = Ret (Some r) /\ truthy r = true /\
            sadv node (next r) /\ wf (next r) = true.
Proof.
  intros Hf Hw. destruct (Hf node Hw) as (o & E & Ho).
  destruct o as [r|]; [right | left; assumption].
  specialize (Ho r eq_refl). exists r.
  assert (wf (next r) = true) by (eapply adv_wf; [apply sadv_adv|]; eassumption).
  auto using wf_truthy.
Qed.

(** ** The matcher on well-formed chains *)

Lemma skipcomment_ok (node : list token) (cmt : mystring) :
  wf node = true ->
  exists node' cmt',
    skipcomment node cmt = Ret (node', cmt') /\ adv node node' /\
    wf node' = true /\
    exists t nxt, node' = t :: nxt /\ type t <> COMMENT.
Proof.
  revert cmt. induction node as [|t nxt IH]; intros cmt Hw; [discriminate|].
  simpl. destruct (node_type_eqb (type t) COMMENT) eqn:E.
  - apply node_type_eqb_eq in E.
    assert (Ht : type t <> EOT) by congruence.
    destruct (wf_cons_inv _ _ Hw Ht) as [Hw' _].
    destruct (IH (cmt ++ lit " " ++ text t) Hw') as (n' & c' & E' & Ha & Hw'' & Hh).
    exists n', c'. repeat split; auto. constructor; assumption.
  - apply node_type_eqb_neq in E. exists (t :: nxt), cmt.
    repeat split; eauto. constructor.
Qed.

(** Runs the [skipcomment] of the goal that starts at the position [Hw]
    speaks of. *)
Ltac use_skipcomment Hw n c E Ha Hw' t nxt Ht :=
  match goal with
  | |- context [skipcomment ?node ?cmt] =>
      let Hh := fresh in
      destruct (skipcomment_ok node cmt Hw) as (n & c & E & Ha & Hw' & Hh);
      destruct Hh as (t & nxt & -> & Ht); rewrite E; cbn [bind deref]
  end.

Lemma match_sub_domain_ok : rule_ok match_sub_domain.
Proof.
  intros node Hw. unfold match_sub_domain.
  use_skipcomment Hw n c E Ha Hw' t nxt Ht.
  destruct (node_type_eqb (type t) ATOM || node_type_eqb (type t) DOMAIN_LITERAL) eqn:Et.
  - eexists; split; [reflexivity|]. intros r [= <-]. simpl.
    eapply adv_sadv; [eassumption|]. apply step_sadv.
    apply orb_true_iff in Et as [Et|Et]; apply node_type_eqb_eq in Et; congruence.
  - eexists; split; [reflexivity|]. discriminate.
Qed.

(** Calls a rule that is [rule_ok] at the position [n] and splits on what the
    caller sees. *)
Ltac call_rule Hrule n Hw r E Htr Hs Hw' :=
  destruct (rule_ok_call _ n Hrule Hw) as [E | (r & E & Htr & Hs & Hw')];
  rewrite E; cbn [bind value];
  [ change (truthy result0) with false; cbn [negb]
  | rewrite Htr; cbn [negb] ].

Ltac period_neq := let H := fresh in intros H; congruence.

Lemma domain_loop_ok (bound : nat) :
  forall (r : result) (cmt : mystring),
    wf (next r) = true -> length (next r) < bound ->
    exists r' cmt',
      domain_loop bound r cmt = Ret (r', cmt') /\
      adv (next r) (next r') /\ wf (next r') = true.
Proof.
  induction bound as [|bound IH]; intros r cmt Hw Hb; [lia|].
  simpl. use_skipcomment Hw n c E Ha Hw1 t nxt Ht.
  destruct (node_type_eqb (type t) PERIOD) eqn:Et; cbn [negb].
  - apply node_type_eqb_eq in Et.
    assert (Hne : type t <> EOT) by congruence.
    destruct (wf_cons_inv _ _ Hw1 Hne) as [Hw2 _].
    call_rule match_sub_domain_ok nxt Hw2 r1 E1 Htr Hs Hw3.
    + eexists _, _. split; [reflexivity|]. simpl. auto.
    + pose proof (adv_length _ _ Ha) as Hl1.
      pose proof (sadv_length _ _ Hs) as Hl2. simpl in Hl1.
      edestruct IH as (r' & c' & E' & Ha' & Hw'); [| |rewrite E'].
      * simpl. exact Hw3.
      * simpl. lia.
      * eexists _, _. split; [reflexivity|]. split; [|assumption].
        simpl in Ha'. eapply adv_trans; [|eassumption].
        eapply adv_trans; [eassumption|]. apply sadv_adv.
        eapply sadv_trans; [apply step_sadv; eassumption|]. apply sadv_adv; assumption.
  - eexists _, _. split; [reflexivity|]. simpl. auto.
Qed.

Lemma match_domain_ok : rule_ok match_domain.
Proof.
  intros node Hw. unfold match_domain, MATCHRULE.
  call_rule match_sub_domain_ok node Hw r E Htr Hs Hw'.
  - eexists; split; [reflexivity|]. discriminate.
  - destruct (domain_loop_ok (S (length (next r))) r [] Hw') as (r' & c' & E' & Ha' & Hw'');
      [lia|]. rewrite E'. cbn [bind].
    eexists; split; [reflexivity|]. intros ? [= <-]. simpl.
    eapply sadv_trans; eassumption.
Qed.

Lemma route_loop_ok (bound : nat) :
  forall (node : list token) (count : Z) (s cmt : mystring),
    wf node = true -> length node < bound ->
    exists st,
      route_loop bound node count s cmt = Ret st /\
      forall node' count' s' cmt',
        st = Some (node', count', s', cmt') ->
        adv node node' /\ wf node' = true.
Proof.
  induction bound as [|bound IH]; intros node count s cmt Hw Hb; [lia|].
  simpl. destruct (wf_nonnil _ Hw) as (t & nxt & ->). cbn [deref bind].
  destruct (node_type_eqb (type t) AT) eqn:Et; cbn [negb].
  - apply node_type_eqb_eq in Et.
    assert (Hne : type t <> EOT) by congruence.
    destruct (wf_cons_inv _ _ Hw Hne) as [Hw2 _].
    call_rule match_domain_ok nxt Hw2 r E1 Htr Hs Hw3.
    + eexists; split; [reflexivity|]. discriminate.
    + pose proof (sadv_length _ _ Hs) as Hl. simpl in Hb.
      edestruct IH as (st & E' & Hst); [exact Hw3 | | rewrite E'].
      * lia.
      * exists st. split; [reflexivity|]. intros n' c' s' m' ->.
        destruct (Hst _ _ _ _ eq_refl) as [Ha' Hw'']. split; [|assumption].
        constructor; [assumption|]. eapply adv_trans; [apply sadv_adv|]; eassumption.
  - eexists; split; [reflexivity|]. intros n' c' s' m' [= <- <- <- <-].
    split; [constructor | assumption].
Qed.

Lemma match_route_ok : rule_ok match_route.
Proof.
  intros node Hw. unfold match_route.
  destruct (route_loop_ok (S (length node)) node 0%Z [] [] Hw) as (st & E & Hst); [lia|].
  rewrite E. cbn [bind]. destruct st as [[[[node' count] s] cmt]|].
  - destruct (Hst _ _ _ _ eq_refl) as [Ha Hw'].
    destruct (count =? 0)%Z; [eexists; split; [reflexivity | discriminate]|].
    use_skipcomment Hw' n c E1 Ha1 Hw1 t nxt Ht.
    unfold MATCHTOKEN. cbn [deref bind].
    destruct (node_type_eqb (type t) COLON) eqn:Et; cbn [negb].
    + apply node_type_eqb_eq in Et.
      eexists; split; [reflexivity|]. intros r [= <-]. simpl.
      eapply adv_sadv; [eapply adv_trans; eassumption|].
      apply step_sadv. congruence.
    + eexists; split; [reflexivity | discriminate].
  - eexists; split; [reflexivity | discriminate].
Qed.

Lemma wf_head_ok (t : token) (nxt : list token) :
  wf (t :: nxt) = true -> tok_ok t = true.
Proof. simpl. intros H. apply andb_true_iff in H. tauto. Qed.

Lemma match_word_ok : rule_ok match_word.
Proof.
  intros node Hw. unfold match_word.
  use_skipcomment Hw n c E Ha Hw' t nxt Ht.
  destruct (node_type_eqb (type t) ATOM) eqn:Et.
  - apply node_type_eqb_eq in Et.
    eexists; split; [reflexivity|]. intros r [= <-]. simpl.
    eapply adv_sadv; [eassumption|]. apply step_sadv. congruence.
  - destruct (node_type_eqb (type t) QUOTED_STRING) eqn:Eq.
    + pose proof (wf_head_ok _ _ Hw') as Hok. unfold tok_ok in Hok.
      rewrite Eq in Hok. apply node_type_eqb_eq in Eq.
      destruct (unquote (text t)) as [a|]; [|discriminate]. cbn [bind].
      eexists; split; [reflexivity|]. intros r [= <-]. simpl.
      eapply adv_sadv; [eassumption|]. apply step_sadv. congruence.
    + eexists; split; [reflexivity | discriminate].
Qed.

Lemma local_part_loop_ok (bound : nat) :
  forall r : result,
    wf (next r) = true -> length (next r) < bound ->
    exists r',
      local_part_loop bound r = Ret r' /\
      adv (next r) (next r') /\ wf (next r') = true.
Proof.
  induction bound as [|bound IH]; intros r Hw Hb; [lia|].
  simpl. use_skipcomment Hw n c E Ha Hw1 t nxt Ht.
  destruct (node_type_eqb (type t) PERIOD) eqn:Et; cbn [negb].
  - apply node_type_eqb_eq in Et.
    assert (Hne : type t <> EOT) by congruence.
    destruct (wf_cons_inv _ _ Hw1 Hne) as [Hw2 _].
    call_rule match_word_ok nxt Hw2 r1 E1 Htr Hs Hw3.
    + eexists. split; [reflexivity|]. simpl. auto.
    + pose proof (adv_length _ _ Ha) as Hl1.
      pose proof (sadv_length _ _ Hs) as Hl2. simpl in Hl1.
      edestruct IH as (r' & E' & Ha' & Hw'); [| |rewrite E'].
      * simpl. exact Hw3.
      * simpl. lia.
      * eexists. split; [reflexivity|]. split; [|assumption].
        simpl in Ha'. eapply adv_trans; [|eassumption].
        eapply adv_trans; [eassumption|].
        constructor; [assumption | apply sadv_adv; assumption].
  - eexists. split; [reflexivity|]. simpl. auto.
Qed.

Lemma match_local_part_ok : rule_ok match_local_part.
Proof.
  intros node Hw. unfold match_local_part, MATCHRULE.
  call_rule match_word_ok node Hw r E Htr Hs Hw'.
  - eexists; split; [reflexivity|]. discriminate.
  - destruct (local_part_loop_ok (S (length (next r))) r Hw') as (r' & E' & Ha' & Hw'');
      [lia|]. rewrite E'. cbn [bind].
    eexists; split; [reflexivity|]. intros ? [= <-].
    eapply sadv_trans; eassumption.
Qed.

Section MatcherOk.

Variable canonicalize : mystring -> mystring.

Lemma addr_spec_loop_ok (bound : nat) :
  forall (r : result) (domain : mystring),
    wf (next r) = true -> length (next r) < bound ->
    exists r' domain',
      addr_spec_loop bound r domain = Ret (r', domain') /\
      adv (next r) (next r') /\ wf (next r') = true.
Proof.
  induction bound as [|bound IH]; intros r domain Hw Hb; [lia|].
  simpl. use_skipcomment Hw n c E Ha Hw1 t nxt Ht.
  destruct (node_type_eqb (type t) AT) eqn:Et; cbn [negb].
  - apply node_type_eqb_eq in Et.
    assert (Hne : type t <> EOT) by congruence.
    destruct (wf_cons_inv _ _ Hw1 Hne) as [Hw2 _].
    call_rule match_domain_ok nxt Hw2 r2 E1 Htr Hs Hw3.
    + eexists _, _. split; [reflexivity|]. simpl. auto.
    + pose proof (adv_length _ _ Ha) as Hl1.
      pose proof (sadv_length _ _ Hs) as Hl2. simpl in Hl1.
      edestruct IH as (r' & d' & E' & Ha' & Hw'); [| |rewrite E'].
      * simpl. exact Hw3.
      * simpl. lia.
      * eexists _, _. split; [reflexivity|]. split; [|assumption].
        simpl in Ha'. eapply adv_trans; [|eassumption].
        eapply adv_trans; [eassumption|].
        constructor; [assumption | apply sadv_adv; assumption].
  - eexists _, _. split; [reflexivity|]. simpl. auto.
Qed.

Lemma match_addr_spec_ok : rule_ok (match_addr_spec canonicalize).
Proof.
  intros node Hw. unfold match_addr_spec, MATCHRULE.
  call_rule match_local_part_ok node Hw r E Htr Hs Hw'.
  - eexists; split; [reflexivity|]. discriminate.
  - destruct (addr_spec_loop_ok (S (length (next r))) r [] Hw')
      as (r' & d' & E' & Ha' & Hw''); [lia|]. rewrite E'. cbn [bind].
    eexists; split; [reflexivity|]. intros ? [= <-]. simpl.
    eapply sadv_trans; eassumption.
Qed.

Lemma match_route_addr_ok : rule_ok (match_route_addr canonicalize).
Proof.
  intros node Hw. unfold match_route_addr.
  use_skipcomment Hw n c E Ha Hw1 t nxt Ht.
  unfold MATCHTOKEN at 1. cbn [deref bind].
  destruct (node_type_eqb (type t) LABRACKET) eqn:Et; cbn [negb];
    [|eexists; split; [reflexivity | discriminate]].
  apply node_type_eqb_eq in Et.
  assert (Hne : type t <> EOT) by congruence.
  destruct (wf_cons_inv _ _ Hw1 Hne) as [Hw2 _].
  assert (Hpos : exists r1 node1,
    match_route nxt = Ret r1 /\
    node1 = (if truthy (value r1) then next (value r1) else nxt) /\
    adv nxt node1 /\ wf node1 = true).
  { destruct (rule_ok_call _ nxt match_route_ok Hw2)
      as [E1 | (r1 & E1 & Htr & Hs & Hw3)].
    - exists None, nxt. repeat split; auto. constructor.
    - exists (Some r1), (next r1). simpl. rewrite Htr.
      repeat split; auto using sadv_adv. }
  destruct Hpos as (o1 & node1 & E1 & Hn1 & Ha1 & Hw3). rewrite E1. cbn [bind].
  rewrite <- Hn1. unfold MATCHRULE.
  call_rule match_addr_spec_ok node1 Hw3 r2 E2 Htr2 Hs2 Hw4;
    [eexists; split; [reflexivity | discriminate]|].
  use_skipcomment Hw4 n2 c2 E3 Ha3 Hw5 t2 nxt2 Ht2.
  unfold MATCHTOKEN. cbn [deref bind].
  destruct (node_type_eqb (type t2) RABRACKET) eqn:Et2; cbn [negb];
    [|eexists; split; [reflexivity | discriminate]].
  apply node_type_eqb_eq in Et2.
  eexists; split; [reflexivity|]. intros ? [= <-]. simpl.
  eapply adv_sadv; [eassumption|].
  eapply sadv_trans; [apply step_sadv; assumption|].
  eapply adv_trans; [eassumption|].
  eapply adv_trans; [apply sadv_adv; eassumption|].
  eapply adv_trans; [eassumption|].
  constructor; [congruence | constructor].
Qed.


(** A rule called where the grammar has an option: the caller moves on to
    the rule's position when the result is truthy, and stays otherwise. *)
Lemma rule_ok_opt (f : list token -> exec outcome) (node : list token) :
  rule_ok f -> wf node = true ->
  exists o node1,
    f node = Ret o /\
    node1 = (if truthy (value o) then next (value o) else node) /\
    adv node node1 /\ wf node1 = true /\
    (truthy (value o) = true -> sadv node node1).
Proof.
  intros Hf Hw.
  destruct (rule_ok_call _ node Hf Hw) as [E | (r & E & Htr & Hs & Hw')].
  - exists None, node. repeat split; auto; [constructor | discriminate].
  - exists (Some r), (next r). simpl. rewrite Htr.
    repeat split; auto using sadv_adv.
Qed.

Lemma phrase_loop_ok (bound : nat) :
  forall r1 : result,
    wf (next r1) = true -> length (next r1) < bound ->
    exists r',
      phrase_loop bound r1 = Ret r' /\
      adv (next r1) (next r') /\ wf (next r') = true.
Proof.
  induction bound as [|bound IH]; intros r1 Hw Hb; [lia|].
  simpl. call_rule match_word_ok (next r1) Hw r2 E Htr Hs Hw'.
  - eexists. split; [reflexivity|]. split; [constructor | assumption].
  - pose proof (sadv_length _ _ Hs) as Hl.
    edestruct IH as (r' & E' & Ha' & Hw''); [| |rewrite E'].
    + simpl. exact Hw'.
    + simpl. lia.
    + eexists. split; [reflexivity|]. split; [|assumption].
      simpl in Ha'. eapply adv_trans; [apply sadv_adv|]; eassumption.
Qed.

Lemma match_phrase_ok : rule_ok match_phrase.
Proof.
  intros node Hw. unfold match_phrase, MATCHRULE.
  call_rule match_word_ok node Hw r E Htr Hs Hw'.
  - eexists; split; [reflexivity|]. discriminate.
  - destruct (phrase_loop_ok (S (length (next r))) r Hw') as (r' & E' & Ha' & Hw'');
      [lia|]. rewrite E'. cbn [bind].
    eexists; split; [reflexivity|]. intros ? [= <-].
    eapply sadv_trans; eassumption.
Qed.

Lemma match_route_spec_ok : rule_ok (match_route_spec canonicalize).
Proof.
  intros node Hw. unfold match_route_spec.
  destruct (rule_ok_opt _ node match_phrase_ok Hw)
    as (o1 & node1 & E1 & Hn1 & Ha1 & Hw1 & _).
  rewrite E1. cbn [bind]. rewrite <- Hn1. unfold MATCHRULE.
  call_rule match_route_addr_ok node1 Hw1 r2 E2 Htr2 Hs2 Hw2;
    [eexists; split; [reflexivity | discriminate]|].
  destruct (truthy (value o1)); cbn [negb];
    (eexists; split; [reflexivity|]; intros ? [= <-]; simpl;
     eapply adv_sadv; eassumption).
Qed.

Lemma OR_RULE_ok (ALT1 ALT2 : list token -> exec outcome) :
  rule_ok ALT1 -> rule_ok ALT2 -> rule_ok (OR_RULE ALT1 ALT2).
Proof.
  intros H1 H2 node Hw. unfold OR_RULE.
  destruct (rule_ok_call _ node H1 Hw) as [E | (r & E & Htr & Hs & Hw')];
    rewrite E; cbn [bind value].
  - change (truthy result0) with false. cbv iota.
    destruct (rule_ok_call _ node H2 Hw) as [E2 | (r & E2 & Htr & Hs & Hw')];
      rewrite E2; cbn [bind value].
    + eexists; split; [reflexivity | discriminate].
    + rewrite Htr. eexists; split; [reflexivity|]. intros ? [= <-]. assumption.
  - rewrite Htr. eexists; split; [reflexivity|]. intros ? [= <-]. assumption.
Qed.

Lemma match_mailbox_ok : rule_ok (match_mailbox canonicalize).
Proof. apply OR_RULE_ok; [apply match_route_spec_ok | apply match_addr_spec_ok]. Qed.

Lemma comma_loop_ok (bound : nat) :
  forall (node : list token) (s : mystring),
    wf node = true -> length node < bound ->
    exists node' s',
      comma_loop bound node s = Ret (node', s') /\
      adv node node' /\ wf node' = true.
Proof.
  induction bound as [|bound IH]; intros node s Hw Hb; [lia|].
  simpl. use_skipcomment Hw n c E Ha Hw1 t nxt Ht.
  destruct (node_type_eqb (type t) COMMA) eqn:Et.
  - apply node_type_eqb_eq in Et.
    assert (Hne : type t <> EOT) by congruence.
    destruct (wf_cons_inv _ _ Hw1 Hne) as [Hw2 _].
    pose proof (adv_length _ _ Ha) as Hl. simpl in Hl.
    destruct (IH nxt c Hw2) as (n' & s' & E' & Ha' & Hw'); [lia|].
    rewrite E'. exists n', s'. split; [reflexivity|]. split; [|assumption].
    eapply adv_trans; [eassumption|]. constructor; assumption.
  - exists (t :: nxt), c. auto.
Qed.

Lemma members_loop_ok (match_member : list token -> exec outcome)
  (bound : nat) :
  rule_ok match_member ->
  forall r1 : result,
    wf (next r1) = true -> length (next r1) < bound ->
    exists r' node',
      members_loop match_member bound r1 = Ret (r', node') /\
      adv (next r1) (next r') /\ adv (next r') node' /\ wf node' = true.
Proof.
  intros Hm. induction bound as [|bound IH]; intros r1 Hw Hb; [lia|].
  cbn [members_loop].
  destruct (comma_loop_ok (S (length (next r1))) (next r1) (str r1) Hw)
    as (node & s & E & Ha & Hw1); [lia|].
  rewrite E. cbn [bind].
  destruct (wf_nonnil _ Hw1) as (t & nxt & ->). cbn [deref bind].
  destruct (node_type_eqb (type t) EOT) eqn:Et.
  - eexists _, _. split; [reflexivity|]. simpl. repeat split; auto. constructor.
  - call_rule Hm (t :: nxt) Hw1 r2 E2 Htr Hs Hw2.
    + eexists _, _. split; [reflexivity|]. simpl. repeat split; auto. constructor.
    + pose proof (adv_length _ _ Ha) as Hl1.
      pose proof (sadv_length _ _ Hs) as Hl2.
      edestruct IH as (r' & n' & E' & Ha1 & Ha2 & Hw'); [| |rewrite E'].
      * simpl. exact Hw2.
      * simpl. lia.
      * eexists _, _. split; [reflexivity|]. simpl in Ha1.
        repeat split; auto.
        eapply adv_trans; [eassumption|].
        eapply adv_trans; [apply sadv_adv|]; eassumption.
Qed.

Lemma match_mailboxes_ok : rule_ok (match_mailboxes canonicalize).
Proof.
  intros node Hw. unfold match_mailboxes, MATCHRULE.
  call_rule match_mailbox_ok node Hw r E Htr Hs Hw';
    [eexists; split; [reflexivity | discriminate]|].
  edestruct (members_loop_ok (match_mailbox canonicalize)) as (r' & n' & E' & Ha1 & Ha2 & Hw1);
    [apply match_mailbox_ok | | | rewrite E'].
  - simpl. exact Hw'.
  - simpl. apply Nat.lt_succ_diag_r.
  - cbn [bind]. simpl in Ha1.
    use_skipcomment Hw1 n c E3 Ha3 Hw3 t nxt Ht.
    eexists; split; [reflexivity|]. intros ? [= <-]. simpl.
    eapply sadv_trans; [eassumption|].
    eapply adv_trans; [eassumption|]. eapply adv_trans; eassumption.
Qed.

Lemma match_group_ok : rule_ok (match_group canonicalize).
Proof.
  intros node Hw. unfold match_group, MATCHRULE.
  call_rule match_phrase_ok node Hw r1 E Htr Hs Hw1;
    [eexists; split; [reflexivity | discriminate]|].
  unfold MATCHTOKEN at 1. destruct (wf_nonnil _ Hw1) as (t & nxt & En).
  rewrite En in *. cbn [deref bind].
  destruct (node_type_eqb (type t) COLON) eqn:Et; cbn [negb];
    [|eexists; split; [reflexivity | discriminate]].
  apply node_type_eqb_eq in Et.
  assert (Hne : type t <> EOT) by congruence.
  destruct (wf_cons_inv _ _ Hw1 Hne) as [Hw2 _].
  destruct (rule_ok_opt _ nxt match_mailboxes_ok Hw2)
    as (o2 & node2 & E2 & Hn2 & Ha2 & Hw3 & _).
  rewrite E2. cbn [bind]. rewrite <- Hn2.
  use_skipcomment Hw3 n c E3 Ha3 Hw4 t3 nxt3 Ht3.
  unfold MATCHTOKEN. cbn [deref bind].
  destruct (node_type_eqb (type t3) SEMICOLON) eqn:Et3; cbn [negb];
    [|eexists; split; [reflexivity | discriminate]].
  apply node_type_eqb_eq in Et3.
  eexists; split; [reflexivity|]. intros ? [= <-]. simpl.
  eapply sadv_trans; [eassumption|].
  constructor; [assumption|].
  eapply adv_trans; [eassumption|]. eapply adv_trans; [eassumption|].
  constructor; [congruence | constructor].
Qed.

Lemma match_address_ok : rule_ok (match_address canonicalize).
Proof. apply OR_RULE_ok; [apply match_group_ok | apply match_mailbox_ok]. Qed.

Lemma match_addresses_ok : rule_ok (match_addresses canonicalize).
Proof.
  intros node Hw. unfold match_addresses, MATCHRULE.
  call_rule match_address_ok node Hw r E Htr Hs Hw';
    [eexists; split; [reflexivity | discriminate]|].
  edestruct (members_loop_ok (match_address canonicalize)) as (r' & n' & E' & Ha1 & Ha2 & Hw1);
    [apply match_address_ok | | | rewrite E'].
  - simpl. exact Hw'.
  - simpl. apply Nat.lt_succ_diag_r.
  - cbn [bind]. simpl in Ha1.
    use_skipcomment Hw1 n c E3 Ha3 Hw3 t nxt Ht.
    destruct nxt.
    + eexists; split; [reflexivity|]. intros ? [= <-]. simpl.
      eapply sadv_trans; eassumption.
    + eexists; split; [reflexivity | discriminate].
Qed.

End MatcherOk.

(** ** The tokenizer *)

Lemma skip_space_length (ptr : list ascii) :
  length (skip_space ptr) <= length ptr.
Proof.
  induction ptr as [|c rest IH]; simpl; [lia|].
  destruct (isspace c); simpl; lia.
Qed.

Lemma atom_end_length (ptr : list ascii) :
  length (atom_end ptr) <= length ptr.
Proof.
  induction ptr as [|c rest IH]; simpl; [lia|].
  destruct (isatom c); simpl; lia.
Qed.

(** Induction on a cursor for the scanners that move by one or two bytes. *)
Lemma cursor_ind (P : list ascii -> Prop) :
  P [] ->
  (forall c, P [c]) ->
  (forall c1 c2 rest, P (c2 :: rest) -> P rest -> P (c1 :: c2 :: rest)) ->
  forall ptr, P ptr.
Proof.
  intros H0 H1 H2 ptr.
  assert (H : P ptr /\ forall c, P (c :: ptr)); [|tauto].
  induction ptr as [|c rest [IHa IHb]]; split; auto.
Qed.

Lemma dtext_end_length (ptr : list ascii) :
  length (dtext_end ptr) <= length ptr.
Proof.
  induction ptr as [|c|c1 c2 rest IH1 IH2] using cursor_ind; [simpl; lia| |].
  - simpl. destruct (c =? NUL), (isdtext c), (isqpair [c]); simpl; lia.
  - cbn [dtext_end]. cbn [dtext_end] in IH1.
    destruct (c1 =? NUL); [simpl; lia|].
    destruct (isdtext c1); [simpl in *; lia|].
    destruct (isqpair (c1 :: c2 :: rest)); simpl in *; lia.
Qed.

Lemma qtext_end_length (ptr : list ascii) :
  length (qtext_end ptr) <= length ptr.
Proof.
  induction ptr as [|c|c1 c2 rest IH1 IH2] using cursor_ind; [simpl; lia| |].
  - simpl. destruct (c =? NUL), (isqtext c), (isqpair [c]); simpl; lia.
  - cbn [qtext_end]. cbn [qtext_end] in IH1.
    destruct (c1 =? NUL); [simpl; lia|].
    destruct (isqtext c1); [simpl in *; lia|].
    destruct (isqpair (c1 :: c2 :: rest)); simpl in *; lia.
Qed.

Lemma comment_loop_spec (start ptr : list ascii) :
  forall (count : Z) (tok : token) (rest : list ascii),
    comment_loop count start ptr = Some (tok, rest) ->
    type tok = COMMENT /\ length rest < length ptr.
Proof.
  induction ptr as [|c|c1 c2 rest' IH1 IH2] using cursor_ind;
    intros count tok rest H; [discriminate| |].
  - simpl in H. destruct (c =? NUL); [discriminate|].
    destruct (isqpair [c]); [discriminate|].
    destruct (c =? LPAREN); [discriminate|].
    destruct (c =? RPAREN).
    + destruct (udecr count =? 0)%Z; [|discriminate].
      injection H as <- <-. simpl. auto.
    + destruct (c =? CR); discriminate.
  - cbn [comment_loop] in H. destruct (c1 =? NUL); [discriminate|].
    destruct (isqpair (c1 :: c2 :: rest')).
    { apply IH2 in H. simpl. intuition lia. }
    assert (Hrec : forall k, comment_loop k start (c2 :: rest') = Some (tok, rest) ->
                   type tok = COMMENT /\ length rest < length (c1 :: c2 :: rest')).
    { intros k Hk. apply IH1 in Hk. simpl in *. intuition lia. }
    destruct (c1 =? LPAREN); [eauto|].
    destruct (c1 =? RPAREN).
    + destruct (udecr count =? 0)%Z; [|eauto].
      injection H as <- <-. simpl. auto.
    + destruct (c1 =? CR); [discriminate | eauto].
Qed.

Lemma peek_nonnul (ptr : list ascii) :
  (peek ptr =? NUL) = false -> exists c rest, ptr = c :: rest /\ (c =? NUL) = false.
Proof. destruct ptr as [|c rest]; simpl; [discriminate | eauto]. Qed.

Lemma special_type_spec (ch : ascii) (t : node_type) :
  special_type ch = Some t ->
  t <> EOT /\ t <> QUOTED_STRING /\ t <> DOMAIN_LITERAL.
Proof.
  unfold special_type.
  repeat match goal with
         | |- (if ?b then _ else _) = _ -> _ => destruct b
         end; intros [= <-] || discriminate; repeat split; discriminate.
Qed.

Lemma isqpair_cons2 (c1 c2 : ascii) (rest : list ascii) :
  isqpair (c1 :: c2 :: rest) = true ->
  c1 = node_type_char ESCAPE /\ (c2 =? NUL) = false.
Proof.
  unfold isqpair. simpl. intros H.
  apply andb_true_iff in H as [H H2]. apply andb_true_iff in H as [_ H1].
  apply Ascii.eqb_eq in H1. apply negb_true_iff in H2. auto.
Qed.

Lemma qtext_end_split (ptr : list ascii) :
  exists body, ptr = body ++ qtext_end ptr /\ qbody body.
Proof.
  induction ptr as [|c|c1 c2 rest IH1 IH2] using cursor_ind.
  - exists []. split; [reflexivity | constructor].
  - simpl. destruct (c =? NUL); [exists []; split; [reflexivity | constructor]|].
    destruct (isqtext c) eqn:Eq.
    + exists [c]. split; [reflexivity | repeat constructor; assumption].
    + assert (Ep : isqpair [c] = false)
        by (unfold isqpair; simpl; apply andb_false_r).
      rewrite Ep. exists []. split; [reflexivity | constructor].
  - cbn [qtext_end]. cbn [qtext_end] in IH1.
    destruct (c1 =? NUL); [exists []; split; [reflexivity | constructor]|].
    destruct (isqtext c1) eqn:Eq.
    + destruct IH1 as (body & E & Hb). exists (c1 :: body). split.
      * simpl. rewrite <- E. reflexivity.
      * constructor; assumption.
    + destruct (isqpair (c1 :: c2 :: rest)) eqn:Ep.
      * apply isqpair_cons2 in Ep as [-> Hc2].
        destruct IH2 as (body & E & Hb).
        exists (node_type_char ESCAPE :: c2 :: body). split.
        -- simpl. rewrite <- E. reflexivity.
        -- constructor; assumption.
      * exists []. split; [reflexivity | constructor].
Qed.

Lemma firstn_app_length {A : Type} (a b : list A) :
  firstn (length (a ++ b) - length b) (a ++ b) = a.
Proof.
  rewrite length_app. replace (length a + length b - length b) with (length a) by lia.
  rewrite firstn_app, firstn_all, Nat.sub_diag. simpl. apply app_nil_r.
Qed.

Lemma tokenize_quoted_string_spec (ptr : list ascii) (tok : token)
  (rest : list ascii) :
  tokenize_quoted_string ptr = Some (tok, rest) ->
  type tok = QUOTED_STRING /\ length rest < length ptr /\
  exists body, qbody body /\ text tok = QUOTE :: body ++ [QUOTE].
Proof.
  unfold tokenize_quoted_string.
  destruct ptr as [|c p1]; [discriminate|]. simpl peek. simpl tl.
  destruct (c =? QUOTE) eqn:Ec; [|discriminate]. cbn [negb].
  apply Ascii.eqb_eq in Ec. subst c.
  destruct (qtext_end_split p1) as (body & E & Hb).
  pose proof (qtext_end_length p1) as Hl.
  destruct (qtext_end p1) as [|q rest'] eqn:Eq; [discriminate|]. simpl peek.
  destruct (q =? QUOTE) eqn:Eqq; [|discriminate]. cbn [negb tl].
  apply Ascii.eqb_eq in Eqq. subst q.
  intros [= <- <-]. split; [reflexivity|]. split; [simpl in *; lia|].
  exists body. split; [assumption|]. unfold anode. cbn [text].
  rewrite E.
  change (QUOTE :: body ++ QUOTE :: rest') with ((QUOTE :: body) ++ QUOTE :: rest').
  replace ((QUOTE :: body) ++ QUOTE :: rest')
    with (((QUOTE :: body) ++ [QUOTE]) ++ rest')
    by (rewrite <- app_assoc; reflexivity).
  rewrite firstn_app_length. reflexivity.
Qed.

Lemma isqtext_not_qpair (c : ascii) (rest : list ascii) :
  isqtext c = true -> isqpair (c :: rest) = false.
Proof.
  unfold isqtext, isqpair. simpl. intros H.
  destruct (c =? NUL); [discriminate|]. destruct (c =? QUOTE); [discriminate|].
  destruct (c =? "\"); [discriminate | reflexivity].
Qed.

Lemma isqpair_escape (c : ascii) (rest : list ascii) :
  (c =? NUL) = false -> isqpair (node_type_char ESCAPE :: c :: rest) = true.
Proof. unfold isqpair. simpl. intros ->. reflexivity. Qed.

(** On the body of a quoted string the loop of [unquote] stays within its
    buffers, whatever follows the body. *)
Lemma unquote_loop_qbody (body : list ascii) :
  qbody body ->
  forall (tail : list ascii) (modified : bool),
    exists out m,
      unquote_loop (length body) (body ++ tail) modified = Ret (out, m).
Proof.
  induction 1 as [|c body Hc Hb IH|c body Hc Hb IH]; intros tail modified.
  - eexists _, _. reflexivity.
  - cbn [length app unquote_loop]. rewrite isqtext_not_qpair by assumption.
    cbn [tl]. destruct (IH tail modified) as (out & m & ->).
    eexists _, _. reflexivity.
  - cbn [length app unquote_loop]. rewrite isqpair_escape by assumption.
    cbn [tl]. destruct (IH tail true) as (out & m & ->).
    eexists _, _. reflexivity.
Qed.

(** [unquote] on a text between quotes: the quotes go and the loop runs on
    what is between them. *)
Lemma unquote_strip (body : list ascii) :
  unquote (QUOTE :: body ++ [QUOTE])
  = ('(out, _) <- unquote_loop (length body) (body ++ [QUOTE]) true ;;
     Ret (of_cstr out)).
Proof.
  unfold unquote.
  cbn [length nth]. rewrite Ascii.eqb_refl. cbn [andb].
  replace (S (length (body ++ [QUOTE])) - 1) with (S (length body))
    by (rewrite length_app; simpl; lia).
  change (nth (S (length body)) (QUOTE :: body ++ [QUOTE]) NUL)
    with (nth (length body) (body ++ [QUOTE]) NUL).
  rewrite app_nth2, Nat.sub_diag by lia. cbn [nth].
  rewrite Ascii.eqb_refl.
  replace (S (length (body ++ [QUOTE])) <? 2)%nat with false
    by (symmetry; apply Nat.ltb_ge; rewrite length_app; simpl; lia).
  replace (S (length (body ++ [QUOTE])) - 2) with (length body)
    by (rewrite length_app; simpl; lia).
  reflexivity.
Qed.

Lemma unquote_quoted (body : list ascii) :
  qbody body -> exists s, unquote (QUOTE :: body ++ [QUOTE]) = Ret s.
Proof.
  intros Hb. rewrite unquote_strip.
  destruct (unquote_loop_qbody body Hb [QUOTE] true) as (out & m & ->).
  cbn [bind]. eexists. reflexivity.
Qed.

Lemma tok_ok_other (t : token) : type t <> QUOTED_STRING -> tok_ok t = true.
Proof.
  intros H. unfold tok_ok. apply node_type_eqb_neq in H. rewrite H. reflexivity.
Qed.

(** After a domain literal the cursor is left on the closing bracket, where
    no token starts. *)
Lemma tokenize1_rsqbracket (rest : list ascii) :
  peek rest = RSQBRACKET -> tokenize1 rest = None.
Proof.
  destruct rest as [|c rest]; simpl; [discriminate|]. intros ->. reflexivity.
Qed.

Lemma tokenize_domain_literal_spec (ptr : list ascii) (tok : token)
  (rest : list ascii) :
  tokenize_domain_literal ptr = Some (tok, rest) ->
  type tok = DOMAIN_LITERAL /\ length rest < length ptr /\
  peek rest = RSQBRACKET.
Proof.
  unfold tokenize_domain_literal.
  destruct ptr as [|c p1]; [discriminate|]. simpl peek. simpl tl.
  destruct (c =? LSQBRACKET); [|discriminate]. cbn [negb].
  set (q := skip_space (dtext_end (skip_space p1))).
  assert (Hl : length q <= length p1).
  { unfold q. etransitivity; [apply skip_space_length|].
    etransitivity; [apply dtext_end_length | apply skip_space_length]. }
  destruct (peek q =? RSQBRACKET) eqn:E; [|discriminate]. cbn [negb].
  intros [= <- <-]. apply Ascii.eqb_eq in E. simpl. repeat split; auto. lia.
Qed.

Lemma tokenize_atom_spec (ptr : list ascii) (tok : token) (rest : list ascii) :
  tokenize_atom ptr = Some (tok, rest) ->
  type tok = ATOM /\ length rest < length ptr.
Proof.
  unfold tokenize_atom. destruct ptr as [|c p1]; [discriminate|].
  simpl peek. simpl tl. destruct (isatom c); [|discriminate]. cbn [negb].
  intros [= <- <-]. pose proof (atom_end_length p1). simpl. split; [reflexivity | lia].
Qed.

Lemma tokenize_comment_spec (ptr : list ascii) (tok : token) (rest : list ascii) :
  tokenize_comment ptr = Some (tok, rest) ->
  type tok = COMMENT /\ length rest < length ptr.
Proof.
  unfold tokenize_comment. destruct (negb (peek ptr =? LPAREN)); [discriminate|].
  apply comment_loop_spec.
Qed.

Lemma tokenize1_spec (ptr : list ascii) (tmp : token) (ptr' : list ascii) :
  tokenize1 ptr = Some (tmp, ptr') ->
  tok_ok tmp = true /\
  (type tmp <> EOT -> length ptr' < length ptr) /\
  (type tmp = DOMAIN_LITERAL -> tokenize1 ptr' = None).
Proof.
  unfold tokenize1. pose proof (skip_space_length ptr) as Hl.
  set (p := skip_space ptr) in *.
  destruct (peek p =? NUL) eqn:Enul.
  { intros [= <- <-]. simpl. repeat split; [contradiction | discriminate]. }
  destruct (peek_nonnul _ Enul) as (c & rest & Ep & _).
  destruct (special_type (peek p)) as [t|] eqn:Esp.
  { intros [= <- <-]. destruct (special_type_spec _ _ Esp) as (H1 & H2 & H3).
    rewrite Ep in *. simpl in *. repeat split.
    - apply tok_ok_other. assumption.
    - lia.
    - intros; contradiction. }
  destruct (peek p =? LPAREN).
  { intros H. apply tokenize_comment_spec in H as [Ht Hlen]. repeat split.
    - apply tok_ok_other. congruence.
    - lia.
    - congruence. }
  destruct (peek p =? LSQBRACKET).
  { intros H. apply tokenize_domain_literal_spec in H as (Ht & Hlen & Hp).
    repeat split.
    - apply tok_ok_other. congruence.
    - lia.
    - intros _. apply tokenize1_rsqbracket. assumption. }
  destruct (peek p =? QUOTE).
  { intros H. apply tokenize_quoted_string_spec in H as (Ht & Hlen & body & Hb & Hx).
    repeat split.
    - unfold tok_ok. rewrite Ht, Hx. simpl.
      destruct (unquote_quoted body Hb) as (s & ->). reflexivity.
    - lia.
    - congruence. }
  intros H. apply tokenize_atom_spec in H as [Ht Hlen]. repeat split.
  - apply tok_ok_other. congruence.
  - lia.
  - congruence.
Qed.

Lemma tokenize_loop_spec (bound : nat) :
  forall (tokens : list token) (ptr : list ascii),
    length ptr < bound -> Forall inner_token tokens ->
    exists o,
      tokenize_loop bound tokens ptr = Ret o /\
      forall toks, o = Some toks -> tokenized toks.
Proof.
  induction bound as [|bound IH]; intros tokens ptr Hb Hin; [lia|].
  cbn [tokenize_loop]. destruct (tokenize1 ptr) as [[tmp ptr']|] eqn:E1;
    [|eexists; split; [reflexivity | discriminate]].
  destruct (tokenize1_spec _ _ _ E1) as (Hok & Hlen & Hdl).
  destruct (node_type_eqb (type tmp) EOT) eqn:Et.
  - apply node_type_eqb_eq in Et. eexists; split; [reflexivity|].
    intros toks [= <-]. exists tokens, tmp. auto.
  - apply node_type_eqb_neq in Et. specialize (Hlen Et).
    destruct (node_type_eqb (type tmp) DOMAIN_LITERAL) eqn:Ed.
    + apply node_type_eqb_eq in Ed. specialize (Hdl Ed).
      destruct bound as [|bound]; [lia|]. cbn [tokenize_loop]. rewrite Hdl.
      eexists; split; [reflexivity | discriminate].
    + apply node_type_eqb_neq in Ed. apply IH; [lia|].
      apply Forall_app. split; [assumption|]. repeat constructor; assumption.
Qed.

Lemma tokenized_wf (toks : list token) : tokenized toks -> wf toks = true.
Proof.
  intros (pre & e & -> & He & Hpre). induction Hpre as [|t pre Ht _ IH].
  - simpl. rewrite tok_ok_other by congruence.
    apply node_type_eqb_eq in He. rewrite He. reflexivity.
  - cbn [app wf]. destruct Ht as (-> & _ & _). cbn [andb].
    destruct (pre ++ [e]) eqn:E; [destruct pre; discriminate | assumption].
Qed.

(** [tokenize] runs within its bound on every text, and a chain it returns
    is well formed. *)
Lemma tokenize_spec (str : mystring) :
  exists o, tokenize str = Ret o /\ forall toks, o = Some toks -> tokenized toks.
Proof. apply tokenize_loop_spec; [lia | constructor]. Qed.

(** ** Inversion of executions *)

Lemma bind_Ret_inv {A B : Type} (m : exec A) (k : A -> exec B) (b : B) :
  bind m k = Ret b -> exists a, m = Ret a /\ k a = Ret b.
Proof. destruct m as [a|f]; simpl; [eauto | discriminate]. Qed.

Ltac inv_bind H a Ha :=
  apply bind_Ret_inv in H; destruct H as (a & Ha & H).

Lemma skipcomment_junk (node : list token) :
  forall (cmt : mystring) (node' : list token) (cmt' : mystring),
    skipcomment node cmt = Ret (node', cmt') ->
    exists junk, node = junk ++ node' /\ Forall filler junk.
Proof.
  induction node as [|t nxt IH]; intros cmt node' cmt' H; [discriminate|].
  simpl in H. destruct (node_type_eqb (type t) COMMENT) eqn:Et.
  - apply IH in H as (junk & -> & Hj). exists (t :: junk).
    split; [reflexivity|]. constructor; [|assumption].
    right. apply node_type_eqb_eq. assumption.
  - injection H as <- <-. exists []. split; [reflexivity | constructor].
Qed.

Section Trailing.

Variable canonicalize : mystring -> mystring.

Lemma comma_loop_junk (bound : nat) :
  forall (node : list token) (s : mystring) (node' : list token) (s' : mystring),
    comma_loop bound node s = Ret (node', s') ->
    exists junk, node = junk ++ node' /\ Forall filler junk.
Proof.
  induction bound as [|bound IH]; intros node s node' s' H; [discriminate|].
  cbn [comma_loop] in H. inv_bind H x Hx. destruct x as [n1 s1].
  apply skipcomment_junk in Hx as (j1 & -> & Hj1).
  inv_bind H y Hy. destruct y as [t nxt].
  destruct n1 as [|t1 n1]; [discriminate|]. injection Hy as -> ->.
  destruct (node_type_eqb (type t) COMMA) eqn:Et.
  - apply IH in H as (j2 & -> & Hj2). exists (j1 ++ t :: j2). split.
    + rewrite <- app_assoc. reflexivity.
    + apply Forall_app. split; [assumption|]. constructor; [|assumption].
      left. apply node_type_eqb_eq. assumption.
  - injection H as <- <-. exists j1. auto.
Qed.

Lemma members_loop_junk (match_member : list token -> exec outcome)
  (bound : nat) :
  forall (r1 r' : result) (node' : list token),
    members_loop match_member bound r1 = Ret (r', node') ->
    exists junk, next r' = junk ++ node' /\ Forall filler junk.
Proof.
  induction bound as [|bound IH]; intros r1 r' node' H; [discriminate|].
  cbn [members_loop] in H. inv_bind H x Hx. destruct x as [n1 s1].
  apply comma_loop_junk in Hx as (j1 & E1 & Hj1).
  inv_bind H y Hy. destruct y as [t nxt].
  destruct (node_type_eqb (type t) EOT).
  - injection H as <- <-. simpl. eauto.
  - inv_bind H o Ho. destruct (negb (truthy (value o))).
    + injection H as <- <-. simpl. eauto.
    + apply IH in H. assumption.
Qed.

(** When [match_addresses] returns a result, nothing but commas and comments
    stands between the position after its last address and the last token of
    the chain. *)
Lemma match_addresses_tail (node : list token) (r : result) :
  match_addresses canonicalize node = Ret (Some r) ->
  exists junk e, next r = junk ++ [e] /\ Forall filler junk.
Proof.
  unfold match_addresses, MATCHRULE. intros H.
  inv_bind H o Ho. destruct (negb (truthy (value o))); [discriminate|].
  inv_bind H x Hx. destruct x as [r1 n1].
  apply members_loop_junk in Hx as (j1 & E1 & Hj1).
  inv_bind H y Hy. destruct y as [n2 s2].
  apply skipcomment_junk in Hy as (j2 & -> & Hj2).
  inv_bind H z Hz. destruct z as [t nxt].
  destruct n2 as [|t2 n2]; [discriminate|]. injection Hz as -> ->.
  destruct nxt; [|discriminate]. injection H as <-. simpl.
  exists (j1 ++ j2), t. split.
  - rewrite E1, <- app_assoc. reflexivity.
  - apply Forall_app. auto.
Qed.

End Trailing.

(** ** The entry point *)

(** Where the arrays of [quote] and [unquote] are left out of the account,
    [parse_addresses] runs to a result on every input text: no loop of the
    tokenizer or of the matcher uses up its bound, no null pointer is read,
    and the loop of [unquote] stays within the token it reads. *)
Lemma parse_addresses_returns
  (canonicalize : mystring -> mystring) (line list_ : mystring) :
  exists b line' list',
    parse_addresses canonicalize line list_ = Ret (b, (line', list')).
Proof.
  unfold parse_addresses.
  destruct (tokenize_spec (of_cstr line)) as (o & -> & Ho). cbn [bind].
  destruct o as [toks|]; [|eauto].
  pose proof (tokenized_wf _ (Ho _ eq_refl)) as Hw.
  destruct (match_addresses_ok canonicalize toks Hw) as (o' & -> & _).
  cbn [bind]. destruct (truthy (value o')); eauto.
Qed.

(** C4.  [parse_addresses] is all or nothing.  When [tokenize] returns the
    null pointer, or [match_addresses] fails, the call returns false and
    [line] and [list] are as the caller passed them.  Every call ends in one
    of two ways: false with both strings untouched, or true with the strings
    of a result of [match_addresses] after whose last address only commas
    and comments precede the last token of the chain. *)
Theorem parse_addresses_all_or_nothing
  (canonicalize : mystring -> mystring) (line list_ : mystring) :
  (tokenize (of_cstr line) = Ret None \/
   (exists toks, tokenize (of_cstr line) = Ret (Some toks) /\
                 match_addresses canonicalize toks = Ret None) ->
   parse_addresses canonicalize line list_ = Ret (false, (line, list_))) /\
  (forall (b : bool) (line' list' : mystring),
     parse_addresses canonicalize line list_ = Ret (b, (line', list')) ->
     (b = false /\ line' = line /\ list' = list_) \/
     (b = true /\
      exists toks r junk e,
        tokenize (of_cstr line) = Ret (Some toks) /\
        match_addresses canonicalize toks = Ret (Some r) /\
        next r = junk ++ [e] /\ Forall filler junk /\
        line' = str r /\ list' = addr r)).
Proof.
  unfold parse_addresses. split.
  - intros [-> | (toks & -> & E)]; [reflexivity|]. cbn [bind]. rewrite E.
    reflexivity.
  - intros b line' list' H. inv_bind H o Ho. destruct o as [toks|].
    + inv_bind H o' Ho'. destruct (truthy (value o')) eqn:Htr.
      * injection H as <- <- <-. right. split; [reflexivity|].
        destruct o' as [r|]; [|discriminate Htr]. simpl.
        destruct (match_addresses_tail _ _ _ Ho') as (junk & e & E & Hj).
        exists toks, r, junk, e. repeat split; assumption.
      * injection H as <- <- <-. auto.
    + injection H as <- <- <-. auto.
Qed.

Lemma parse_addresses_all_or_nothing_witness :
  parse_addresses stub (lit "a@b >") (lit "old")
  = Ret (false, (lit "a@b >", lit "old")) /\
  ((false = false /\ lit "a@b >" = lit "a@b >" /\ lit "old" = lit "old") \/
   (false = true /\
    exists toks r junk e,
      tokenize (of_cstr (lit "a@b >")) = Ret (Some toks) /\
      match_addresses stub toks = Ret (Some r) /\
      next r = junk ++ [e] /\ Forall filler junk /\
      lit "a@b >" = str r /\ lit "old" = addr r)).
Proof.
  split.
  - apply (proj1 (parse_addresses_all_or_nothing stub (lit "a@b >") (lit "old"))).
    right. eexists. split; reflexivity.
  - apply (proj2 (parse_addresses_all_or_nothing stub (lit "a@b >") (lit "old"))).
    reflexivity.
Defined.

(** C8.  The texts with an unterminated quoted string, comment or domain
    literal do not tokenize, and [parse_addresses] returns false on them.
    Whatever tokens the loop of [tokenize] has chained so far, a scan that
    fails makes it return the null pointer, and [parse_addresses] then
    returns before the matcher is called. *)
Theorem unterminated_fail
  (canonicalize : mystring -> mystring) (list_ : mystring) :
  (tokenize (QUOTE :: lit "unterminated") = Ret None /\
   parse_addresses canonicalize (QUOTE :: lit "unterminated") list_
   = Ret (false, (QUOTE :: lit "unterminated", list_))) /\
  (tokenize (lit "(unterminated") = Ret None /\
   parse_addresses canonicalize (lit "(unterminated") list_
   = Ret (false, (lit "(unterminated", list_))) /\
  (tokenize (lit "[unterminated") = Ret None /\
   parse_addresses canonicalize (lit "[unterminated") list_
   = Ret (false, (lit "[unterminated", list_))) /\
  (forall (bound : nat) (tokens : list token) (ptr : list ascii),
     tokenize1 ptr = None ->
     tokenize_loop (S bound) tokens ptr = Ret None) /\
  (forall line : mystring,
     tokenize (of_cstr line) = Ret None ->
     parse_addresses canonicalize line list_ = Ret (false, (line, list_))).
Proof.
  repeat split; try reflexivity.
  - intros bound tokens ptr H. cbn [tokenize_loop]. rewrite H. reflexivity.
  - intros line H. unfold parse_addresses. rewrite H. reflexivity.
Qed.

Lemma unterminated_fail_witness :
  tokenize_loop 1 [mk_token ATOM (lit "a")] (lit "(b") = Ret None /\
  parse_addresses stub (lit "a (b") (lit "old")
  = Ret (false, (lit "a (b", lit "old")).
Proof.
  split.
  - apply (proj1 (proj2 (proj2 (proj2 (unterminated_fail stub (lit "old")))))).
    reflexivity.
  - apply (proj2 (proj2 (proj2 (proj2 (unterminated_fail stub (lit "old")))))).
    reflexivity.
Defined.

(** C7.  With the canonicalizer that leaves the domain as it is, the group
    [list: a@b.c, d@e.f;] parses; the canonical output is the two addresses,
    each followed by a line feed, and the display output is the input. *)
Theorem group_syntax :
  parse_addresses stub (lit "list: a@b.c, d@e.f;") []
  = Ret (true, (lit "list: a@b.c, d@e.f;",
                lit "a@b.c" ++ [CR] ++ lit "d@e.f" ++ [CR])).
Proof. reflexivity. Qed.

(** ** The end-marker *)

Lemma sadv_prefix (node nxt : list token) :
  sadv node nxt ->
  exists consumed,
    consumed <> [] /\ node = consumed ++ nxt /\
    Forall (fun t => type t <> EOT) consumed.
Proof.
  intros (t & n & -> & Ht & Ha). apply adv_prefix in Ha as (pre & -> & Hpre).
  exists (t :: pre). split; [discriminate|]. split; [reflexivity|].
  constructor; assumption.
Qed.

Lemma rules_ok (canonicalize : mystring -> mystring)
  (f : list token -> exec outcome) :
  In f (rules canonicalize) -> rule_ok f.
Proof.
  unfold rules. simpl. intros H.
  repeat (destruct H as [<- | H]);
    auto using match_sub_domain_ok, match_domain_ok, match_route_ok,
      match_word_ok, match_local_part_ok, match_addr_spec_ok,
      match_route_addr_ok, match_phrase_ok, match_route_spec_ok,
      match_mailbox_ok, match_mailboxes_ok, match_group_ok,
      match_address_ok, match_addresses_ok.
  contradiction.
Qed.

(** C10.  A chain that [tokenize] returns is well formed, with one
    end-marker, its last token.  On every well-formed chain neither
    [skipcomment] nor a grammar rule steps over the end-marker: the tokens
    skipped or consumed are never end-markers, and the position left is a
    well-formed chain, hence not null.  So a rule's result is truthy
    exactly when the rule ended in a [RETURN]. *)
Theorem end_marker_never_consumed (canonicalize : mystring -> mystring) :
  (forall (str : mystring) (toks : list token),
     tokenize str = Ret (Some toks) ->
     wf toks = true /\
     exists pre e,
       toks = pre ++ [e] /\ type e = EOT /\
       Forall (fun t => type t <> EOT) pre) /\
  (forall (node : list token) (cmt : mystring),
     wf node = true ->
     exists node' cmt' skipped,
       skipcomment node cmt = Ret (node', cmt') /\
       node = skipped ++ node' /\
       Forall (fun t => type t <> EOT) skipped /\
       node' <> [] /\ wf node' = true) /\
  (forall (f : list token -> exec outcome) (node : list token),
     In f (rules canonicalize) -> wf node = true ->
     exists o,
       f node = Ret o /\
       (truthy (value o) = true <-> o <> None) /\
       forall r, o = Some r ->
         (exists consumed,
            consumed <> [] /\ node = consumed ++ next r /\
            Forall (fun t => type t <> EOT) consumed) /\
         next r <> [] /\ wf (next r) = true).
Proof.
  split; [|split].
  - intros str toks H. destruct (tokenize_spec str) as (o & E & Ho).
    assert (Ht : tokenized toks) by (apply Ho; congruence).
    split; [apply tokenized_wf; assumption|].
    destruct Ht as (pre & e & -> & He & Hpre). exists pre, e.
    repeat split; auto.
    eapply Forall_impl; [|eassumption]. intros t (_ & Ht & _). assumption.
  - intros node cmt Hw.
    destruct (skipcomment_ok node cmt Hw) as (n & c & E & Ha & Hw' & t & nxt & -> & _).
    apply adv_prefix in Ha as (pre & -> & Hpre).
    exists (t :: nxt), c, pre. repeat split; auto. discriminate.
  - intros f node Hin Hw. apply rules_ok in Hin.
    destruct (rule_ok_call f node Hin Hw) as [E | (r & E & Htr & Hs & Hw')].
    + exists None. split; [assumption|]. split; [|discriminate].
      simpl. split; [discriminate | congruence].
    + exists (Some r). split; [assumption|]. split.
      * simpl. split; [discriminate | auto].
      * intros ? [= <-]. split; [apply sadv_prefix; assumption|].
        split; [|assumption]. destruct (next r); discriminate.
Qed.

Lemma end_marker_never_consumed_witness :
  (wf [mk_token ATOM (lit "a"); anode0 AT; mk_token ATOM (lit "b"); anode0 EOT]
   = true /\
   exists pre e,
     [mk_token ATOM (lit "a"); anode0 AT; mk_token ATOM (lit "b"); anode0 EOT]
     = pre ++ [e] /\ type e = EOT /\
     Forall (fun t => type t <> EOT) pre) /\
  (exists node' cmt' skipped,
     skipcomment [mk_token COMMENT (lit "(c)"); anode0 EOT] []
     = Ret (node', cmt') /\
     [mk_token COMMENT (lit "(c)"); anode0 EOT] = skipped ++ node' /\
     Forall (fun t => type t <> EOT) skipped /\
     node' <> [] /\ wf node' = true) /\
  exists o,
    match_addr_spec stub
      [mk_token ATOM (lit "a"); anode0 AT; mk_token ATOM (lit "b"); anode0 EOT]
    = Ret o /\
    (truthy (value o) = true <-> o <> None) /\
    forall r, o = Some r ->
      (exists consumed,
         consumed <> [] /\
         [mk_token ATOM (lit "a"); anode0 AT; mk_token ATOM (lit "b"); anode0 EOT]
         = consumed ++ next r /\
         Forall (fun t => type t <> EOT) consumed) /\
      next r <> [] /\ wf (next r) = true.
Proof.
  split; [|split].
  - apply (proj1 (end_marker_never_consumed stub) (lit "a@b")). reflexivity.
  - apply (proj1 (proj2 (end_marker_never_consumed stub))). reflexivity.
  - apply (proj2 (proj2 (end_marker_never_consumed stub))).
    + simpl. tauto.
    + reflexivity.
Defined.

(** ** The grammar rule invariant *)






Section Invariant.

Variable canonicalize : mystring -> mystring.



End Invariant.



(** C5.  [addresses] does not return the position past what it consumed.
    On the tokens of [<a@b> (c)] the rule takes the text of the trailing
    comment into its display string and returns the position of that very
    comment: its loop moves the cursor [node] and the rule ends in
    [RETURNR(r1)] with [r1.next] as the last address left it.
    [match_mailboxes], whose loop is the same text, assigns
    [r1.next = node] before it returns, and on the same tokens returns the
    position after the comment. *)
Lemma addresses_returns_absorbed_comment :
  tokenize (lit "<a@b> (c)")
  = Ret (Some [anode0 LABRACKET; mk_token ATOM (lit "a"); anode0 AT;
               mk_token ATOM (lit "b"); anode0 RABRACKET;
               mk_token COMMENT (lit "(c)"); anode0 EOT]) /\
  match_addresses stub
    [anode0 LABRACKET; mk_token ATOM (lit "a"); anode0 AT;
     mk_token ATOM (lit "b"); anode0 RABRACKET;
     mk_token COMMENT (lit "(c)"); anode0 EOT]
  = Ret (Some (mk_result [mk_token COMMENT (lit "(c)"); anode0 EOT]
                 (lit "<a@b>" ++ lit " " ++ lit "(c)") []
                 (lit "a@b" ++ [CR]))) /\
  ~ past_comments [mk_token COMMENT (lit "(c)"); anode0 EOT] /\
  match_mailboxes stub
    [anode0 LABRACKET; mk_token ATOM (lit "a"); anode0 AT;
     mk_token ATOM (lit "b"); anode0 RABRACKET;
     mk_token COMMENT (lit "(c)"); anode0 EOT]
  = Ret (Some (mk_result [anode0 EOT]
                 (lit "<a@b>" ++ lit " " ++ lit "(c)") []
                 (lit "a@b" ++ [CR]))).
Proof.
  repeat split; try reflexivity.
  intros (t & nxt & [= <- <-] & Ht). apply Ht. reflexivity.
Qed.

(** ** Routes *)

Lemma route_loop_start (bound : nat) (t : token) (nxt : list token)
  (count : Z) (s cmt : mystring) :
  type t <> AT ->
  route_loop (S bound) (t :: nxt) count s cmt
  = Ret (Some (t :: nxt, count, s, cmt)).
Proof.
  intros H. apply node_type_eqb_neq in H. simpl. rewrite H. reflexivity.
Qed.

Section Route.

Variable canonicalize : mystring -> mystring.

(** C6.  A route adds nothing to the canonical address.  The result of
    [match_route] has an empty [addr]; where the chain does not start with
    [@] no domain is matched and [match_route] fails.  When
    [match_route_addr] returns a result, [match_addr_spec] has returned one
    at the position after the bracket, moved past the route when one
    matched, and the [addr] of the two results is the same. *)
Theorem route_adds_no_canonical_text :
  (forall (node : list token) (r1 : result),
     match_route node = Ret (Some r1) -> addr r1 = []) /\
  (forall (t : token) (nxt : list token),
     type t <> AT -> match_route (t :: nxt) = Ret None) /\
  (forall (node : list token) (r : result),
     match_route_addr canonicalize node = Ret (Some r) ->
     exists cmt t nxt o1 r2,
       skipcomment node [] = Ret (t :: nxt, cmt) /\
       type t = LABRACKET /\
       match_route nxt = Ret o1 /\
       match_addr_spec canonicalize
         (if truthy (value o1) then next (value o1) else nxt)
       = Ret (Some r2) /\
       addr r = addr r2).
Proof.
  split; [|split].
  - intros node r1. unfold match_route. intros H. inv_bind H st Hst.
    destruct st as [[[[n count] s] cmt]|]; [|discriminate].
    destruct (count =? 0)%Z; [discriminate|].
    inv_bind H x Hx. destruct x as [n1 c1]. unfold MATCHTOKEN in H.
    inv_bind H y Hy. destruct y as [t nxt].
    destruct (negb (node_type_eqb (type t) COLON)); [discriminate|].
    injection H as <-. reflexivity.
  - intros t nxt Ht. unfold match_route. cbn [length].
    rewrite route_loop_start by assumption. reflexivity.
  - intros node r. unfold match_route_addr. intros H.
    inv_bind H x Hx. destruct x as [n1 c1]. unfold MATCHTOKEN at 1 in H.
    inv_bind H y Hy. destruct y as [t nxt].
    destruct n1 as [|t1 n1]; [discriminate|]. injection Hy as -> ->.
    destruct (node_type_eqb (type t) LABRACKET) eqn:Et; [|discriminate].
    cbn [negb] in H. apply node_type_eqb_eq in Et.
    inv_bind H o1 Ho1. unfold MATCHRULE in H. inv_bind H o2 Ho2.
    destruct (truthy (value o2)) eqn:Htr; [|discriminate]. cbn [negb] in H.
    destruct o2 as [r2|]; [|discriminate Htr]. cbn [value] in H.
    inv_bind H z Hz. destruct z as [n3 c3]. unfold MATCHTOKEN in H.
    inv_bind H w Hw. destruct w as [t4 n4].
    destruct (negb (node_type_eqb (type t4) RABRACKET)); [discriminate|].
    injection H as <-. exists c1, t, nxt, o1, r2. repeat split; assumption.
Qed.

End Route.

Lemma route_adds_no_canonical_text_witness :
  addr (mk_result [anode0 EOT] (lit "@x") [] []) = [] /\
  match_route [anode0 RABRACKET; anode0 EOT] = Ret None /\
  exists cmt t nxt o1 r2,
    skipcomment
      [anode0 LABRACKET; anode0 AT; mk_token ATOM (lit "x"); anode0 COLON;
       mk_token ATOM (lit "a"); anode0 AT; mk_token ATOM (lit "b");
       anode0 RABRACKET; anode0 EOT] []
    = Ret (t :: nxt, cmt) /\
    type t = LABRACKET /\
    match_route nxt = Ret o1 /\
    match_addr_spec stub
      (if truthy (value o1) then next (value o1) else nxt)
    = Ret (Some r2) /\
    addr (mk_result [anode0 EOT] (lit "<a@b>") [] (lit "a@b" ++ [CR]))
    = addr r2.
Proof.
  split; [|split].
  - apply (proj1 (route_adds_no_canonical_text stub)
             [anode0 AT; mk_token ATOM (lit "x"); anode0 COLON; anode0 EOT]).
    reflexivity.
  - apply (proj1 (proj2 (route_adds_no_canonical_text stub))). discriminate.
  - apply (proj2 (proj2 (route_adds_no_canonical_text stub))). reflexivity.
Defined.

(** ** Source routes in addr-spec *)

Lemma match_domain_atom (d : mystring) (h : token) (nxt : list token) :
  type h <> COMMENT -> type h <> PERIOD ->
  match_domain (mk_token ATOM d :: h :: nxt)
  = Ret (Some (mk_result (h :: nxt) d [] d)).
Proof.
  intros Hc Hp. apply node_type_eqb_neq in Hc, Hp.
  unfold match_domain, MATCHRULE, match_sub_domain. simpl.
  rewrite Hc. simpl. rewrite Hp. reflexivity.
Qed.

Lemma at_chain_head (ds : list mystring) (t : token) (rest : list token) :
  type t <> PERIOD -> type t <> COMMENT ->
  exists h nxt,
    at_chain ds ++ t :: rest = h :: nxt /\
    type h <> COMMENT /\ type h <> PERIOD.
Proof.
  intros Hp Hc. destruct ds as [|d ds]; simpl.
  - exists t, rest. auto.
  - eexists _, _. split; [reflexivity|]. simpl. split; discriminate.
Qed.

Lemma last_cons_default {A : Type} (l : list A) (a d : A) :
  last (a :: l) d = last l a.
Proof.
  revert a d. induction l as [|b l IH]; intros a d; [reflexivity|].
  change (last (a :: b :: l) d) with (last (b :: l) d).
  rewrite (IH b d), (IH b a). reflexivity.
Qed.

Lemma route_prefix_at_text (ds : list mystring) :
  forall dom : mystring,
    dom <> [] -> Forall (fun d => d <> []) ds ->
    route_prefix dom ds ++ lit "@" ++ last ds dom = at_text (dom :: ds).
Proof.
  induction ds as [|d ds IH]; intros dom Hdom Hds.
  - simpl. rewrite app_nil_r. reflexivity.
  - inversion Hds as [|? ? Hd Hds']; subst.
    rewrite last_cons_default. cbn [route_prefix].
    rewrite <- app_assoc, IH by assumption.
    unfold pending. destruct dom; [contradiction|]. reflexivity.
Qed.

Lemma route_prefix_removelast (ds : list mystring) :
  forall dom : mystring,
    dom <> [] -> Forall (fun d => d <> []) ds ->
    route_prefix dom ds = at_text (removelast (dom :: ds)).
Proof.
  induction ds as [|d ds IH]; intros dom Hdom Hds; [reflexivity|].
  inversion Hds as [|? ? Hd Hds']; subst.
  cbn [route_prefix]. rewrite IH by assumption.
  unfold pending. destruct dom; [contradiction|]. reflexivity.
Qed.

Section SourceRoute.

Variable canonicalize : mystring -> mystring.

Lemma addr_spec_loop_chain (t : token) (rest : list token) :
  stopper t ->
  forall (ds : list mystring) (bound : nat) (s c a domain : mystring),
    length (at_chain ds ++ t :: rest) < bound ->
    addr_spec_loop bound (mk_result (at_chain ds ++ t :: rest) s c a) domain
    = Ret (mk_result (t :: rest) (s ++ route_prefix domain ds) c
             (a ++ route_prefix domain ds),
           last ds domain).
Proof.
  intros (Hat & Hp & Hc).
  induction ds as [|d ds IH]; intros bound s c a domain Hb;
    (destruct bound as [|bound]; [simpl in Hb; lia|]).
  - apply node_type_eqb_neq in Hat, Hc. simpl. rewrite Hc. simpl. rewrite Hat.
    simpl. rewrite !app_nil_r. reflexivity.
  - destruct (at_chain_head ds t rest Hp Hc) as (h & nxt & E & Hhc & Hhp).
    cbn [at_chain app] in *. rewrite E in *.
    cbn [addr_spec_loop next skipcomment anode0 type node_type_eqb bind deref negb].
    rewrite match_domain_atom by assumption.
    cbn [bind value truthy next negb str comment addr].
    rewrite last_cons_default.
    assert (Hfold :
      (if negb (mystring_not domain)
       then mk_result (anode0 AT :: mk_token ATOM d :: h :: nxt)
              (s ++ lit "@" ++ domain) c (a ++ lit "@" ++ domain)
       else mk_result (anode0 AT :: mk_token ATOM d :: h :: nxt) s c a)
      = mk_result (anode0 AT :: mk_token ATOM d :: h :: nxt)
          (s ++ pending domain) c (a ++ pending domain)).
    { unfold pending. destruct domain; simpl; rewrite ?app_nil_r; reflexivity. }
    rewrite Hfold. cbn [str comment addr].
    rewrite app_nil_r. rewrite IH by (simpl in Hb |- *; lia).
    rewrite <- !app_assoc. reflexivity.
Qed.

Lemma match_addr_spec_chain (node : list token) (rL : result)
  (ds : list mystring) (t : token) (rest : list token) :
  match_local_part node = Ret (Some rL) ->
  next rL = at_chain ds ++ t :: rest ->
  stopper t ->
  match_addr_spec canonicalize node
  = Ret (Some (mk_result (t :: rest)
                 (str rL ++ route_prefix [] ds ++ lit "@"
                  ++ canonicalize (last ds []))
                 (comment rL)
                 (addr rL ++ route_prefix [] ds ++ lit "@"
                  ++ canonicalize (last ds []) ++ [CR]))).
Proof.
  intros HL Hn Hst. unfold match_addr_spec, MATCHRULE. rewrite HL.
  cbn [bind value]. destruct rL as [n s c a]. cbn [next] in Hn. subst n.
  assert (Htr : truthy (mk_result (at_chain ds ++ t :: rest) s c a) = true).
  { unfold truthy. cbn [next]. destruct ds; reflexivity. }
  rewrite Htr. cbn [negb next].
  rewrite addr_spec_loop_chain by (assumption || lia).
  cbn [bind next str comment addr]. unfold RETURN, RETURNR.
  rewrite <- !app_assoc. reflexivity.
Qed.

End SourceRoute.

(** ** Atoms in the text *)

Lemma issymbol_false (c : ascii) :
  issymbol c = false ->
  special_type c = None /\ (c =? LPAREN) = false /\
  (c =? LSQBRACKET) = false /\ (c =? QUOTE) = false /\
  (c =? node_type_char ESCAPE) = false.
Proof.
  unfold issymbol, special_type. rewrite !orb_false_iff.
  intros ((((((((((((H1 & H2) & H3) & H4) & H5) & H6) & H7) & H8) & H9)
              & H10) & H11) & H12) & H13).
  rewrite H3, H4, H7, H8, H9, H10, H11, H13. auto.
Qed.

Lemma isatom_inv (c : ascii) :
  isatom c = true ->
  isspace c = false /\ issymbol c = false /\ (c =? NUL) = false.
Proof.
  unfold isatom. rewrite negb_true_iff, !orb_false_iff.
  intros [[Hs Hy] Hc]. repeat split; auto.
  destruct (c =? NUL) eqn:E; [|reflexivity].
  apply Ascii.eqb_eq in E. subst c. discriminate Hc.
Qed.

Lemma atom_end_app (a rest : list ascii) :
  forallb isatom a = true -> isatom (peek rest) = false ->
  atom_end (a ++ rest) = rest.
Proof.
  intros Ha Hr. induction a as [|c a IH]; cbn [app atom_end forallb] in *.
  - destruct rest as [|c rest]; [reflexivity|]. cbn [peek] in Hr.
    cbn [atom_end]. rewrite Hr. reflexivity.
  - apply andb_true_iff in Ha as [Hc Ha]. rewrite Hc. auto.
Qed.

Lemma tokenize1_atom (a rest : list ascii) :
  a <> [] -> forallb isatom a = true -> isatom (peek rest) = false ->
  tokenize1 (a ++ rest) = Some (mk_token ATOM a, rest).
Proof.
  intros Hne Ha Hr. destruct a as [|c a]; [contradiction|].
  cbn [forallb] in Ha. apply andb_true_iff in Ha as [Hc Ha].
  destruct (isatom_inv c Hc) as (Hsp & Hsy & Hnul).
  destruct (issymbol_false c Hsy) as (Hst & Hlp & Hlb & Hq & _).
  unfold tokenize1. cbn [app skip_space]. rewrite Hsp. cbn [peek].
  rewrite Hnul, Hst, Hlp, Hlb, Hq. unfold tokenize_atom. cbn [peek tl].
  rewrite Hc. cbn [negb]. rewrite atom_end_app by assumption.
  unfold anode. change (c :: a ++ rest) with ((c :: a) ++ rest).
  rewrite firstn_app_length. reflexivity.
Qed.

Lemma tokenize1_at (rest : list ascii) :
  tokenize1 (lit "@" ++ rest) = Some (anode0 AT, rest).
Proof. reflexivity. Qed.

Lemma at_text_peek (ds : list mystring) : isatom (peek (at_text ds)) = false.
Proof. destruct ds; reflexivity. Qed.

Lemma tokenize_loop_chain (ds : list mystring) :
  Forall (fun d => d <> [] /\ forallb isatom d = true) ds ->
  forall (bound : nat) (tokens : list token),
    2 * length ds < bound ->
    tokenize_loop bound tokens (at_text ds)
    = Ret (Some (tokens ++ at_chain ds ++ [anode0 EOT])).
Proof.
  induction 1 as [|d ds [Hne Ha] _ IH]; intros bound tokens Hb.
  - destruct bound as [|bound]; [lia|]. reflexivity.
  - destruct bound as [|[|bound]]; [simpl in Hb; lia | simpl in Hb; lia |].
    cbn [at_text]. cbn [tokenize_loop]. rewrite tokenize1_at.
    cbn [anode0 type node_type_eqb].
    rewrite (tokenize1_atom d (at_text ds)) by auto using at_text_peek.
    cbn [type node_type_eqb]. rewrite IH by (simpl in Hb; lia).
    cbn [at_chain]. rewrite <- !app_assoc. reflexivity.
Qed.

Lemma at_text_length (ds : list mystring) :
  Forall (fun d => d <> [] /\ forallb isatom d = true) ds ->
  2 * length ds <= length (at_text ds).
Proof.
  induction 1 as [|d ds [Hne _] _ IH]; [simpl; lia|].
  cbn [at_text length]. rewrite !length_app. destruct d; [contradiction|].
  simpl in *. lia.
Qed.

Lemma of_cstr_app_atoms (a rest : list ascii) :
  forallb isatom a = true -> of_cstr (a ++ rest) = a ++ of_cstr rest.
Proof.
  induction a as [|c a IH]; intros Ha; [reflexivity|].
  cbn [forallb] in Ha. apply andb_true_iff in Ha as [Hc Ha].
  destruct (isatom_inv c Hc) as (_ & _ & Hnul).
  cbn [app of_cstr]. rewrite Hnul, IH by assumption. reflexivity.
Qed.

Lemma of_cstr_at_text (ds : list mystring) :
  Forall (fun d => d <> [] /\ forallb isatom d = true) ds ->
  of_cstr (at_text ds) = at_text ds.
Proof.
  induction 1 as [|d ds [_ Ha] _ IH]; [reflexivity|].
  cbn [at_text]. change (of_cstr (lit "@" ++ d ++ at_text ds))
    with ("@"%char :: of_cstr (d ++ at_text ds)).
  rewrite of_cstr_app_atoms, IH by assumption. reflexivity.
Qed.

(** The text [L@d1@...@dn], all of them atoms, tokenizes as the atom [L]
    followed by the chain of the domains. *)
Lemma tokenize_atoms (L : mystring) (ds : list mystring) :
  L <> [] -> forallb isatom L = true ->
  Forall (fun d => d <> [] /\ forallb isatom d = true) ds ->
  tokenize (of_cstr (L ++ at_text ds))
  = Ret (Some (mk_token ATOM L :: at_chain ds ++ [anode0 EOT])).
Proof.
  intros Hne Ha Hds.
  rewrite of_cstr_app_atoms, of_cstr_at_text by assumption.
  unfold tokenize. cbn [tokenize_loop].
  rewrite tokenize1_atom by auto using at_text_peek.
  cbn [type node_type_eqb]. apply tokenize_loop_chain; [assumption|].
  pose proof (at_text_length ds Hds). rewrite length_app.
  destruct L; [contradiction|]. simpl. lia.
Qed.

(** ** Source routes, from the text to the two outputs *)

Lemma at_text_removelast (ds : list mystring) :
  ds <> [] -> Forall (fun d => d <> []) ds ->
  at_text (removelast ds) ++ lit "@" ++ last ds [] = at_text ds.
Proof.
  intros Hne Hds. destruct ds as [|d ds]; [contradiction|].
  inversion Hds as [|? ? Hd Hds']; subst.
  rewrite <- (route_prefix_removelast ds d) by assumption.
  rewrite last_cons_default. apply route_prefix_at_text; assumption.
Qed.

Section SourceRouteText.

Variable canonicalize : mystring -> mystring.

Lemma match_addr_spec_routes (node : list token) (rL : result)
  (ds : list mystring) (t : token) (rest : list token) :
  match_local_part node = Ret (Some rL) ->
  next rL = at_chain ds ++ t :: rest ->
  ds <> [] -> Forall (fun d => d <> []) ds -> stopper t ->
  match_addr_spec canonicalize node
  = Ret (Some (mk_result (t :: rest)
                 (str rL ++ at_text (removelast ds) ++ lit "@"
                  ++ canonicalize (last ds []))
                 (comment rL)
                 (addr rL ++ at_text (removelast ds) ++ lit "@"
                  ++ canonicalize (last ds []) ++ [CR]))).
Proof.
  intros HL Hn Hne Hds Hst.
  rewrite (match_addr_spec_chain canonicalize node rL ds t rest) by assumption.
  destruct ds as [|d ds]; [contradiction|].
  inversion Hds as [|? ? Hd Hds']; subst.
  cbn [route_prefix]. change (pending []) with (@nil ascii). cbn [app].
  rewrite (route_prefix_removelast ds d) by assumption. reflexivity.
Qed.

Lemma match_addresses_atoms (L : mystring) (ds : list mystring) :
  ds <> [] -> Forall (fun d => d <> []) ds ->
  match_addresses canonicalize (mk_token ATOM L :: at_chain ds ++ [anode0 EOT])
  = Ret (Some (mk_result [anode0 EOT]
                 (L ++ at_text (removelast ds) ++ lit "@"
                  ++ canonicalize (last ds []))
                 []
                 (L ++ at_text (removelast ds) ++ lit "@"
                  ++ canonicalize (last ds []) ++ [CR]))).
Proof.
  intros Hne Hds.
  set (node := mk_token ATOM L :: at_chain ds ++ [anode0 EOT]).
  assert (Hspec : match_addr_spec canonicalize node
            = Ret (Some (mk_result [anode0 EOT]
                 (L ++ at_text (removelast ds) ++ lit "@"
                  ++ canonicalize (last ds []))
                 []
                 (L ++ at_text (removelast ds) ++ lit "@"
                  ++ canonicalize (last ds []) ++ [CR])))).
  { apply (match_addr_spec_routes node
             (mk_result (at_chain ds ++ [anode0 EOT]) L [] L) ds (anode0 EOT) []);
      auto.
    - unfold node. destruct ds as [|d ds]; [contradiction|]. reflexivity.
    - repeat split; discriminate. }
  assert (Hgroup : match_group canonicalize node = Ret None).
  { unfold node. destruct ds as [|d ds]; [contradiction|]. reflexivity. }
  assert (Hrs : match_route_spec canonicalize node = Ret None).
  { unfold node. destruct ds as [|d ds]; [contradiction|]. reflexivity. }
  assert (Hmb : match_mailbox canonicalize node
            = match_addr_spec canonicalize node).
  { unfold match_mailbox, OR_RULE. rewrite Hrs, Hspec. reflexivity. }
  assert (Had : match_address canonicalize node
            = match_addr_spec canonicalize node).
  { unfold match_address, OR_RULE. rewrite Hgroup, Hmb, Hspec. reflexivity. }
  unfold match_addresses, MATCHRULE. rewrite Had, Hspec.
  cbn [bind value truthy next negb str comment addr].
  rewrite !app_nil_r. reflexivity.
Qed.

Lemma parse_addresses_atoms (L : mystring) (ds : list mystring)
  (list_ : mystring) :
  L <> [] -> forallb isatom L = true ->
  ds <> [] -> Forall (fun d => d <> [] /\ forallb isatom d = true) ds ->
  parse_addresses canonicalize (L ++ at_text ds) list_
  = Ret (true,
         (L ++ at_text (removelast ds) ++ lit "@" ++ canonicalize (last ds []),
          L ++ at_text (removelast ds) ++ lit "@" ++ canonicalize (last ds [])
          ++ [CR])).
Proof.
  intros HL Ha Hne Hds. unfold parse_addresses.
  rewrite tokenize_atoms by assumption. cbn [bind].
  rewrite match_addresses_atoms; [reflexivity | assumption|].
  eapply Forall_impl; [|eassumption]. intros d [Hd _]. assumption.
Qed.

End SourceRouteText.

(** ** The quote codec *)

Lemma quote_loop_spec (s : mystring) :
  forall quoted : bool,
    quote_loop s quoted = (escaped s, quoted || existsb issymbol s).
Proof.
  induction s as [|c s IH]; intros quoted; cbn [quote_loop escaped existsb].
  - rewrite orb_false_r. reflexivity.
  - destruct (issymbol c); rewrite IH.
    + rewrite orb_true_r. reflexivity.
    + reflexivity.
Qed.

Lemma issymbol_escape : issymbol (node_type_char ESCAPE) = true.
Proof. reflexivity. Qed.






Lemma qtext_end_qbody (body : list ascii) :
  qbody body ->
  forall rest : list ascii, qtext_end (body ++ QUOTE :: rest) = QUOTE :: rest.
Proof.
  induction 1 as [|c body Hc Hb IH|c body Hc Hb IH]; intros rest.
  - reflexivity.
  - cbn [app qtext_end]. rewrite Hc.
    assert (Hn : (c =? NUL) = false).
    { unfold isqtext in Hc. destruct (c =? NUL); [discriminate | reflexivity]. }
    rewrite Hn. apply IH.
  - cbn [app qtext_end]. rewrite isqpair_escape by assumption.
    change (node_type_char ESCAPE =? NUL) with false.
    change (isqtext (node_type_char ESCAPE)) with false. cbv iota. apply IH.
Qed.

Lemma tokenize_quoted (body : list ascii) :
  qbody body ->
  tokenize (QUOTE :: body ++ [QUOTE])
  = Ret (Some [mk_token QUOTED_STRING (QUOTE :: body ++ [QUOTE]);
               anode0 EOT]).
Proof.
  intros Hb. unfold tokenize. cbn [length tokenize_loop].
  change (tokenize1 (QUOTE :: body ++ [QUOTE]))
    with (tokenize_quoted_string (QUOTE :: body ++ [QUOTE])).
  unfold tokenize_quoted_string. cbn [peek tl]. rewrite Ascii.eqb_refl.
  cbn [negb]. rewrite qtext_end_qbody by assumption. cbn [peek tl].
  rewrite Ascii.eqb_refl. cbn [negb]. unfold anode.
  cbn [type node_type_eqb length]. rewrite Nat.sub_0_r.
  change (S (length (body ++ [QUOTE]))) with (length (QUOTE :: body ++ [QUOTE])).
  rewrite firstn_all. reflexivity.
Qed.




(** C2.  [quote] escapes the symbol characters only.  The local part [a b],
    which the quoted string of the field ["a b"@c] unquotes to, comes back
    from [quote] as it is and tokenizes as two atoms; the display string of
    that field is [a b@c], which parses as the two addresses [a@] and [b@c].
    The empty local part is quoted as the empty text, which holds no token
    but the end-marker. *)
Theorem quote_misses_whitespace :
  unquote (QUOTE :: lit "a b" ++ [QUOTE]) = Ret (lit "a b") /\
  quote (lit "a b") = lit "a b" /\
  tokenize (quote (lit "a b"))
  = Ret (Some [mk_token ATOM (lit "a"); mk_token ATOM (lit "b"); anode0 EOT]) /\
  parse_addresses stub (QUOTE :: lit "a b" ++ QUOTE :: lit "@c") []
  = Ret (true, (lit "a b@c", lit "a b@c" ++ [CR])) /\
  parse_addresses stub (lit "a b@c") []
  = Ret (true, (lit "a@, b@c", lit "a@" ++ [CR] ++ lit "b@c" ++ [CR])) /\
  unquote [QUOTE; QUOTE] = Ret [] /\
  quote [] = [] /\
  tokenize (quote []) = Ret (Some [anode0 EOT]).
Proof. repeat split; reflexivity. Qed.

(** ** Domain literals *)

Lemma tokenize_no_domain_literal (str : mystring) (toks : list token) :
  tokenize str = Ret (Some toks) ->
  Forall (fun t => type t <> DOMAIN_LITERAL) toks.
Proof.
  intros H. destruct (tokenize_spec str) as (o & E & Ho).
  destruct (Ho toks) as (pre & e & -> & He & Hpre); [congruence|].
  apply Forall_app. split.
  - eapply Forall_impl; [|eassumption]. intros t (_ & _ & Ht). assumption.
  - repeat constructor. congruence.
Qed.

(** C1.  [tokenize_domain_literal] returns its token with the cursor still
    on the closing bracket, and leaves the bracket out of the token's text;
    no token starts at a closing bracket, so the next scan fails and
    [tokenize] returns the null pointer.  On [a@[1.2.3.4]] the call
    [parse_addresses] returns false, although [match_sub_domain] accepts a
    domain-literal token with its text as display and canonical text. *)
Theorem domain_literal_rejected
  (canonicalize : mystring -> mystring) (list_ : mystring) :
  tokenize_domain_literal (lit "[1.2.3.4]")
  = Some (mk_token DOMAIN_LITERAL (lit "[1.2.3.4"), lit "]") /\
  tokenize1 (lit "]") = None /\
  tokenize (lit "a@[1.2.3.4]") = Ret None /\
  parse_addresses canonicalize (lit "a@[1.2.3.4]") list_
  = Ret (false, (lit "a@[1.2.3.4]", list_)) /\
  match_sub_domain [mk_token DOMAIN_LITERAL (lit "[1.2.3.4]"); anode0 EOT]
  = Ret (Some (mk_result [anode0 EOT] (lit "[1.2.3.4]") []
                 (lit "[1.2.3.4]"))).
Proof. repeat split; reflexivity. Qed.

(** * More of the code *)

(** ** The quote codec, without the tokenizer *)

Lemma not_symbol_not_qpair (c : ascii) (rest : list ascii) :
  issymbol c = false -> isqpair (c :: rest) = false.
Proof.
  intros Hs. destruct (issymbol_false c Hs) as (_ & _ & _ & _ & He).
  unfold isqpair. cbn [peek]. rewrite He, andb_false_r. reflexivity.
Qed.

Lemma unquote_loop_nonul (s : mystring) :
  nonul s = true ->
  forall (tail : list ascii) (modified : bool),
    unquote_loop (length (escaped s)) (escaped s ++ tail) modified
    = Ret (s, modified || existsb issymbol s).
Proof.
  unfold nonul.
  induction s as [|c s IH]; cbn [forallb escaped existsb]; intros H tail modified.
  - cbn [length unquote_loop]. rewrite orb_false_r. reflexivity.
  - apply andb_true_iff in H as [Hc H]. apply negb_true_iff in Hc.
    destruct (issymbol c) eqn:Es.
    + cbn [length app unquote_loop]. rewrite isqpair_escape by assumption.
      cbn [tl peek]. rewrite IH by assumption. cbn [bind].
      rewrite orb_true_r. reflexivity.
    + cbn [length app unquote_loop].
      rewrite not_symbol_not_qpair by assumption.
      cbn [tl peek]. rewrite IH by assumption. reflexivity.
Qed.

Lemma nonul_of_cstr (s : mystring) : nonul s = true -> of_cstr s = s.
Proof.
  unfold nonul. induction s as [|c s IH]; cbn [forallb of_cstr]; intros H;
    [reflexivity|].
  apply andb_true_iff in H as [Hc H]. apply negb_true_iff in Hc.
  rewrite Hc, IH by assumption. reflexivity.
Qed.


Lemma escaped_plain (s : mystring) :
  existsb issymbol s = false -> escaped s = s.
Proof.
  induction s as [|c s IH]; cbn [existsb escaped]; intros H; [reflexivity|].
  apply orb_false_iff in H as [Hc H]. rewrite Hc, IH by assumption.
  reflexivity.
Qed.



Lemma of_cstr_length (p : list ascii) : length (of_cstr p) <= length p.
Proof.
  induction p as [|c p IH]; [simpl; lia|]. cbn [of_cstr].
  destruct (c =? NUL); simpl; lia.
Qed.

Lemma escaped_length (s : mystring) :
  length s <= length (escaped s) <= 2 * length s.
Proof.
  induction s as [|c s IH]; cbn [escaped length]; [lia|].
  destruct (issymbol c); cbn [length]; lia.
Qed.

Lemma unquote_loop_length (n : nat) :
  forall (ptrin : list ascii) (modified : bool) (out : list ascii) (m : bool),
    unquote_loop n ptrin modified = Ret (out, m) -> length out <= n.
Proof.
  induction n as [n IH] using lt_wf_ind. intros ptrin modified out m H.
  destruct n as [|n]; cbn [unquote_loop] in H.
  - injection H as <- <-. simpl. lia.
  - destruct (isqpair ptrin).
    + destruct n as [|n]; [discriminate|].
      inv_bind H x Hx. destruct x as [o' m']. injection H as <- <-.
      apply IH in Hx; [|lia]. simpl. lia.
    + inv_bind H x Hx. destruct x as [o' m']. injection H as <- <-.
      apply IH in Hx; [|lia]. simpl. lia.
Qed.

(** X3.  The bound that [unquote] sizes its buffer by: when [unquote]
    returns, the text returned is never longer than the input. *)
Theorem unquote_length (s t : mystring) :
  unquote s = Ret t -> length t <= length s.
Proof.
  unfold unquote.
  destruct ((nth 0 s NUL =? QUOTE) && (nth (length s - 1) s NUL =? QUOTE)).
  - destruct (length s <? 2)%nat eqn:El; [discriminate|].
    apply Nat.ltb_ge in El. intros H. inv_bind H x Hx. destruct x as [out m].
    injection H as <-. apply unquote_loop_length in Hx.
    pose proof (of_cstr_length out). lia.
  - intros H. inv_bind H x Hx. destruct x as [out m].
    apply unquote_loop_length in Hx. pose proof (of_cstr_length out).
    destruct m; injection H as <-; lia.
Qed.

Lemma unquote_length_witness :
  length (lit "a(b") <= length (QUOTE :: lit "a\(b" ++ [QUOTE]).
Proof.
  apply (unquote_length (QUOTE :: lit "a\(b" ++ [QUOTE]) (lit "a(b")).
  reflexivity.
Defined.


(** ** Tokens as slices of the text *)

Lemma skip_space_split (ptr : list ascii) :
  exists ws, ptr = ws ++ skip_space ptr /\ forallb isspace ws = true.
Proof.
  induction ptr as [|c rest (ws & E & Hws)]; [exists []; auto|].
  cbn [skip_space]. destruct (isspace c) eqn:Ec.
  - exists (c :: ws). cbn [app forallb]. rewrite <- E, Ec, Hws. auto.
  - exists []. auto.
Qed.

Lemma atom_end_split (ptr : list ascii) :
  exists a,
    ptr = a ++ atom_end ptr /\ forallb isatom a = true /\
    isatom (peek (atom_end ptr)) = false.
Proof.
  induction ptr as [|c rest (a & E & Ha & Hp)]; [exists []; auto|].
  cbn [atom_end]. destruct (isatom c) eqn:Ec.
  - exists (c :: a). cbn [app forallb]. rewrite <- E, Ec, Ha. auto.
  - exists []. cbn [peek]. auto.
Qed.

Lemma tokenize_atom_slice (ptr : list ascii) (tok : token)
  (rest : list ascii) :
  tokenize_atom ptr = Some (tok, rest) ->
  type tok = ATOM /\ ptr = text tok ++ rest /\ text tok <> [] /\
  forallb isatom (text tok) = true /\ isatom (peek rest) = false.
Proof.
  unfold tokenize_atom. destruct ptr as [|c p1]; [discriminate|].
  cbn [peek tl]. destruct (isatom c) eqn:Ec; [|discriminate]. cbn [negb].
  destruct (atom_end_split p1) as (a & E & Ha & Hp).
  remember (atom_end p1) as r eqn:Er. clear Er. subst p1.
  intros [= <- <-]. split; [reflexivity|]. unfold anode. cbn [text].
  change (c :: a ++ r) with ((c :: a) ++ r).
  rewrite firstn_app_length. cbn [forallb]. rewrite Ec, Ha.
  repeat split; auto. discriminate.
Qed.

(** X4.  [tokenize_atom] takes the longest run of atom characters.  Off an
    atom character it returns no token.  On an atom character it returns a
    token: an atom whose text is not empty, is made of atom characters and
    is the part of the text before the cursor returned, and no atom
    character stands at that cursor. *)
Theorem tokenize_atom_maximal (ptr : list ascii) :
  (isatom (peek ptr) = false -> tokenize_atom ptr = None) /\
  (isatom (peek ptr) = true ->
   exists (a rest : list ascii),
     tokenize_atom ptr = Some (mk_token ATOM a, rest) /\
     ptr = a ++ rest /\ a <> [] /\
     forallb isatom a = true /\ isatom (peek rest) = false).
Proof.
  split.
  - unfold tokenize_atom. intros ->. reflexivity.
  - intros Hp. destruct (tokenize_atom ptr) as [[tok rest]|] eqn:E.
    + destruct (tokenize_atom_slice _ _ _ E) as (Ht & Hs & Hne & Ha & Hr).
      destruct tok as [ty tx]. cbn [type text] in *. subst ty.
      exists tx, rest. auto.
    + unfold tokenize_atom in E. rewrite Hp in E. discriminate.
Qed.

Lemma tokenize_atom_maximal_witness :
  exists (a rest : list ascii),
    tokenize_atom (lit "ab@c") = Some (mk_token ATOM a, rest) /\
    lit "ab@c" = a ++ rest /\ a <> [] /\
    forallb isatom a = true /\ isatom (peek rest) = false.
Proof.
  apply (proj2 (tokenize_atom_maximal (lit "ab@c"))). reflexivity.
Defined.

Lemma last_app_r {A : Type} (cs mid : list A) (d : A) :
  mid <> [] -> last (cs ++ mid) d = last mid d.
Proof.
  intros Hm. induction cs as [|c cs IH]; [reflexivity|].
  cbn [app]. destruct (cs ++ mid) eqn:E.
  - apply app_eq_nil in E. tauto.
  - rewrite <- IH. reflexivity.
Qed.

Lemma comment_loop_slice (start ptr : list ascii) :
  forall (count : Z) (pre : list ascii) (tok : token) (rest : list ascii),
    start = pre ++ ptr ->
    comment_loop count start ptr = Some (tok, rest) ->
    exists mid,
      ptr = mid ++ rest /\ tok = mk_token COMMENT (pre ++ mid) /\
      last mid NUL = RPAREN.
Proof.
  assert (Hdone : forall pre c rest,
            start = pre ++ c :: rest -> (c =? RPAREN) = true ->
            exists mid,
              c :: rest = mid ++ rest /\
              anode COMMENT start rest = mk_token COMMENT (pre ++ mid) /\
              last mid NUL = RPAREN).
  { intros pre c rest E Hc. apply Ascii.eqb_eq in Hc. subst c.
    exists [RPAREN]. repeat split. unfold anode. rewrite E.
    replace (pre ++ RPAREN :: rest) with ((pre ++ [RPAREN]) ++ rest)
      by (rewrite <- app_assoc; reflexivity).
    rewrite firstn_app_length. reflexivity. }
  assert (Hstep : forall pre (cs mid ptr' rest : list ascii) tok,
            cs <> [] ->
            ptr' = mid ++ rest /\ tok = mk_token COMMENT ((pre ++ cs) ++ mid) /\
            last mid NUL = RPAREN ->
            mid <> [] ->
            exists mid',
              cs ++ ptr' = mid' ++ rest /\
              tok = mk_token COMMENT (pre ++ mid') /\
              last mid' NUL = RPAREN).
  { intros pre cs mid ptr' rest tok Hcs (-> & -> & Hl) Hm.
    exists (cs ++ mid). rewrite !app_assoc. repeat split.
    rewrite last_app_r by assumption. assumption. }
  induction ptr as [|c|c1 c2 rest' IH1 IH2] using cursor_ind;
    intros count pre tok rest E H; [discriminate| |].
  - simpl in H. destruct (c =? NUL); [discriminate|].
    destruct (isqpair [c]); [discriminate|].
    destruct (c =? LPAREN); [discriminate|].
    destruct (c =? RPAREN) eqn:Er.
    + destruct (udecr count =? 0)%Z; [|discriminate].
      injection H as <- <-. apply Hdone; assumption.
    + destruct (c =? CR); discriminate.
  - cbn [comment_loop] in H. destruct (c1 =? NUL); [discriminate|].
    assert (Hrec1 : forall k,
              comment_loop k start (c2 :: rest') = Some (tok, rest) ->
              exists mid,
                c1 :: c2 :: rest' = mid ++ rest /\
                tok = mk_token COMMENT (pre ++ mid) /\
                last mid NUL = RPAREN).
    { intros k Hk.
      destruct (IH1 k (pre ++ [c1]) tok rest) as (mid & Em & Et & Hl);
        [rewrite <- app_assoc; assumption | assumption|].
      assert (Hm : mid <> []).
      { destruct mid; [|discriminate]. simpl in Hl. discriminate Hl. }
      apply (Hstep pre [c1] mid (c2 :: rest') rest tok); auto. discriminate. }
    destruct (isqpair (c1 :: c2 :: rest')).
    { destruct (IH2 count (pre ++ [c1; c2]) tok rest) as (mid & Em & Et & Hl);
        [rewrite <- app_assoc; assumption | assumption|].
      assert (Hm : mid <> []).
      { destruct mid; [|discriminate]. simpl in Hl. discriminate Hl. }
      apply (Hstep pre [c1; c2] mid rest' rest tok); auto. discriminate. }
    destruct (c1 =? LPAREN); [eauto|].
    destruct (c1 =? RPAREN) eqn:Er.
    + destruct (udecr count =? 0)%Z; [|eauto].
      injection H as <- <-. apply Hdone; assumption.
    + destruct (c1 =? CR); [discriminate | eauto].
Qed.

Lemma dtext_end_split (ptr : list ascii) :
  exists x, ptr = x ++ dtext_end ptr.
Proof.
  induction ptr as [|c|c1 c2 rest IH1 IH2] using cursor_ind.
  - exists []. reflexivity.
  - simpl. destruct (c =? NUL); [exists []; reflexivity|].
    destruct (isdtext c); [exists [c]; reflexivity|].
    destruct (isqpair [c]); [exists [c] | exists []]; reflexivity.
  - cbn [dtext_end]. cbn [dtext_end] in IH1.
    destruct (c1 =? NUL); [exists []; reflexivity|].
    destruct (isdtext c1).
    + destruct IH1 as (x & E). exists (c1 :: x). cbn [app]. rewrite <- E.
      reflexivity.
    + destruct (isqpair (c1 :: c2 :: rest)); [|exists []; reflexivity].
      destruct IH2 as (x & E). exists (c1 :: c2 :: x). cbn [app].
      rewrite <- E. reflexivity.
Qed.

Lemma tokenize_domain_literal_slice (ptr : list ascii) (tok : token)
  (rest : list ascii) :
  tokenize_domain_literal ptr = Some (tok, rest) ->
  type tok = DOMAIN_LITERAL /\ ptr = text tok ++ rest.
Proof.
  unfold tokenize_domain_literal.
  destruct ptr as [|c p1]; [discriminate|]. cbn [peek tl].
  destruct (c =? LSQBRACKET); [|discriminate]. cbn [negb].
  destruct (skip_space_split p1) as (w1 & E1 & _).
  destruct (dtext_end_split (skip_space p1)) as (x & E2).
  destruct (skip_space_split (dtext_end (skip_space p1))) as (w2 & E3 & _).
  remember (skip_space (dtext_end (skip_space p1))) as r eqn:Er. clear Er.
  destruct (negb (peek r =? RSQBRACKET)); [discriminate|].
  intros [= <- <-]. split; [reflexivity|]. unfold anode. cbn [text].
  assert (E : c :: p1 = (c :: w1 ++ x ++ w2) ++ r).
  { cbn [app]. rewrite <- !app_assoc, <- E3, <- E2, <- E1. reflexivity. }
  rewrite E, firstn_app_length. reflexivity.
Qed.

Lemma tokenize_quoted_string_slice (ptr : list ascii) (tok : token)
  (rest : list ascii) :
  tokenize_quoted_string ptr = Some (tok, rest) ->
  type tok = QUOTED_STRING /\ ptr = text tok ++ rest.
Proof.
  unfold tokenize_quoted_string.
  destruct ptr as [|c p1]; [discriminate|]. cbn [peek tl].
  destruct (c =? QUOTE); [|discriminate]. cbn [negb].
  destruct (qtext_end_split p1) as (body & E & _).
  destruct (qtext_end p1) as [|q r]; [discriminate|]. cbn [peek tl].
  destruct (negb (q =? QUOTE)); [discriminate|].
  intros [= <- <-]. split; [reflexivity|]. unfold anode. cbn [text].
  assert (E' : c :: p1 = (c :: body ++ [q]) ++ r).
  { cbn [app]. rewrite <- app_assoc. cbn [app]. rewrite <- E. reflexivity. }
  rewrite E', firstn_app_length. reflexivity.
Qed.

Lemma special_type_char (ch : ascii) (t : node_type) :
  special_type ch = Some t -> render (anode0 t) = [ch].
Proof.
  unfold special_type.
  repeat match goal with
         | |- (if ?b then _ else _) = _ -> _ =>
             let E := fresh in
             destruct b eqn:E;
             [apply Ascii.eqb_eq in E; subst ch; intros [= <-]; reflexivity|]
         end.
  discriminate.
Qed.

Lemma tokenize1_slice (ptr : list ascii) (tok : token) (rest : list ascii) :
  tokenize1 ptr = Some (tok, rest) ->
  skip_space ptr = render tok ++ rest /\
  (type tok = EOT -> peek rest = NUL).
Proof.
  unfold tokenize1. set (p := skip_space ptr).
  destruct (peek p =? NUL) eqn:Enul.
  { intros [= <- <-]. apply Ascii.eqb_eq in Enul. auto. }
  destruct (peek_nonnul _ Enul) as (c & r & Ep & _). rewrite Ep. cbn [peek tl].
  destruct (special_type c) as [t|] eqn:Esp.
  { intros [= <- <-]. rewrite (special_type_char _ _ Esp).
    destruct (special_type_spec _ _ Esp) as (Ht & _).
    split; [reflexivity | intros; contradiction]. }
  destruct (c =? LPAREN).
  { unfold tokenize_comment. cbn [peek].
    destruct (negb (c =? LPAREN)); [discriminate|]. intros H.
    destruct (comment_loop_slice _ _ 0%Z [] tok rest eq_refl H)
      as (mid & -> & -> & _).
    split; [reflexivity | discriminate]. }
  destruct (c =? LSQBRACKET).
  { intros H. apply tokenize_domain_literal_slice in H as [Ht E].
    unfold render. rewrite Ht. split; [assumption | congruence]. }
  destruct (c =? QUOTE).
  { intros H. apply tokenize_quoted_string_slice in H as [Ht E].
    unfold render. rewrite Ht. split; [assumption | congruence]. }
  intros H. apply tokenize_atom_slice in H as (Ht & E & _).
  unfold render. rewrite Ht. split; [assumption | congruence].
Qed.

Lemma tokenize_loop_slices (bound : nat) :
  forall (tokens : list token) (ptr : list ascii) (toks : list token),
    tokenize_loop bound tokens ptr = Ret (Some toks) ->
    exists more gaps tail,
      toks = tokens ++ more /\ length gaps = length more /\
      Forall (fun g => forallb isspace g = true) gaps /\
      ptr = weave gaps more ++ tail /\ peek tail = NUL.
Proof.
  induction bound as [|bound IH]; intros tokens ptr toks H; [discriminate|].
  cbn [tokenize_loop] in H.
  destruct (tokenize1 ptr) as [[tmp ptr']|] eqn:E1; [|discriminate].
  destruct (tokenize1_slice _ _ _ E1) as (Es & Heot).
  destruct (skip_space_split ptr) as (ws & Ew & Hws).
  destruct (node_type_eqb (type tmp) EOT) eqn:Et.
  - injection H as <-. apply node_type_eqb_eq in Et.
    exists [tmp], [ws], ptr'. repeat split; auto.
    cbn [weave]. rewrite app_nil_r, <- app_assoc, <- Es. assumption.
  - apply IH in H as (more & gaps & tail & -> & Hl & Hg & -> & Ht).
    exists (tmp :: more), (ws :: gaps), tail. repeat split; auto.
    + rewrite <- app_assoc. reflexivity.
    + simpl. rewrite Hl. reflexivity.
    + cbn [weave]. rewrite Ew, Es, <- !app_assoc. reflexivity.
Qed.

(** X5.  Tokens are slices of the text.  When [tokenize] returns a
    chain, the text read up to its terminator is the tokens in their order,
    each rendered by its own text or by its character, with nothing but
    whitespace before each: nothing else is dropped and nothing is added. *)
Theorem tokenize_slices (str : mystring) (toks : list token) :
  tokenize str = Ret (Some toks) ->
  exists gaps tail,
    length gaps = length toks /\
    Forall (fun g => forallb isspace g = true) gaps /\
    str = weave gaps toks ++ tail /\ peek tail = NUL.
Proof.
  intros H. apply tokenize_loop_slices in H
    as (more & gaps & tail & -> & Hl & Hg & E & Ht).
  exists gaps, tail. auto.
Qed.

Lemma tokenize_slices_witness :
  exists gaps tail,
    length gaps
    = length [mk_token ATOM (lit "a"); anode0 AT; mk_token ATOM (lit "b");
              mk_token COMMENT (lit "(c d)"); anode0 EOT] /\
    Forall (fun g => forallb isspace g = true) gaps /\
    lit " a @b (c d) "
    = weave gaps [mk_token ATOM (lit "a"); anode0 AT; mk_token ATOM (lit "b");
                  mk_token COMMENT (lit "(c d)"); anode0 EOT] ++ tail /\
    peek tail = NUL.
Proof. apply tokenize_slices. reflexivity. Defined.

(** ** Whitespace and blank fields *)

Lemma skip_space_app (ws ptr : list ascii) :
  forallb isspace ws = true -> skip_space (ws ++ ptr) = skip_space ptr.
Proof.
  induction ws as [|c ws IH]; cbn [forallb app skip_space]; intros H;
    [reflexivity|].
  apply andb_true_iff in H as [Hc H]. rewrite Hc. auto.
Qed.

Lemma tokenize1_space (ws ptr : list ascii) :
  forallb isspace ws = true -> tokenize1 (ws ++ ptr) = tokenize1 ptr.
Proof. intros H. unfold tokenize1. rewrite skip_space_app by assumption. reflexivity. Qed.

(** The loop of [tokenize] gives the same chain under every bound that
    exceeds the length of the text left. *)
Lemma tokenize_loop_bound (b1 : nat) :
  forall (b2 : nat) (tokens : list token) (ptr : list ascii),
    length ptr < b1 -> length ptr < b2 ->
    tokenize_loop b1 tokens ptr = tokenize_loop b2 tokens ptr.
Proof.
  induction b1 as [|b1 IH]; intros b2 tokens ptr H1 H2; [lia|].
  destruct b2 as [|b2]; [lia|]. cbn [tokenize_loop].
  destruct (tokenize1 ptr) as [[tmp ptr']|] eqn:E1; [|reflexivity].
  destruct (tokenize1_spec _ _ _ E1) as (_ & Hlen & _).
  destruct (node_type_eqb (type tmp) EOT) eqn:Et; [reflexivity|].
  apply node_type_eqb_neq in Et. specialize (Hlen Et). apply IH; lia.
Qed.

Lemma tokenize_space (ws str : list ascii) :
  forallb isspace ws = true -> tokenize (ws ++ str) = tokenize str.
Proof.
  intros H. unfold tokenize. cbn [tokenize_loop].
  rewrite tokenize1_space by assumption.
  destruct (tokenize1 str) as [[tmp ptr']|] eqn:E1; [|reflexivity].
  destruct (tokenize1_spec _ _ _ E1) as (_ & Hlen & _).
  destruct (node_type_eqb (type tmp) EOT) eqn:Et; [reflexivity|].
  apply node_type_eqb_neq in Et. specialize (Hlen Et).
  apply tokenize_loop_bound; rewrite ?length_app; lia.
Qed.

Lemma isspace_nonul (c : ascii) : isspace c = true -> (c =? NUL) = false.
Proof.
  intros H. destruct (c =? NUL) eqn:E; [|reflexivity].
  apply Ascii.eqb_eq in E. subst c. discriminate H.
Qed.

Lemma of_cstr_space (ws line : list ascii) :
  forallb isspace ws = true -> of_cstr (ws ++ line) = ws ++ of_cstr line.
Proof.
  induction ws as [|c ws IH]; cbn [forallb app of_cstr]; intros H;
    [reflexivity|].
  apply andb_true_iff in H as [Hc H].
  rewrite (isspace_nonul c Hc), IH by assumption. reflexivity.
Qed.

(** X7.  Whitespace before the field does not count: with blanks put in
    front of [line] the call returns the same flag and, on success, the same
    two strings; on failure the strings are again the caller's. *)
Theorem parse_addresses_leading_space
  (canonicalize : mystring -> mystring) (ws line list_ : mystring) :
  forallb isspace ws = true ->
  parse_addresses canonicalize (ws ++ line) list_
  = match parse_addresses canonicalize line list_ with
    | Ret (true, out) => Ret (true, out)
    | Ret (false, _) => Ret (false, (ws ++ line, list_))
    | Fault f => Fault f
    end.
Proof.
  intros H. unfold parse_addresses.
  rewrite of_cstr_space, tokenize_space by assumption.
  destruct (tokenize (of_cstr line)) as [[toks|]|f]; cbn [bind];
    [|reflexivity | reflexivity].
  destruct (match_addresses canonicalize toks) as [o|f]; cbn [bind];
    [|reflexivity].
  destruct (truthy (value o)); reflexivity.
Qed.

Lemma parse_addresses_leading_space_witness :
  parse_addresses stub (lit "  " ++ lit "a@b") (lit "old")
  = match parse_addresses stub (lit "a@b") (lit "old") with
    | Ret (true, out) => Ret (true, out)
    | Ret (false, _) => Ret (false, (lit "  " ++ lit "a@b", lit "old"))
    | Fault f => Fault f
    end.
Proof. apply parse_addresses_leading_space. reflexivity. Defined.

Lemma tokenize_blank (ws : list ascii) :
  forallb isspace ws = true -> tokenize ws = Ret (Some [anode0 EOT]).
Proof.
  intros H. rewrite <- (app_nil_r ws), tokenize_space by assumption.
  reflexivity.
Qed.

(** X8.  An empty field and a field of whitespace only are refused:
    [parse_addresses] returns false and leaves both strings alone. *)
Theorem parse_addresses_blank
  (canonicalize : mystring -> mystring) (ws list_ : mystring) :
  forallb isspace ws = true ->
  parse_addresses canonicalize ws list_ = Ret (false, (ws, list_)).
Proof.
  intros H. unfold parse_addresses.
  rewrite <- (app_nil_r ws) at 1.
  rewrite of_cstr_space, app_nil_r, tokenize_blank by assumption.
  reflexivity.
Qed.

Lemma parse_addresses_blank_witness :
  parse_addresses stub (lit "   ") (lit "old")
  = Ret (false, (lit "   ", lit "old")).
Proof. apply parse_addresses_blank. reflexivity. Defined.

(** ** The shape of the canonical list *)

Lemma value_truthy (o : outcome) :
  truthy (value o) = true -> o = Some (value o).
Proof. destruct o as [r|]; [reflexivity | discriminate]. Qed.

Section Canonical.

Variable canonicalize : mystring -> mystring.




Lemma OR_RULE_inv (ALT1 ALT2 : list token -> exec outcome)
  (node : list token) (r : result) :
  OR_RULE ALT1 ALT2 node = Ret (Some r) ->
  ALT1 node = Ret (Some r) \/ ALT2 node = Ret (Some r).
Proof.
  unfold OR_RULE. intros H. inv_bind H o1 Ho1.
  destruct (truthy (value o1)) eqn:H1.
  - injection H as <-. left. rewrite Ho1. f_equal. apply value_truthy.
    assumption.
  - inv_bind H o2 Ho2. destruct (truthy (value o2)) eqn:H2; [|discriminate].
    injection H as <-. right. rewrite Ho2. f_equal. apply value_truthy.
    assumption.
Qed.


End Canonical.

(** ** Lists of addresses *)

Lemma skipcomment_prefix (node : list token) :
  forall (p s : mystring) (node' : list token) (s' : mystring),
    skipcomment node s = Ret (node', s') ->
    skipcomment node (p ++ s) = Ret (node', p ++ s').
Proof.
  induction node as [|t nxt IH]; intros p s node' s' H; [discriminate|].
  cbn [skipcomment] in *. destruct (node_type_eqb (type t) COMMENT).
  - rewrite <- app_assoc. apply IH. assumption.
  - injection H as <- <-. reflexivity.
Qed.

Section Lists.

Variable canonicalize : mystring -> mystring.

Lemma comma_loop_prefix (bound : nat) :
  forall (node : list token) (p s : mystring) (node' : list token)
         (s' : mystring),
    comma_loop bound node s = Ret (node', s') ->
    comma_loop bound node (p ++ s) = Ret (node', p ++ s').
Proof.
  induction bound as [|bound IH]; intros node p s node' s' H; [discriminate|].
  cbn [comma_loop] in *. inv_bind H x Hx. destruct x as [n1 s1].
  rewrite (skipcomment_prefix _ p _ _ _ Hx). cbn [bind].
  inv_bind H y Hy. destruct y as [t nxt]. rewrite Hy. cbn [bind].
  destruct (node_type_eqb (type t) COMMA); [auto|].
  injection H as <- <-. reflexivity.
Qed.

Lemma members_loop_prefix (match_member : list token -> exec outcome)
  (bound : nat) :
  forall (n : list token) (p q s c a : mystring) (rr : result)
         (nn : list token),
    members_loop match_member bound (mk_result n s c a) = Ret (rr, nn) ->
    members_loop match_member bound (mk_result n (p ++ s) c (q ++ a))
    = Ret (mk_result (next rr) (p ++ str rr) (comment rr) (q ++ addr rr), nn).
Proof.
  induction bound as [|bound IH]; intros n p q s c a rr nn H; [discriminate|].
  cbn [members_loop next str comment addr] in *.
  inv_bind H x Hx. destruct x as [n1 s1].
  rewrite (comma_loop_prefix _ _ p _ _ _ Hx). cbn [bind].
  inv_bind H y Hy. destruct y as [t nxt]. rewrite Hy. cbn [bind].
  destruct (node_type_eqb (type t) EOT).
  - injection H as <- <-. reflexivity.
  - inv_bind H o Ho. rewrite Ho. cbn [bind].
    destruct (negb (truthy (value o))).
    + injection H as <- <-. reflexivity.
    + cbn [next str comment addr] in *. rewrite <- !app_assoc.
      apply IH. assumption.
Qed.

Lemma members_loop_mono (match_member : list token -> exec outcome)
  (bound : nat) :
  forall (bound' : nat) (r1 : result) (x : result * list token),
    members_loop match_member bound r1 = Ret x -> bound <= bound' ->
    members_loop match_member bound' r1 = Ret x.
Proof.
  induction bound as [|bound IH]; intros bound' r1 x H Hb; [discriminate|].
  destruct bound' as [|bound']; [lia|].
  cbn [members_loop] in *. inv_bind H y Hy. destruct y as [n1 s1].
  rewrite Hy. cbn [bind]. inv_bind H z Hz. destruct z as [t nxt].
  rewrite Hz. cbn [bind]. destruct (node_type_eqb (type t) EOT); [assumption|].
  inv_bind H o Ho. rewrite Ho. cbn [bind].
  destruct (negb (truthy (value o))); [assumption|].
  apply IH; [assumption | lia].
Qed.

Lemma comma_loop_comma (bound : nat) (t : token) (nxt : list token)
  (s : mystring) :
  type t = COMMA ->
  comma_loop (S bound) (t :: nxt) s = comma_loop bound nxt s.
Proof.
  intros Ht. cbn [comma_loop skipcomment]. rewrite Ht.
  cbn [node_type_eqb bind deref]. rewrite Ht. reflexivity.
Qed.

Lemma comma_loop_stop (bound : nat) (t : token) (nxt : list token)
  (s : mystring) :
  type t <> COMMA -> type t <> COMMENT ->
  comma_loop (S bound) (t :: nxt) s = Ret (t :: nxt, s).
Proof.
  intros H1 H2. apply node_type_eqb_neq in H1, H2.
  cbn [comma_loop skipcomment]. rewrite H2. cbn [bind deref]. rewrite H1.
  reflexivity.
Qed.

Lemma members_loop_step (match_member : list token -> exec outcome)
  (bound : nat) (r1 : result) (t : token) (nxt : list token) (s : mystring)
  (r2 : result) :
  comma_loop (S (length (next r1))) (next r1) (str r1) = Ret (t :: nxt, s) ->
  type t <> EOT ->
  match_member (t :: nxt) = Ret (Some r2) -> truthy r2 = true ->
  members_loop match_member (S bound) r1
  = members_loop match_member bound
      (mk_result (next r2) (s ++ lit ", " ++ str r2 ++ comment r2)
         (comment r1) (addr r1 ++ addr r2)).
Proof.
  intros Hc Ht Hm Htr. apply node_type_eqb_neq in Ht.
  cbn [members_loop]. rewrite Hc. cbn [bind deref]. rewrite Ht, Hm.
  cbn [bind value]. rewrite Htr. reflexivity.
Qed.

Lemma match_addresses_cons (node : list token) (r1 : result) (t t2 : token)
  (n2 : list token) (r2 : result) :
  wf node = true ->
  match_address canonicalize node = Ret (Some r1) ->
  next r1 = t :: t2 :: n2 -> type t = COMMA ->
  type t2 <> COMMA -> type t2 <> COMMENT -> type t2 <> EOT ->
  match_addresses canonicalize (t2 :: n2) = Ret (Some r2) ->
  match_addresses canonicalize node
  = Ret (Some (mk_result (next r2)
                 (str r1 ++ comment r1 ++ lit ", " ++ str r2)
                 (comment r2) (addr r1 ++ addr r2))).
Proof.
  intros Hw H1 Hn Ht Hc1 Hc2 Hc3 H2.
  destruct (rule_ok_call _ node (match_address_ok canonicalize) Hw)
    as [E | (r1' & E & Htr1 & Hs1 & Hw1)]; [congruence|].
  assert (r1' = r1) by congruence. subst r1'.
  assert (Hw2 : wf (t2 :: n2) = true).
  { rewrite Hn in Hw1. eapply wf_cons_inv; [eassumption | congruence]. }
  destruct (rule_ok_call _ _ (match_address_ok canonicalize) Hw2)
    as [E2 | (r2a & E2 & Htr2 & Hs2 & Hw3)].
  { unfold match_addresses, MATCHRULE in H2. rewrite E2 in H2. discriminate. }
  unfold match_addresses, MATCHRULE in H2. rewrite E2 in H2.
  cbn [bind value] in H2. rewrite Htr2 in H2. cbn [negb] in H2.
  inv_bind H2 x Hx. destruct x as [rr nn]. cbn [next] in Hx.
  inv_bind H2 y Hy. destruct y as [n3 s3]. inv_bind H2 z Hz.
  destruct z as [t4 nxt4]. destruct nxt4; [|discriminate].
  injection H2 as <-.
  unfold match_addresses, MATCHRULE. rewrite H1. cbn [bind value].
  rewrite Htr1. cbn [negb next].
  rewrite (members_loop_step _ (length (next r1)) _ t2 n2
             (str r1 ++ comment r1) r2a); cbn [next str comment addr];
    try assumption.
  - pose proof (sadv_length _ _ Hs2) as Hl. cbn [length] in Hl.
    apply (members_loop_mono _ _ (length (next r1))) in Hx;
      [|rewrite Hn; cbn [length]; lia].
    apply (members_loop_prefix _ _ _ ((str r1 ++ comment r1) ++ lit ", ")
             (addr r1)) in Hx.
    rewrite <- app_assoc in Hx. rewrite Hx.
    cbn [bind next str comment addr].
    rewrite (skipcomment_prefix _ ((str r1 ++ comment r1) ++ lit ", ")
               _ _ _ Hy).
    cbn [bind]. rewrite Hz. cbn [bind]. unfold RETURNR.
    rewrite <- !app_assoc. reflexivity.
  - rewrite Hn. rewrite comma_loop_comma by assumption.
    cbn [length]. apply comma_loop_stop; assumption.
Qed.

End Lists.

(** X10.  A list of addresses is read member by member.  On a
    well-formed chain, when an address is followed by a comma and then by a
    token that is not a comma, a comment or the end-marker, and the rest
    parses as a list, the whole is a list: its display is the display of the
    first address, [", "] and the display of the rest, and its canonical
    text is the canonical text of the first followed by that of the rest. *)
Theorem addresses_compose (canonicalize : mystring -> mystring)
  (node : list token) (r1 : result) (t t2 : token) (n2 : list token)
  (r2 : result) :
  wf node = true ->
  match_address canonicalize node = Ret (Some r1) ->
  next r1 = t :: t2 :: n2 -> type t = COMMA ->
  type t2 <> COMMA -> type t2 <> COMMENT -> type t2 <> EOT ->
  match_addresses canonicalize (t2 :: n2) = Ret (Some r2) ->
  match_addresses canonicalize node
  = Ret (Some (mk_result (next r2)
                 (str r1 ++ comment r1 ++ lit ", " ++ str r2)
                 (comment r2) (addr r1 ++ addr r2))).
Proof. apply match_addresses_cons. Qed.

Lemma addresses_compose_witness :
  match_addresses stub
    [mk_token ATOM (lit "a"); anode0 AT; mk_token ATOM (lit "b");
     anode0 COMMA; mk_token ATOM (lit "c"); anode0 AT;
     mk_token ATOM (lit "d"); anode0 COMMA; mk_token ATOM (lit "e");
     anode0 EOT]
  = Ret (Some (mk_result
                 (next (mk_result [anode0 EOT] (lit "c@d, e@") []
                          (lit "c@d" ++ [CR] ++ lit "e@" ++ [CR])))
                 (str (mk_result
                         [anode0 COMMA; mk_token ATOM (lit "c"); anode0 AT;
                          mk_token ATOM (lit "d"); anode0 COMMA;
                          mk_token ATOM (lit "e"); anode0 EOT]
                         (lit "a@b") [] (lit "a@b" ++ [CR]))
                  ++ [] ++ lit ", " ++ lit "c@d, e@")
                 [] (lit "a@b" ++ [CR] ++ lit "c@d" ++ [CR] ++ lit "e@" ++ [CR]))).
Proof.
  apply (addresses_compose stub _
           (mk_result
              [anode0 COMMA; mk_token ATOM (lit "c"); anode0 AT;
               mk_token ATOM (lit "d"); anode0 COMMA;
               mk_token ATOM (lit "e"); anode0 EOT]
              (lit "a@b") [] (lit "a@b" ++ [CR]))
           (anode0 COMMA) (mk_token ATOM (lit "c"))
           [anode0 AT; mk_token ATOM (lit "d"); anode0 COMMA;
            mk_token ATOM (lit "e"); anode0 EOT]
           (mk_result [anode0 EOT] (lit "c@d, e@") []
              (lit "c@d" ++ [CR] ++ lit "e@" ++ [CR]))).
  - reflexivity.
  - reflexivity.
  - reflexivity.
  - reflexivity.
  - discriminate.
  - discriminate.
  - discriminate.
  - reflexivity.
Defined.

(** ** Dotted domains *)

Lemma match_sub_domain_atom (d : mystring) (nxt : list token) :
  match_sub_domain (mk_token ATOM d :: nxt)
  = Ret (Some (mk_result nxt d [] d)).
Proof. reflexivity. Qed.

Lemma match_sub_domain_none (t : token) (nxt : list token) :
  type t <> ATOM -> type t <> DOMAIN_LITERAL -> type t <> COMMENT ->
  match_sub_domain (t :: nxt) = Ret None.
Proof.
  intros H1 H2 H3. apply node_type_eqb_neq in H1, H2, H3.
  unfold match_sub_domain. cbn [skipcomment]. rewrite H3. cbn [bind deref].
  rewrite H1, H2. reflexivity.
Qed.

Lemma domain_loop_dots (node : list token) :
  domain_stop node ->
  forall (ds : list mystring) (bound : nat) (s c a cmt : mystring),
    length (dot_chain ds ++ node) < bound ->
    domain_loop bound (mk_result (dot_chain ds ++ node) s c a) cmt
    = Ret (mk_result node (s ++ dot_text ds) c (a ++ dot_text ds), cmt).
Proof.
  intros (t & rest & -> & Hc & Hstop).
  induction ds as [|d ds IH]; intros bound s c a cmt Hb;
    (destruct bound as [|bound]; [simpl in Hb; lia|]).
  - cbn [dot_chain dot_text app domain_loop next str comment addr skipcomment].
    apply node_type_eqb_neq in Hc. rewrite Hc. cbn [bind deref].
    rewrite !app_nil_r.
    destruct (node_type_eqb (type t) PERIOD) eqn:Ep; [|reflexivity].
    cbn [negb]. destruct Hstop as [Hp | (t2 & rest2 & -> & H1 & H2 & H3)].
    + apply node_type_eqb_neq in Hp. congruence.
    + rewrite match_sub_domain_none by assumption. reflexivity.
  - cbn [dot_chain dot_text app domain_loop next str comment addr skipcomment
           anode0 type node_type_eqb bind deref negb].
    rewrite match_sub_domain_atom.
    assert (Htr : truthy (mk_result (dot_chain ds ++ t :: rest) d [] d) = true).
    { unfold truthy. cbn [next]. destruct ds; reflexivity. }
    cbn [bind value]. rewrite Htr. cbn [negb next str comment addr].
    rewrite app_nil_r.
    rewrite IH by (cbn [dot_chain app length] in Hb; lia).
    rewrite <- !app_assoc. reflexivity.
Qed.

Lemma match_domain_dots (d0 : mystring) (ds : list mystring)
  (node : list token) :
  domain_stop node ->
  match_domain (mk_token ATOM d0 :: dot_chain ds ++ node)
  = Ret (Some (mk_result node (d0 ++ dot_text ds) [] (d0 ++ dot_text ds))).
Proof.
  intros Hstop. unfold match_domain, MATCHRULE.
  rewrite match_sub_domain_atom. cbn [bind value].
  assert (Htr : truthy (mk_result (dot_chain ds ++ node) d0 [] d0) = true).
  { destruct Hstop as (t & rest & -> & _). unfold truthy. cbn [next].
    destruct ds; reflexivity. }
  rewrite Htr. cbn [negb next].
  rewrite domain_loop_dots by (assumption || lia). reflexivity.
Qed.

(** X11.  A dotted domain.  On the atom [d0] followed by [.d1....dn],
    where the chain ends on a token that is neither a comment nor a period,
    or on a period that no sub-domain follows, [match_domain] returns
    [d0.d1....dn] as display and as canonical text and stops at that token:
    the period with nothing after it is not taken. *)
Theorem domain_dotted (d0 : mystring) (ds : list mystring)
  (node : list token) :
  domain_stop node ->
  match_domain (mk_token ATOM d0 :: dot_chain ds ++ node)
  = Ret (Some (mk_result node (d0 ++ dot_text ds) [] (d0 ++ dot_text ds))).
Proof. apply match_domain_dots. Qed.

Lemma domain_dotted_witness :
  match_domain
    (mk_token ATOM (lit "b") :: dot_chain [lit "c"; lit "d"]
     ++ [anode0 PERIOD; anode0 RABRACKET; anode0 EOT])
  = Ret (Some (mk_result [anode0 PERIOD; anode0 RABRACKET; anode0 EOT]
                 (lit "b" ++ dot_text [lit "c"; lit "d"]) []
                 (lit "b" ++ dot_text [lit "c"; lit "d"]))).
Proof.
  apply domain_dotted. exists (anode0 PERIOD), [anode0 RABRACKET; anode0 EOT].
  split; [reflexivity|]. split; [discriminate|]. right.
  exists (anode0 RABRACKET), [anode0 EOT].
  repeat split; discriminate.
Defined.

(** ** A local part alone, an empty group, a named mailbox *)

Section Shapes.

Variable canonicalize : mystring -> mystring.

Lemma match_addresses_bare (L : mystring) :
  match_addresses canonicalize [mk_token ATOM L; anode0 EOT]
  = Ret (Some (mk_result [anode0 EOT]
                 (L ++ lit "@" ++ canonicalize [])
                 []
                 (L ++ lit "@" ++ canonicalize [] ++ [CR]))).
Proof.
  set (node := [mk_token ATOM L; anode0 EOT]).
  assert (Hspec : match_addr_spec canonicalize node
            = Ret (Some (mk_result [anode0 EOT]
                           (L ++ lit "@" ++ canonicalize [])
                           []
                           (L ++ lit "@" ++ canonicalize [] ++ [CR])))).
  { apply (match_addr_spec_chain canonicalize node
             (mk_result [anode0 EOT] L [] L) [] (anode0 EOT) []).
    - reflexivity.
    - reflexivity.
    - repeat split; discriminate. }
  assert (Hgroup : match_group canonicalize node = Ret None) by reflexivity.
  assert (Hrs : match_route_spec canonicalize node = Ret None) by reflexivity.
  assert (Hmb : match_mailbox canonicalize node
            = match_addr_spec canonicalize node).
  { unfold match_mailbox, OR_RULE. rewrite Hrs, Hspec. reflexivity. }
  assert (Had : match_address canonicalize node
            = match_addr_spec canonicalize node).
  { unfold match_address, OR_RULE. rewrite Hgroup, Hmb, Hspec. reflexivity. }
  unfold match_addresses, MATCHRULE. rewrite Had, Hspec.
  cbn [bind value truthy next negb str comment addr].
  rewrite !app_nil_r. reflexivity.
Qed.

Lemma match_addresses_empty_group (P : mystring) :
  match_addresses canonicalize
    [mk_token ATOM P; anode0 COLON; anode0 SEMICOLON; anode0 EOT]
  = Ret (Some (mk_result [anode0 EOT] (P ++ lit ": ;") [] [])).
Proof.
  set (node := [mk_token ATOM P; anode0 COLON; anode0 SEMICOLON; anode0 EOT]).
  assert (Hgroup : match_group canonicalize node
            = Ret (Some (mk_result [anode0 EOT] (P ++ lit ": ;") [] [])))
    by reflexivity.
  assert (Had : match_address canonicalize node
            = Ret (Some (mk_result [anode0 EOT] (P ++ lit ": ;") [] []))).
  { unfold match_address, OR_RULE. rewrite Hgroup. reflexivity. }
  unfold match_addresses, MATCHRULE. rewrite Had.
  cbn [bind value truthy next negb str comment addr].
  rewrite !app_nil_r. reflexivity.
Qed.

Lemma phrase_loop_atoms (t : token) (rest : list token) :
  type t <> ATOM -> type t <> QUOTED_STRING -> type t <> COMMENT ->
  forall (ws : list mystring) (bound : nat) (s c a : mystring),
    length (atom_chain ws ++ t :: rest) < bound ->
    phrase_loop bound (mk_result (atom_chain ws ++ t :: rest) s c a)
    = Ret (mk_result (t :: rest) (s ++ spaced ws) c a).
Proof.
  intros H1 H2 H3. apply node_type_eqb_neq in H1, H2, H3.
  induction ws as [|w ws IH]; intros bound s c a Hb;
    (destruct bound as [|bound]; [simpl in Hb; lia|]).
  - cbn [atom_chain map app spaced phrase_loop next]. unfold match_word.
    cbn [skipcomment]. rewrite H3. cbn [bind deref]. rewrite H1, H2.
    cbn [bind value]. rewrite app_nil_r. reflexivity.
  - cbn [atom_chain map app spaced phrase_loop next]. unfold match_word.
    cbn [skipcomment type node_type_eqb bind deref RETURN RETURNR value text].
    assert (Htr : truthy (mk_result (map (mk_token ATOM) ws ++ t :: rest)
                            w [] w) = true).
    { unfold truthy. cbn [next]. destruct ws; reflexivity. }
    rewrite Htr. cbn [negb next str comment addr]. rewrite app_nil_r.
    change (map (mk_token ATOM) ws) with (atom_chain ws).
    rewrite IH by (cbn [atom_chain map app length] in Hb;
                   unfold atom_chain; lia).
    rewrite <- !app_assoc. reflexivity.
Qed.

Lemma match_phrase_atoms (w0 : mystring) (ws : list mystring) (t : token)
  (rest : list token) :
  type t <> ATOM -> type t <> QUOTED_STRING -> type t <> COMMENT ->
  match_phrase (atom_chain (w0 :: ws) ++ t :: rest)
  = Ret (Some (mk_result (t :: rest) (w0 ++ spaced ws) [] w0)).
Proof.
  intros H1 H2 H3. unfold match_phrase, MATCHRULE.
  cbn [atom_chain map app]. unfold match_word at 1.
  cbn [skipcomment type node_type_eqb bind deref RETURN RETURNR value text].
  assert (Htr : truthy (mk_result (map (mk_token ATOM) ws ++ t :: rest)
                          w0 [] w0) = true).
  { unfold truthy. cbn [next]. destruct ws; reflexivity. }
  rewrite Htr. cbn [negb next]. change (map (mk_token ATOM) ws)
    with (atom_chain ws).
  rewrite phrase_loop_atoms by (assumption || lia). reflexivity.
Qed.

Lemma match_route_addr_plain (L D : mystring) (t : token)
  (rest : list token) :
  match_route_addr canonicalize
    (anode0 LABRACKET :: mk_token ATOM L :: anode0 AT :: mk_token ATOM D
     :: anode0 RABRACKET :: t :: rest)
  = Ret (Some (mk_result (t :: rest)
                 (lit "<" ++ L ++ lit "@" ++ canonicalize D ++ lit ">")
                 []
                 (L ++ lit "@" ++ canonicalize D ++ [CR]))).
Proof.
  set (inner := mk_token ATOM L :: anode0 AT :: mk_token ATOM D
                :: anode0 RABRACKET :: t :: rest).
  assert (Hspec : match_addr_spec canonicalize inner
            = Ret (Some (mk_result (anode0 RABRACKET :: t :: rest)
                           (L ++ lit "@" ++ canonicalize D)
                           []
                           (L ++ lit "@" ++ canonicalize D ++ [CR])))).
  { apply (match_addr_spec_chain canonicalize inner
             (mk_result (anode0 AT :: mk_token ATOM D
                         :: anode0 RABRACKET :: t :: rest) L [] L)
             [D] (anode0 RABRACKET) (t :: rest)).
    - reflexivity.
    - reflexivity.
    - repeat split; discriminate. }
  unfold match_route_addr. cbn [skipcomment anode0 type node_type_eqb bind].
  unfold MATCHTOKEN at 1. cbn [deref bind type node_type_eqb negb].
  assert (Hroute : match_route inner = Ret None) by reflexivity.
  rewrite Hroute. cbn [bind value]. change (truthy result0) with false.
  cbv iota. unfold MATCHRULE. fold inner. rewrite Hspec.
  unfold MATCHTOKEN, RETURN, RETURNR, anode0. simpl.
  rewrite <- !app_assoc. reflexivity.
Qed.

End Shapes.

(** X12.  A local part alone is an address.  On a field that is one
    atom [L], [parse_addresses] succeeds: the canonicalizer is given the
    empty domain, and what it returns stands after [L@] in the display and
    in the canonical entry. *)
Theorem parse_addresses_bare_local_part
  (canonicalize : mystring -> mystring) (L list_ : mystring) :
  L <> [] -> forallb isatom L = true ->
  parse_addresses canonicalize L list_
  = Ret (true, (L ++ lit "@" ++ canonicalize [],
                L ++ lit "@" ++ canonicalize [] ++ [CR])).
Proof.
  intros Hne Ha. unfold parse_addresses.
  pose proof (tokenize_atoms L [] Hne Ha (Forall_nil _)) as Ht.
  cbn [at_text at_chain app] in Ht. rewrite app_nil_r in Ht. rewrite Ht.
  cbn [bind]. rewrite match_addresses_bare. reflexivity.
Qed.

Lemma parse_addresses_bare_local_part_witness :
  parse_addresses (fun _ => lit "localhost") (lit "root") (lit "old")
  = Ret (true, (lit "root" ++ lit "@" ++ lit "localhost",
                lit "root" ++ lit "@" ++ lit "localhost" ++ [CR])).
Proof.
  apply (parse_addresses_bare_local_part (fun _ => lit "localhost")).
  - discriminate.
  - reflexivity.
Defined.

Lemma tokenize_empty_group (P : mystring) :
  P <> [] -> forallb isatom P = true ->
  tokenize (of_cstr (P ++ lit ":;"))
  = Ret (Some [mk_token ATOM P; anode0 COLON; anode0 SEMICOLON; anode0 EOT]).
Proof.
  intros Hne Ha. rewrite of_cstr_app_atoms by assumption.
  change (of_cstr (lit ":;")) with (lit ":;").
  unfold tokenize. cbn [tokenize_loop].
  rewrite tokenize1_atom by (assumption || reflexivity).
  cbn [type node_type_eqb app].
  rewrite (tokenize_loop_bound _ 3); [reflexivity | | simpl; lia].
  rewrite length_app. destruct P; [contradiction|]. simpl. lia.
Qed.

(** X13.  A group without members.  On a field made of an atom [P],
    a colon and a semicolon, [parse_addresses] succeeds with the display
    [P: ;] and leaves the canonical list empty: a true return does not
    promise an address. *)
Theorem parse_addresses_empty_group
  (canonicalize : mystring -> mystring) (P list_ : mystring) :
  P <> [] -> forallb isatom P = true ->
  parse_addresses canonicalize (P ++ lit ":;") list_
  = Ret (true, (P ++ lit ": ;", [])).
Proof.
  intros Hne Ha. unfold parse_addresses.
  rewrite tokenize_empty_group by assumption. cbn [bind].
  rewrite match_addresses_empty_group. reflexivity.
Qed.

Lemma parse_addresses_empty_group_witness :
  parse_addresses stub (lit "undisclosed" ++ lit ":;") (lit "old")
  = Ret (true, (lit "undisclosed" ++ lit ": ;", [])).
Proof.
  apply parse_addresses_empty_group.
  - discriminate.
  - reflexivity.
Defined.

(** On the atoms [w0 w1 ... wk], an angle bracket, the atoms [L], [@], [D]
    and the closing bracket, with a token after it, [match_mailbox] returns
    the words with one space between them, then a space and [<L@D'>], where
    [D'] is the canonicalized [D]. *)
Lemma match_mailbox_named (canonicalize : mystring -> mystring)
  (w0 : mystring) (ws : list mystring) (L D : mystring) (t : token)
  (rest : list token) :
  match_mailbox canonicalize
    (atom_chain (w0 :: ws)
     ++ anode0 LABRACKET :: mk_token ATOM L :: anode0 AT :: mk_token ATOM D
        :: anode0 RABRACKET :: t :: rest)
  = Ret (Some (mk_result (t :: rest)
                 (w0 ++ spaced ws ++ lit " <" ++ L ++ lit "@"
                  ++ canonicalize D ++ lit ">")
                 []
                 (L ++ lit "@" ++ canonicalize D ++ [CR]))).
Proof.
  unfold match_mailbox, OR_RULE, match_route_spec.
  rewrite match_phrase_atoms by discriminate.
  cbn [bind value truthy next]. unfold MATCHRULE.
  rewrite match_route_addr_plain.
  cbn [bind value truthy next negb str comment addr]. unfold RETURNR.
  cbn [bind value truthy next negb str comment addr].
  rewrite !app_nil_r, <- !app_assoc. reflexivity.
Qed.

Lemma match_addresses_named (canonicalize : mystring -> mystring)
  (w0 : mystring) (ws : list mystring) (L D : mystring) :
  match_addresses canonicalize
    (atom_chain (w0 :: ws)
     ++ [anode0 LABRACKET; mk_token ATOM L; anode0 AT; mk_token ATOM D;
         anode0 RABRACKET; anode0 EOT])
  = Ret (Some (mk_result [anode0 EOT]
                 (w0 ++ spaced ws ++ lit " <" ++ L ++ lit "@"
                  ++ canonicalize D ++ lit ">")
                 []
                 (L ++ lit "@" ++ canonicalize D ++ [CR]))).
Proof.
  set (node := atom_chain (w0 :: ws) ++ _).
  pose proof (match_mailbox_named canonicalize w0 ws L D (anode0 EOT) [])
    as Hmb. fold node in Hmb.
  assert (Hgroup : match_group canonicalize node = Ret None).
  { unfold match_group, MATCHRULE. subst node.
    rewrite match_phrase_atoms by discriminate. reflexivity. }
  assert (Had : match_address canonicalize node
            = match_mailbox canonicalize node).
  { unfold match_address, OR_RULE. rewrite Hgroup, Hmb. reflexivity. }
  unfold match_addresses, MATCHRULE. rewrite Had, Hmb.
  cbn [bind value truthy next negb str comment addr].
  rewrite !app_nil_r. reflexivity.
Qed.

Lemma atoms_nonul (a : mystring) : forallb isatom a = true -> nonul a = true.
Proof.
  unfold nonul. induction a as [|c a IH]; cbn [forallb]; intros H;
    [reflexivity|].
  apply andb_true_iff in H as [Hc H].
  destruct (isatom_inv c Hc) as (_ & _ & Hnul).
  rewrite Hnul, IH by assumption. reflexivity.
Qed.

Lemma nonul_app (a b : mystring) :
  nonul a = true -> nonul b = true -> nonul (a ++ b) = true.
Proof. unfold nonul. intros Ha Hb. rewrite forallb_app, Ha, Hb. reflexivity. Qed.

Lemma spaced_nonul (ws : list mystring) :
  Forall (fun w => w <> [] /\ forallb isatom w = true) ws ->
  nonul (spaced ws) = true.
Proof.
  induction 1 as [|w ws [_ Hw] _ IH]; [reflexivity|].
  cbn [spaced]. repeat apply nonul_app; auto using atoms_nonul.
Qed.

(** One turn of the loop of [tokenize], with the bound that the text left
    allows. *)
Lemma tokenize_loop_next (tokens : list token) (ptr : list ascii)
  (tmp : token) (ptr' : list ascii) :
  tokenize1 ptr = Some (tmp, ptr') -> type tmp <> EOT ->
  tokenize_loop (S (length ptr)) tokens ptr
  = tokenize_loop (S (length ptr')) (tokens ++ [tmp]) ptr'.
Proof.
  intros E1 Ht.
  destruct (tokenize1_spec _ _ _ E1) as (_ & Hlen & _).
  specialize (Hlen Ht). apply node_type_eqb_neq in Ht.
  change (tokenize_loop (S (length ptr)) tokens ptr)
    with (match tokenize1 ptr with
          | None => Ret None
          | Some (tmp, ptr0) =>
              if node_type_eqb (type tmp) EOT
              then Ret (Some (tokens ++ [tmp]))
              else tokenize_loop (length ptr) (tokens ++ [tmp]) ptr0
          end).
  rewrite E1, Ht. apply tokenize_loop_bound; lia.
Qed.

Lemma tokenize_loop_word (tokens : list token) (w rest : list ascii) :
  w <> [] -> forallb isatom w = true -> isatom (peek rest) = false ->
  tokenize_loop (S (length (w ++ rest))) tokens (w ++ rest)
  = tokenize_loop (S (length rest)) (tokens ++ [mk_token ATOM w]) rest.
Proof.
  intros Hne Ha Hr. apply tokenize_loop_next; [|discriminate].
  apply tokenize1_atom; assumption.
Qed.

Lemma tokenize_loop_spaced (rest : list ascii) :
  isatom (peek rest) = false ->
  forall (ws : list mystring) (tokens : list token),
    Forall (fun w => w <> [] /\ forallb isatom w = true) ws ->
    tokenize_loop (S (length (spaced ws ++ rest))) tokens (spaced ws ++ rest)
    = tokenize_loop (S (length rest)) (tokens ++ atom_chain ws) rest.
Proof.
  intros Hr. induction ws as [|w ws IH]; intros tokens Hws.
  - cbn [spaced atom_chain map app]. rewrite app_nil_r. reflexivity.
  - inversion Hws as [|? ? [Hne Ha] Hws']; subst.
    cbn [spaced atom_chain map]. rewrite <- !app_assoc.
    rewrite (tokenize_loop_next tokens _ (mk_token ATOM w) (spaced ws ++ rest));
      [|rewrite tokenize1_space by reflexivity; apply tokenize1_atom; auto
       |discriminate].
    + rewrite IH by assumption. rewrite <- app_assoc. reflexivity.
    + destruct ws as [|w' ws]; [exact Hr | reflexivity].
Qed.

Lemma tokenize_named (w0 : mystring) (ws : list mystring) (L D : mystring) :
  w0 <> [] -> forallb isatom w0 = true ->
  Forall (fun w => w <> [] /\ forallb isatom w = true) ws ->
  L <> [] -> forallb isatom L = true ->
  D <> [] -> forallb isatom D = true ->
  tokenize (w0 ++ spaced ws ++ lit " <" ++ L ++ lit "@" ++ D ++ lit ">")
  = Ret (Some (atom_chain (w0 :: ws)
               ++ [anode0 LABRACKET; mk_token ATOM L; anode0 AT;
                   mk_token ATOM D; anode0 RABRACKET; anode0 EOT])).
Proof.
  intros Hw0 Ha0 Hws HL HaL HD HaD. unfold tokenize.
  rewrite tokenize_loop_word;
    [|assumption..|destruct ws; reflexivity].
  rewrite tokenize_loop_spaced by (assumption || reflexivity).
  rewrite (tokenize_loop_next _ _ (anode0 LABRACKET)
             (L ++ lit "@" ++ D ++ lit ">"));
    [|reflexivity | discriminate].
  rewrite tokenize_loop_word by (assumption || reflexivity).
  rewrite (tokenize_loop_next _ _ (anode0 AT) (D ++ lit ">"));
    [|reflexivity | discriminate].
  rewrite tokenize_loop_word by (assumption || reflexivity).
  change (tokenize_loop (S (length (lit ">"))) ?t (lit ">"))
    with (Ret (Some ((t ++ [anode0 RABRACKET]) ++ [anode0 EOT]))).
  cbn [atom_chain map app]. rewrite <- !app_assoc. reflexivity.
Qed.

(** X14.  A named mailbox.  On the field [w0 w1 ... wk <L@D>], where the
    words, [L] and [D] are atoms and one space stands between the words and
    before the bracket, [parse_addresses] succeeds; [line] becomes the same
    text with [D] replaced by the canonicalized [D'], and [list] becomes
    [L@D'] with its line feed: the name goes to the display only. *)
Theorem parse_addresses_named_mailbox (canonicalize : mystring -> mystring)
  (w0 : mystring) (ws : list mystring) (L D list_ : mystring) :
  w0 <> [] -> forallb isatom w0 = true ->
  Forall (fun w => w <> [] /\ forallb isatom w = true) ws ->
  L <> [] -> forallb isatom L = true ->
  D <> [] -> forallb isatom D = true ->
  parse_addresses canonicalize
    (w0 ++ spaced ws ++ lit " <" ++ L ++ lit "@" ++ D ++ lit ">") list_
  = Ret (true,
         (w0 ++ spaced ws ++ lit " <" ++ L ++ lit "@" ++ canonicalize D
          ++ lit ">",
          L ++ lit "@" ++ canonicalize D ++ [CR])).
Proof.
  intros Hw0 Ha0 Hws HL HaL HD HaD. unfold parse_addresses.
  rewrite nonul_of_cstr
    by (repeat apply nonul_app;
        auto using atoms_nonul, spaced_nonul; reflexivity).
  rewrite tokenize_named by assumption. cbn [bind].
  rewrite match_addresses_named. reflexivity.
Qed.

Lemma parse_addresses_named_mailbox_witness :
  parse_addresses (fun d => d ++ lit ".org")
    (lit "John Q Doe <john@example>") (lit "old")
  = Ret (true, (lit "John Q Doe <john@example.org>",
                lit "john@example.org" ++ [CR])).
Proof.
  apply (parse_addresses_named_mailbox (fun d => d ++ lit ".org")
           (lit "John") [lit "Q"; lit "Doe"] (lit "john") (lit "example")
           (lit "old")).
  - discriminate.
  - reflexivity.
  - repeat constructor; discriminate.
  - discriminate.
  - reflexivity.
  - discriminate.
  - reflexivity.
Defined.

(** ** The kinds of token that are consumed *)

Lemma gadv_trans (a b c : list token) : gadv a b -> gadv b c -> gadv a c.
Proof. induction 1; intros; [assumption | constructor; auto]. Qed.

Lemma gadv_prefix (a b : list token) :
  gadv a b -> exists pre, a = pre ++ b /\ Forall grammar_kind pre.
Proof.
  induction 1 as [n | t n m Ht _ (pre & -> & Hpre)].
  - exists []. split; [reflexivity | constructor].
  - exists (t :: pre). split; [reflexivity | constructor; assumption].
Qed.

Lemma gadv_one (t : token) (nxt : list token) (K : node_type) :
  node_type_eqb (type t) K = true ->
  K <> ESCAPE -> K <> EMPTY -> K <> EOT -> gadv (t :: nxt) nxt.
Proof.
  intros E H1 H2 H3. apply node_type_eqb_eq in E.
  constructor; [|constructor]. unfold grammar_kind. rewrite E. auto.
Qed.

Lemma skipcomment_gadv (node : list token) :
  forall (cmt : mystring) (node' : list token) (cmt' : mystring),
    skipcomment node cmt = Ret (node', cmt') -> gadv node node'.
Proof.
  induction node as [|t nxt IH]; intros cmt node' cmt' H; [discriminate|].
  simpl in H. destruct (node_type_eqb (type t) COMMENT) eqn:Et.
  - eapply gadv_trans; [eapply gadv_one; [eassumption|..]; discriminate|].
    eauto.
  - injection H as <- <-. constructor.
Qed.

Lemma deref_inv (node : list token) (t : token) (nxt : list token) :
  deref node = Ret (t, nxt) -> node = t :: nxt.
Proof. destruct node; [discriminate|]. intros [= <- <-]. reflexivity. Qed.

(** The inversion steps shared by the rules: a [skipcomment], a token that
    is read, a token that is matched. *)
Ltac inv_skip H n c Hg :=
  let x := fresh "x" in
  let Hx := fresh "Hx" in
  inv_bind H x Hx; destruct x as [n c];
  pose proof (skipcomment_gadv _ _ _ _ Hx) as Hg.

Ltac inv_deref H t nxt :=
  let y := fresh "y" in
  let Hy := fresh "Hy" in
  inv_bind H y Hy; destruct y as [t nxt]; apply deref_inv in Hy; subst.

Ltac by_kind E :=
  eapply gadv_one; [exact E|..]; discriminate.

Lemma match_sub_domain_gadv (node : list token) (r : result) :
  match_sub_domain node = Ret (Some r) -> gadv node (next r).
Proof.
  unfold match_sub_domain. intros H. inv_skip H n c Hg. inv_deref H t nxt.
  destruct (node_type_eqb (type t) ATOM) eqn:E1; cbn [orb] in H.
  - injection H as <-. eapply gadv_trans; [eassumption|]. by_kind E1.
  - destruct (node_type_eqb (type t) DOMAIN_LITERAL) eqn:E2; [|discriminate].
    injection H as <-. eapply gadv_trans; [eassumption|]. by_kind E2.
Qed.

Lemma match_word_gadv (node : list token) (r : result) :
  match_word node = Ret (Some r) -> gadv node (next r).
Proof.
  unfold match_word. intros H. inv_skip H n c Hg. inv_deref H t nxt.
  destruct (node_type_eqb (type t) ATOM) eqn:E1.
  - injection H as <-. eapply gadv_trans; [eassumption|]. by_kind E1.
  - destruct (node_type_eqb (type t) QUOTED_STRING) eqn:E2; [|discriminate].
    inv_bind H a Ha. injection H as <-.
    eapply gadv_trans; [eassumption|]. by_kind E2.
Qed.

(** A rule called in a loop or as an option: where its result is truthy,
    the position moves as the rule says. *)
Lemma truthy_gadv (f : list token -> exec outcome) (node : list token)
  (o : outcome) :
  (forall n r, f n = Ret (Some r) -> gadv n (next r)) ->
  f node = Ret o -> truthy (value o) = true -> gadv node (next (value o)).
Proof.
  intros Hf Ho Htr. apply Hf. rewrite Ho. f_equal. apply value_truthy.
  assumption.
Qed.

Lemma domain_loop_gadv (bound : nat) :
  forall (r : result) (cmt : mystring) (r' : result) (cmt' : mystring),
    domain_loop bound r cmt = Ret (r', cmt') -> gadv (next r) (next r').
Proof.
  induction bound as [|bound IH]; intros r cmt r' cmt' H; [discriminate|].
  cbn [domain_loop] in H. inv_skip H n c Hg. inv_deref H t nxt.
  destruct (node_type_eqb (type t) PERIOD) eqn:Et; cbn [negb] in H.
  - inv_bind H o Ho. destruct (truthy (value o)) eqn:Htr; cbn [negb] in H.
    + apply IH in H. cbn [next] in H.
      eapply gadv_trans; [eassumption|].
      eapply gadv_trans; [by_kind Et|].
      eapply gadv_trans; [|eassumption].
      eapply truthy_gadv; [apply match_sub_domain_gadv | eassumption..].
    + injection H as <- <-. assumption.
  - injection H as <- <-. assumption.
Qed.

Lemma match_domain_gadv (node : list token) (r : result) :
  match_domain node = Ret (Some r) -> gadv node (next r).
Proof.
  unfold match_domain, MATCHRULE. intros H. inv_bind H o Ho.
  destruct (truthy (value o)) eqn:Htr; [|discriminate]. cbn [negb] in H.
  inv_bind H x Hx. destruct x as [r1 c1]. apply domain_loop_gadv in Hx.
  injection H as <-. cbn [next].
  eapply gadv_trans; [|eassumption].
  eapply truthy_gadv; [apply match_sub_domain_gadv | eassumption..].
Qed.

Lemma route_loop_gadv (bound : nat) :
  forall (node : list token) (count : Z) (s cmt : mystring)
         (node' : list token) (count' : Z) (s' cmt' : mystring),
    route_loop bound node count s cmt = Ret (Some (node', count', s', cmt')) ->
    gadv node node'.
Proof.
  induction bound as [|bound IH];
    intros node count s cmt node' count' s' cmt' H; [discriminate|].
  cbn [route_loop] in H. inv_deref H t nxt.
  destruct (node_type_eqb (type t) AT) eqn:Et; cbn [negb] in H.
  - inv_bind H o Ho. destruct (truthy (value o)) eqn:Htr; [|discriminate].
    cbn [negb] in H. apply IH in H.
    eapply gadv_trans; [by_kind Et|].
    eapply gadv_trans; [|eassumption].
    eapply truthy_gadv; [apply match_domain_gadv | eassumption..].
  - injection H as <- <- <- <-. constructor.
Qed.

Lemma match_route_gadv (node : list token) (r : result) :
  match_route node = Ret (Some r) -> gadv node (next r).
Proof.
  unfold match_route. intros H. inv_bind H st Hst.
  destruct st as [[[[n count] s] cmt]|]; [|discriminate].
  apply route_loop_gadv in Hst.
  destruct (count =? 0)%Z; [discriminate|].
  inv_skip H n1 c1 Hg. unfold MATCHTOKEN in H. inv_deref H t nxt.
  destruct (node_type_eqb (type t) COLON) eqn:Et; [|discriminate].
  injection H as <-. cbn [next].
  eapply gadv_trans; [eassumption|].
  eapply gadv_trans; [eassumption|]. by_kind Et.
Qed.

Lemma local_part_loop_gadv (bound : nat) :
  forall r r' : result,
    local_part_loop bound r = Ret r' -> gadv (next r) (next r').
Proof.
  induction bound as [|bound IH]; intros r r' H; [discriminate|].
  cbn [local_part_loop] in H. inv_skip H n c Hg. inv_deref H t nxt.
  destruct (node_type_eqb (type t) PERIOD) eqn:Et; cbn [negb] in H.
  - inv_bind H o Ho. destruct (truthy (value o)) eqn:Htr; cbn [negb] in H.
    + apply IH in H. cbn [next] in H.
      eapply gadv_trans; [eassumption|].
      eapply gadv_trans; [by_kind Et|].
      eapply gadv_trans; [|eassumption].
      eapply truthy_gadv; [apply match_word_gadv | eassumption..].
    + injection H as <-. assumption.
  - injection H as <-. assumption.
Qed.

Lemma match_local_part_gadv (node : list token) (r : result) :
  match_local_part node = Ret (Some r) -> gadv node (next r).
Proof.
  unfold match_local_part, MATCHRULE. intros H. inv_bind H o Ho.
  destruct (truthy (value o)) eqn:Htr; [|discriminate]. cbn [negb] in H.
  inv_bind H x Hx. apply local_part_loop_gadv in Hx.
  injection H as <-.
  eapply gadv_trans; [|eassumption].
  eapply truthy_gadv; [apply match_word_gadv | eassumption..].
Qed.

Lemma phrase_loop_gadv (bound : nat) :
  forall r r' : result,
    phrase_loop bound r = Ret r' -> gadv (next r) (next r').
Proof.
  induction bound as [|bound IH]; intros r r' H; [discriminate|].
  cbn [phrase_loop] in H. inv_bind H o Ho.
  destruct (truthy (value o)) eqn:Htr; cbn [negb] in H.
  - apply IH in H. cbn [next] in H.
    eapply gadv_trans; [|eassumption].
    eapply truthy_gadv; [apply match_word_gadv | eassumption..].
  - injection H as <-. constructor.
Qed.

Lemma match_phrase_gadv (node : list token) (r : result) :
  match_phrase node = Ret (Some r) -> gadv node (next r).
Proof.
  unfold match_phrase, MATCHRULE. intros H. inv_bind H o Ho.
  destruct (truthy (value o)) eqn:Htr; [|discriminate]. cbn [negb] in H.
  inv_bind H x Hx. apply phrase_loop_gadv in Hx.
  injection H as <-.
  eapply gadv_trans; [|eassumption].
  eapply truthy_gadv; [apply match_word_gadv | eassumption..].
Qed.

(** A rule called as an option: the caller goes on from the rule's
    position when the result is truthy, and from its own otherwise. *)
Lemma option_gadv (f : list token -> exec outcome) (node : list token)
  (o : outcome) :
  (forall n r, f n = Ret (Some r) -> gadv n (next r)) ->
  f node = Ret o ->
  gadv node (if truthy (value o) then next (value o) else node).
Proof.
  intros Hf Ho. destruct (truthy (value o)) eqn:Htr; [|constructor].
  eapply truthy_gadv; eassumption.
Qed.

Section Kinds.

Variable canonicalize : mystring -> mystring.

Lemma addr_spec_loop_gadv (bound : nat) :
  forall (r : result) (domain : mystring) (r' : result) (domain' : mystring),
    addr_spec_loop bound r domain = Ret (r', domain') ->
    gadv (next r) (next r').
Proof.
  induction bound as [|bound IH]; intros r domain r' domain' H; [discriminate|].
  cbn [addr_spec_loop] in H. inv_skip H n c Hg. inv_deref H t nxt.
  destruct (node_type_eqb (type t) AT) eqn:Et; cbn [negb] in H.
  - inv_bind H o Ho. destruct (truthy (value o)) eqn:Htr; cbn [negb] in H.
    + apply IH in H. cbn [next] in H.
      eapply gadv_trans; [eassumption|].
      eapply gadv_trans; [by_kind Et|].
      eapply gadv_trans; [|eassumption].
      eapply truthy_gadv; [apply match_domain_gadv | eassumption..].
    + injection H as <- <-. assumption.
  - injection H as <- <-. assumption.
Qed.

Lemma match_addr_spec_gadv (node : list token) (r : result) :
  match_addr_spec canonicalize node = Ret (Some r) -> gadv node (next r).
Proof.
  unfold match_addr_spec, MATCHRULE. intros H. inv_bind H o Ho.
  destruct (truthy (value o)) eqn:Htr; [|discriminate]. cbn [negb] in H.
  inv_bind H x Hx. destruct x as [r1 d1]. apply addr_spec_loop_gadv in Hx.
  injection H as <-. cbn [next].
  eapply gadv_trans; [|eassumption].
  eapply truthy_gadv; [apply match_local_part_gadv | eassumption..].
Qed.

Lemma match_route_addr_gadv (node : list token) (r : result) :
  match_route_addr canonicalize node = Ret (Some r) -> gadv node (next r).
Proof.
  unfold match_route_addr, MATCHTOKEN, MATCHRULE. intros H.
  inv_skip H n c Hg. inv_deref H t nxt.
  destruct (node_type_eqb (type t) LABRACKET) eqn:Et; [|discriminate].
  inv_bind H o Ho.
  pose proof (option_gadv _ _ _ match_route_gadv Ho) as Hopt.
  inv_bind H o2 Ho2.
  destruct (truthy (value o2)) eqn:Htr; [|discriminate]. cbn [negb] in H.
  inv_skip H n2 c2 Hg2. inv_deref H t2 nxt2.
  destruct (node_type_eqb (type t2) RABRACKET) eqn:Et2; [|discriminate].
  injection H as <-. cbn [next].
  eapply gadv_trans; [eassumption|].
  eapply gadv_trans; [by_kind Et|].
  eapply gadv_trans; [eassumption|].
  eapply gadv_trans;
    [eapply truthy_gadv; [apply match_addr_spec_gadv | eassumption..]|].
  eapply gadv_trans; [eassumption|]. by_kind Et2.
Qed.

Lemma match_route_spec_gadv (node : list token) (r : result) :
  match_route_spec canonicalize node = Ret (Some r) -> gadv node (next r).
Proof.
  unfold match_route_spec, MATCHRULE. intros H. inv_bind H o Ho.
  pose proof (option_gadv _ _ _ match_phrase_gadv Ho) as Hopt.
  inv_bind H o2 Ho2.
  destruct (truthy (value o2)) eqn:Htr; [|discriminate]. cbn [negb] in H.
  assert (Hr : next r = next (value o2)).
  { destruct (truthy (value o)); cbn [negb] in H; injection H as <-;
      reflexivity. }
  rewrite Hr. eapply gadv_trans; [eassumption|].
  eapply truthy_gadv; [apply match_route_addr_gadv | eassumption..].
Qed.

Lemma match_mailbox_gadv (node : list token) (r : result) :
  match_mailbox canonicalize node = Ret (Some r) -> gadv node (next r).
Proof.
  unfold match_mailbox. intros H.
  apply OR_RULE_inv in H as [H | H];
    [apply match_route_spec_gadv | apply match_addr_spec_gadv]; assumption.
Qed.

Lemma comma_loop_gadv (bound : nat) :
  forall (node : list token) (s : mystring) (node' : list token)
         (s' : mystring),
    comma_loop bound node s = Ret (node', s') -> gadv node node'.
Proof.
  induction bound as [|bound IH]; intros node s node' s' H; [discriminate|].
  cbn [comma_loop] in H. inv_skip H n c Hg. inv_deref H t nxt.
  destruct (node_type_eqb (type t) COMMA) eqn:Et.
  - apply IH in H.
    eapply gadv_trans; [eassumption|].
    eapply gadv_trans; [by_kind Et | assumption].
  - injection H as <- <-. assumption.
Qed.

Lemma members_loop_gadv (match_member : list token -> exec outcome) :
  (forall n r, match_member n = Ret (Some r) -> gadv n (next r)) ->
  forall (bound : nat) (r1 r' : result) (node' : list token),
    members_loop match_member bound r1 = Ret (r', node') ->
    gadv (next r1) node'.
Proof.
  intros Hm. induction bound as [|bound IH]; intros r1 r' node' H;
    [discriminate|].
  cbn [members_loop] in H. inv_bind H x Hx. destruct x as [n s].
  apply comma_loop_gadv in Hx. inv_deref H t nxt.
  destruct (node_type_eqb (type t) EOT).
  - injection H as <- <-. assumption.
  - inv_bind H o Ho. destruct (truthy (value o)) eqn:Htr; cbn [negb] in H.
    + apply IH in H. cbn [next] in H.
      eapply gadv_trans; [eassumption|].
      eapply gadv_trans; [|eassumption].
      eapply truthy_gadv; eassumption.
    + injection H as <- <-. assumption.
Qed.

Lemma match_mailboxes_gadv (node : list token) (r : result) :
  match_mailboxes canonicalize node = Ret (Some r) -> gadv node (next r).
Proof.
  unfold match_mailboxes, MATCHRULE. intros H. inv_bind H o Ho.
  destruct (truthy (value o)) eqn:Htr; [|discriminate]. cbn [negb] in H.
  inv_bind H x Hx. destruct x as [r1 n1].
  apply (members_loop_gadv _ match_mailbox_gadv) in Hx. cbn [next] in Hx.
  inv_skip H n2 c2 Hg2. injection H as <-. cbn [next].
  eapply gadv_trans;
    [eapply truthy_gadv; [apply match_mailbox_gadv | eassumption..]|].
  eapply gadv_trans; eassumption.
Qed.

Lemma match_group_gadv (node : list token) (r : result) :
  match_group canonicalize node = Ret (Some r) -> gadv node (next r).
Proof.
  unfold match_group, MATCHTOKEN, MATCHRULE. intros H. inv_bind H o Ho.
  destruct (truthy (value o)) eqn:Htr; [|discriminate]. cbn [negb] in H.
  inv_deref H t nxt.
  destruct (node_type_eqb (type t) COLON) eqn:Et; [|discriminate].
  inv_bind H o2 Ho2.
  pose proof (option_gadv _ _ _ match_mailboxes_gadv Ho2) as Hopt.
  inv_skip H n2 c2 Hg2. inv_deref H t2 nxt2.
  destruct (node_type_eqb (type t2) SEMICOLON) eqn:Et2; [|discriminate].
  injection H as <-. cbn [next].
  eapply gadv_trans;
    [eapply truthy_gadv; [apply match_phrase_gadv | eassumption..]|].
  match goal with E : next (value o) = _ |- _ => rewrite E end.
  eapply gadv_trans; [by_kind Et|].
  eapply gadv_trans; [eassumption|].
  eapply gadv_trans; [eassumption|]. by_kind Et2.
Qed.

Lemma match_address_gadv (node : list token) (r : result) :
  match_address canonicalize node = Ret (Some r) -> gadv node (next r).
Proof.
  unfold match_address. intros H.
  apply OR_RULE_inv in H as [H | H];
    [apply match_group_gadv | apply match_mailbox_gadv]; assumption.
Qed.

(** [match_addresses] returns the position after the first address, but it
    succeeds only when its own cursor stands on the last token. *)
Lemma match_addresses_gadv (node : list token) (r : result) :
  match_addresses canonicalize node = Ret (Some r) ->
  exists e, gadv node [e].
Proof.
  unfold match_addresses, MATCHRULE. intros H. inv_bind H o Ho.
  destruct (truthy (value o)) eqn:Htr; [|discriminate]. cbn [negb] in H.
  inv_bind H x Hx. destruct x as [r1 n1].
  apply (members_loop_gadv _ match_address_gadv) in Hx. cbn [next] in Hx.
  inv_skip H n2 c2 Hg2. inv_deref H t nxt.
  destruct nxt; [|discriminate]. exists t.
  eapply gadv_trans;
    [eapply truthy_gadv; [apply match_address_gadv | eassumption..]|].
  eapply gadv_trans; eassumption.
Qed.

End Kinds.

(** X15.  When [match_addresses] succeeds on a chain, every token of the
    chain but the last has a kind the grammar can step over: none is an
    escape, none has the kind of the tokenizer's list head, and no
    end-marker stands before the last token. *)
Theorem consumed_kinds (canonicalize : mystring -> mystring)
  (node : list token) (r : result) :
  match_addresses canonicalize node = Ret (Some r) ->
  exists pre e, node = pre ++ [e] /\ Forall grammar_kind pre.
Proof.
  intros H. apply match_addresses_gadv in H as (e & H).
  apply gadv_prefix in H as (pre & -> & Hpre). eauto.
Qed.

Lemma consumed_kinds_witness :
  exists pre e,
    [mk_token ATOM (lit "a"); anode0 AT; mk_token ATOM (lit "b"); anode0 EOT]
    = pre ++ [e] /\ Forall grammar_kind pre.
Proof.
  apply (consumed_kinds stub _
           (mk_result [anode0 EOT] (lit "a@b") [] (lit "a@b" ++ [CR]))).
  reflexivity.
Defined.



(** ** Plain addresses *)

Lemma match_word_atom (w : mystring) (nxt : list token) :
  match_word (mk_token ATOM w :: nxt) = Ret (Some (mk_result nxt w [] w)).
Proof. reflexivity. Qed.

Lemma local_part_loop_dots (t : token) (rest : list token) :
  type t <> COMMENT -> type t <> PERIOD ->
  forall (ls : list mystring) (bound : nat) (s c a : mystring),
    length (dot_chain ls ++ t :: rest) < bound ->
    local_part_loop bound (mk_result (dot_chain ls ++ t :: rest) s c a)
    = Ret (mk_result (t :: rest) (s ++ dot_text ls) c (a ++ dot_text ls)).
Proof.
  intros Hc Hp. apply node_type_eqb_neq in Hc, Hp.
  induction ls as [|l ls IH]; intros bound s c a Hb;
    (destruct bound as [|bound]; [simpl in Hb; lia|]).
  - cbn [dot_chain dot_text app local_part_loop next str comment addr
           skipcomment].
    rewrite Hc. cbn [bind deref]. rewrite Hp, !app_nil_r. reflexivity.
  - cbn [dot_chain dot_text app local_part_loop next str comment addr
           skipcomment anode0 type node_type_eqb bind deref negb].
    rewrite match_word_atom.
    assert (Htr : truthy (mk_result (dot_chain ls ++ t :: rest) l [] l) = true).
    { unfold truthy. cbn [next]. destruct ls; reflexivity. }
    cbn [bind value]. rewrite Htr. cbn [negb next str comment addr].
    rewrite app_nil_r.
    rewrite IH by (cbn [dot_chain app length] in Hb; lia).
    rewrite <- !app_assoc. reflexivity.
Qed.

Lemma match_local_part_dots (l0 : mystring) (ls : list mystring) (t : token)
  (rest : list token) :
  type t <> COMMENT -> type t <> PERIOD ->
  match_local_part (mk_token ATOM l0 :: dot_chain ls ++ t :: rest)
  = Ret (Some (mk_result (t :: rest) (l0 ++ dot_text ls) []
                 (l0 ++ dot_text ls))).
Proof.
  intros Hc Hp. unfold match_local_part, MATCHRULE.
  rewrite match_word_atom. cbn [bind value].
  assert (Htr : truthy (mk_result (dot_chain ls ++ t :: rest) l0 [] l0) = true).
  { unfold truthy. cbn [next]. destruct ls; reflexivity. }
  rewrite Htr. cbn [negb next].
  rewrite local_part_loop_dots by (assumption || lia). reflexivity.
Qed.

(** The tokens of [l0.l1....lk@d0.d1....dn] and the end-marker. *)
Lemma plain_chain_eq (l0 : mystring) (ls : list mystring) (d0 : mystring)
  (ds : list mystring) :
  exists t rest,
    mk_token ATOM l0 :: dot_chain ls
      ++ anode0 AT :: mk_token ATOM d0 :: dot_chain ds ++ [anode0 EOT]
    = mk_token ATOM l0 :: t :: rest /\
    (type t = PERIOD \/ type t = AT).
Proof.
  destruct ls as [|l ls]; cbn [dot_chain app]; eauto.
Qed.

Section Plain.

Variable canonicalize : mystring -> mystring.

Lemma match_addr_spec_plain (l0 : mystring) (ls : list mystring)
  (d0 : mystring) (ds : list mystring) :
  match_addr_spec canonicalize
    (mk_token ATOM l0 :: dot_chain ls
     ++ anode0 AT :: mk_token ATOM d0 :: dot_chain ds ++ [anode0 EOT])
  = Ret (Some (mk_result [anode0 EOT]
                 (l0 ++ dot_text ls ++ lit "@"
                  ++ canonicalize (d0 ++ dot_text ds))
                 []
                 (l0 ++ dot_text ls ++ lit "@"
                  ++ canonicalize (d0 ++ dot_text ds) ++ [CR]))).
Proof.
  unfold match_addr_spec, MATCHRULE.
  rewrite match_local_part_dots by discriminate.
  cbn [bind value truthy next negb length].
  cbn [addr_spec_loop next comment str addr skipcomment anode0 type
         node_type_eqb bind deref negb].
  rewrite match_domain_dots
    by (exists (anode0 EOT), []; repeat split; try discriminate;
        left; discriminate).
  cbn [bind value truthy next negb mystring_not comment str addr].
  destruct (length (dot_chain ds ++ [anode0 EOT])) eqn:El;
    [destruct ds; discriminate|].
  cbn [addr_spec_loop next comment str addr skipcomment anode0 type
         node_type_eqb bind deref negb app RETURN].
  rewrite <- !app_assoc. reflexivity.
Qed.

Lemma match_addresses_plain (l0 : mystring) (ls : list mystring)
  (d0 : mystring) (ds : list mystring) :
  match_addresses canonicalize
    (mk_token ATOM l0 :: dot_chain ls
     ++ anode0 AT :: mk_token ATOM d0 :: dot_chain ds ++ [anode0 EOT])
  = Ret (Some (mk_result [anode0 EOT]
                 (l0 ++ dot_text ls ++ lit "@"
                  ++ canonicalize (d0 ++ dot_text ds))
                 []
                 (l0 ++ dot_text ls ++ lit "@"
                  ++ canonicalize (d0 ++ dot_text ds) ++ [CR]))).
Proof.
  pose proof (match_addr_spec_plain l0 ls d0 ds) as Hspec.
  destruct (plain_chain_eq l0 ls d0 ds) as (t & rest & E & Ht).
  rewrite E in *. set (node := mk_token ATOM l0 :: t :: rest) in *.
  assert (Hgroup : match_group canonicalize node = Ret None).
  { subst node. destruct t as [ty tx]. cbn [type] in Ht.
    destruct Ht as [-> | ->]; reflexivity. }
  assert (Hrs : match_route_spec canonicalize node = Ret None).
  { subst node. destruct t as [ty tx]. cbn [type] in Ht.
    destruct Ht as [-> | ->]; reflexivity. }
  assert (Hmb : match_mailbox canonicalize node
            = match_addr_spec canonicalize node).
  { unfold match_mailbox, OR_RULE. rewrite Hrs, Hspec. reflexivity. }
  assert (Had : match_address canonicalize node
            = match_addr_spec canonicalize node).
  { unfold match_address, OR_RULE. rewrite Hgroup, Hmb, Hspec. reflexivity. }
  unfold match_addresses, MATCHRULE. rewrite Had, Hspec.
  cbn [bind value truthy next negb str comment addr].
  rewrite !app_nil_r. reflexivity.
Qed.

End Plain.

Lemma dot_text_nonul (ds : list mystring) :
  Forall (fun d => d <> [] /\ forallb isatom d = true) ds ->
  nonul (dot_text ds) = true.
Proof.
  induction 1 as [|d ds [_ Hd] _ IH]; [reflexivity|].
  cbn [dot_text]. repeat apply nonul_app; auto using atoms_nonul.
Qed.

Lemma tokenize_loop_dots (rest : list ascii) :
  isatom (peek rest) = false ->
  forall (ds : list mystring) (tokens : list token),
    Forall (fun d => d <> [] /\ forallb isatom d = true) ds ->
    tokenize_loop (S (length (dot_text ds ++ rest))) tokens
      (dot_text ds ++ rest)
    = tokenize_loop (S (length rest)) (tokens ++ dot_chain ds) rest.
Proof.
  intros Hr. induction ds as [|d ds IH]; intros tokens Hds.
  - cbn [dot_text dot_chain app]. rewrite app_nil_r. reflexivity.
  - inversion Hds as [|? ? [Hne Ha] Hds']; subst.
    cbn [dot_text dot_chain]. rewrite <- !app_assoc.
    rewrite (tokenize_loop_next tokens _ (anode0 PERIOD)
               (d ++ dot_text ds ++ rest));
      [|reflexivity | discriminate].
    rewrite tokenize_loop_word;
      [|assumption..|destruct ds; [exact Hr | reflexivity]].
    rewrite IH by assumption. rewrite <- !app_assoc. reflexivity.
Qed.

Lemma tokenize_plain (l0 : mystring) (ls : list mystring) (d0 : mystring)
  (ds : list mystring) :
  l0 <> [] -> forallb isatom l0 = true ->
  Forall (fun l => l <> [] /\ forallb isatom l = true) ls ->
  d0 <> [] -> forallb isatom d0 = true ->
  Forall (fun d => d <> [] /\ forallb isatom d = true) ds ->
  tokenize (l0 ++ dot_text ls ++ lit "@" ++ d0 ++ dot_text ds)
  = Ret (Some (mk_token ATOM l0 :: dot_chain ls
               ++ anode0 AT :: mk_token ATOM d0 :: dot_chain ds
               ++ [anode0 EOT])).
Proof.
  intros Hl0 Hal0 Hls Hd0 Had0 Hds. unfold tokenize.
  rewrite tokenize_loop_word;
    [|assumption..|destruct ls; reflexivity].
  rewrite tokenize_loop_dots by (assumption || reflexivity).
  rewrite (tokenize_loop_next _ _ (anode0 AT) (d0 ++ dot_text ds));
    [|reflexivity | discriminate].
  rewrite <- (app_nil_r (dot_text ds)).
  rewrite tokenize_loop_word;
    [|assumption..|destruct ds; reflexivity].
  rewrite tokenize_loop_dots by (assumption || reflexivity).
  change (tokenize_loop (S (length (@nil ascii))) ?t [])
    with (Ret (Some (t ++ [anode0 EOT]))).
  cbn [app]. rewrite <- !app_assoc. reflexivity.
Qed.

(** X17.  A plain address.  On the field [l0.l1....lk@d0.d1....dn], where
    every part between the periods is an atom, [parse_addresses] succeeds;
    the canonicalizer is given the whole domain [d0.d1....dn] once, [line]
    becomes the local part, [@] and the canonicalized domain, and [list]
    becomes the same text with a line feed after it. *)
Theorem parse_addresses_plain (canonicalize : mystring -> mystring)
  (l0 : mystring) (ls : list mystring) (d0 : mystring) (ds : list mystring)
  (list_ : mystring) :
  l0 <> [] -> forallb isatom l0 = true ->
  Forall (fun l => l <> [] /\ forallb isatom l = true) ls ->
  d0 <> [] -> forallb isatom d0 = true ->
  Forall (fun d => d <> [] /\ forallb isatom d = true) ds ->
  parse_addresses canonicalize
    (l0 ++ dot_text ls ++ lit "@" ++ d0 ++ dot_text ds) list_
  = Ret (true,
         (l0 ++ dot_text ls ++ lit "@" ++ canonicalize (d0 ++ dot_text ds),
          l0 ++ dot_text ls ++ lit "@" ++ canonicalize (d0 ++ dot_text ds)
          ++ [CR])).
Proof.
  intros Hl0 Hal0 Hls Hd0 Had0 Hds. unfold parse_addresses.
  rewrite nonul_of_cstr
    by (repeat apply nonul_app;
        auto using atoms_nonul, dot_text_nonul; reflexivity).
  rewrite tokenize_plain by assumption. cbn [bind].
  rewrite match_addresses_plain. reflexivity.
Qed.

Lemma parse_addresses_plain_witness :
  parse_addresses stub (lit "john.doe@mail.example.org") (lit "old")
  = Ret (true, (lit "john.doe@mail.example.org",
                lit "john.doe@mail.example.org" ++ [CR])).
Proof.
  apply (parse_addresses_plain stub (lit "john") [lit "doe"] (lit "mail")
           [lit "example"; lit "org"] (lit "old")).
  - discriminate.
  - reflexivity.
  - repeat constructor; discriminate.
  - discriminate.
  - reflexivity.
  - repeat constructor; discriminate.
Defined.

(** ** Source routes, with any local part and any domains *)

Lemma skipcomment_from (node : list token) (c0 : mystring)
  (node' : list token) (c : mystring) :
  skipcomment node [] = Ret (node', c) ->
  skipcomment node c0 = Ret (node', c0 ++ c).
Proof.
  intros H. rewrite <- (app_nil_r c0) at 1.
  apply skipcomment_prefix. assumption.
Qed.

Lemma gadv_length (a b : list token) : gadv a b -> length b <= length a.
Proof. induction 1; simpl; lia. Qed.

Lemma segments_shorter (node : list token) (ds : list mystring)
  (cmt : mystring) (stop : list token) :
  segments node ds cmt stop -> length stop <= length node.
Proof.
  induction 1 as [node t rest c Hs _ | node t rest c r2 ds c' stop Hs _ Hd _ IH].
  - apply skipcomment_gadv, gadv_length in Hs. assumption.
  - apply skipcomment_gadv, gadv_length in Hs.
    apply match_domain_gadv, gadv_length in Hd. simpl in Hs. lia.
Qed.

Section Segments.

Variable canonicalize : mystring -> mystring.

Lemma addr_spec_loop_segments (node : list token) (ds : list mystring)
  (cmt : mystring) (stop : list token) :
  segments node ds cmt stop ->
  forall (bound : nat) (s c a domain : mystring),
    length node < bound ->
    addr_spec_loop bound (mk_result node s c a) domain
    = Ret (mk_result stop (s ++ route_prefix domain ds) (c ++ cmt)
             (a ++ route_prefix domain ds),
           last ds domain).
Proof.
  induction 1 as [node t rest c1 Hs Hstop
                 | node t rest c1 r2 ds c' stop Hs Ht Hd Hseg IH];
    intros bound s c a domain Hb;
    (destruct bound as [|bound]; [lia|]);
    cbn [addr_spec_loop next str comment addr];
    rewrite (skipcomment_from _ c _ _ Hs); cbn [bind deref next str comment addr].
  - cbn [route_prefix last]. rewrite !app_nil_r.
    destruct (node_type_eqb (type t) AT) eqn:Et; [|reflexivity].
    cbn [negb]. destruct Hstop as [Hn | Hn].
    + apply node_type_eqb_neq in Hn. congruence.
    + rewrite Hn. reflexivity.
  - apply node_type_eqb_eq in Ht. rewrite Ht. cbn [negb]. rewrite Hd.
    cbn [bind value].
    assert (Htr : truthy r2 = true).
    { unfold truthy. inversion Hseg; subst;
        match goal with
        | H : skipcomment (next r2) _ = Ret _ |- _ =>
            destruct (next r2); [discriminate H | reflexivity]
        end. }
    rewrite Htr. cbn [negb]. rewrite last_cons_default. cbn [route_prefix].
    assert (Hfold :
      (if negb (mystring_not domain)
       then mk_result (t :: rest) (s ++ lit "@" ++ domain) (c ++ c1)
              (a ++ lit "@" ++ domain)
       else mk_result (t :: rest) s (c ++ c1) a)
      = mk_result (t :: rest) (s ++ pending domain) (c ++ c1)
          (a ++ pending domain)).
    { unfold pending. destruct domain; simpl; rewrite ?app_nil_r; reflexivity. }
    rewrite Hfold. cbn [str comment addr next].
    rewrite IH.
    + rewrite <- !app_assoc. reflexivity.
    + apply skipcomment_gadv, gadv_length in Hs.
      apply match_domain_gadv, gadv_length in Hd. simpl in Hs. lia.
Qed.

Lemma match_addr_spec_segments (node : list token) (rL : result)
  (ds : list mystring) (cmt : mystring) (stop : list token) :
  match_local_part node = Ret (Some rL) ->
  segments (next rL) ds cmt stop ->
  ds <> [] -> Forall (fun d => d <> []) ds ->
  match_addr_spec canonicalize node
  = Ret (Some (mk_result stop
                 (str rL ++ at_text (removelast ds) ++ lit "@"
                  ++ canonicalize (last ds []))
                 (comment rL ++ cmt)
                 (addr rL ++ at_text (removelast ds) ++ lit "@"
                  ++ canonicalize (last ds []) ++ [CR]))).
Proof.
  intros HL Hseg Hne Hds. unfold match_addr_spec, MATCHRULE. rewrite HL.
  cbn [bind value]. destruct rL as [n s c a]. cbn [next str comment addr] in *.
  assert (Htr : truthy (mk_result n s c a) = true).
  { unfold truthy. cbn [next]. inversion Hseg; subst;
      match goal with
      | H : skipcomment n _ = Ret _ |- _ =>
          destruct n; [discriminate H | reflexivity]
      end. }
  rewrite Htr. cbn [negb next].
  rewrite (addr_spec_loop_segments _ _ _ _ Hseg) by lia.
  cbn [bind next str comment addr]. unfold RETURN, RETURNR.
  destruct ds as [|d ds]; [contradiction|].
  inversion Hds as [|? ? Hd Hds']; subst.
  cbn [route_prefix]. change (pending []) with (@nil ascii). cbn [app].
  rewrite (route_prefix_removelast ds d) by assumption.
  rewrite <- !app_assoc. reflexivity.
Qed.

(** An addr-spec that starts on an atom and ends on the last token is the
    whole list. *)
Lemma match_addresses_addr_spec (l0 : mystring) (t : token)
  (rest : list token) (e : token) (s a : mystring) :
  type t = PERIOD \/ type t = AT ->
  match_addr_spec canonicalize (mk_token ATOM l0 :: t :: rest)
  = Ret (Some (mk_result [e] s [] a)) ->
  type e = EOT ->
  match_addresses canonicalize (mk_token ATOM l0 :: t :: rest)
  = Ret (Some (mk_result [e] s [] a)).
Proof.
  intros Ht Hspec He. set (node := mk_token ATOM l0 :: t :: rest) in *.
  assert (Hgroup : match_group canonicalize node = Ret None).
  { subst node. destruct t as [ty tx]. cbn [type] in Ht.
    destruct Ht as [-> | ->]; reflexivity. }
  assert (Hrs : match_route_spec canonicalize node = Ret None).
  { subst node. destruct t as [ty tx]. cbn [type] in Ht.
    destruct Ht as [-> | ->]; reflexivity. }
  assert (Hmb : match_mailbox canonicalize node
            = match_addr_spec canonicalize node).
  { unfold match_mailbox, OR_RULE. rewrite Hrs, Hspec. reflexivity. }
  assert (Had : match_address canonicalize node
            = match_addr_spec canonicalize node).
  { unfold match_address, OR_RULE. rewrite Hgroup, Hmb, Hspec. reflexivity. }
  unfold match_addresses, MATCHRULE. rewrite Had, Hspec.
  destruct e as [ty tx]. cbn [type] in He. subst ty.
  cbn [bind value truthy next negb str comment addr].
  rewrite !app_nil_r. reflexivity.
Qed.

End Segments.

Lemma dat_chain_head (segs : list (mystring * list mystring)) :
  exists t rest,
    dat_chain segs ++ [anode0 EOT] = t :: rest /\
    (type t = AT \/ type t = EOT).
Proof.
  destruct segs as [|d segs]; cbn [dat_chain app]; eauto.
Qed.

Lemma segments_dat (segs : list (mystring * list mystring)) :
  segments (dat_chain segs ++ [anode0 EOT]) (map dom_text segs) []
    [anode0 EOT].
Proof.
  induction segs as [|d segs IH].
  - apply segments_end; [reflexivity | left; discriminate].
  - cbn [dat_chain map app]. rewrite <- app_assoc.
    assert (Hd : match_domain
                   (mk_token ATOM (fst d)
                    :: dot_chain (snd d) ++ dat_chain segs ++ [anode0 EOT])
                 = Ret (Some (mk_result (dat_chain segs ++ [anode0 EOT])
                                (dom_text d) [] (dom_text d)))).
    { apply match_domain_dots.
      destruct (dat_chain_head segs) as (t & rest & -> & Ht).
      exists t, rest. split; [reflexivity|].
      destruct Ht as [Ht | Ht]; rewrite Ht; split;
        try discriminate; left; discriminate. }
    exact (segments_more
             (anode0 AT :: mk_token ATOM (fst d)
              :: dot_chain (snd d) ++ dat_chain segs ++ [anode0 EOT])
             (anode0 AT) _ [] _ (map dom_text segs) [] [anode0 EOT]
             eq_refl eq_refl Hd IH).
Qed.

Lemma at_text_dat (segs : list (mystring * list mystring)) :
  at_text (map dom_text segs) = dat_text segs.
Proof.
  induction segs as [|d segs IH]; [reflexivity|].
  cbn [map at_text dat_text]. rewrite IH. reflexivity.
Qed.

Lemma dom_text_nonempty (segs : list (mystring * list mystring)) :
  Forall (fun d => atomic (fst d) /\ Forall atomic (snd d)) segs ->
  Forall (fun d => d <> []) (map dom_text segs).
Proof.
  induction 1 as [|d segs [[Hne _] _] _ IH]; constructor; [|assumption].
  unfold dom_text. destruct (fst d); [contradiction | discriminate].
Qed.

Lemma dat_text_nonul (segs : list (mystring * list mystring)) :
  Forall (fun d => atomic (fst d) /\ Forall atomic (snd d)) segs ->
  nonul (dat_text segs) = true.
Proof.
  induction 1 as [|d segs [[_ Ha] Hds] _ IH]; [reflexivity|].
  cbn [dat_text]. unfold dom_text.
  repeat apply nonul_app; auto using atoms_nonul, dot_text_nonul.
Qed.

Lemma dat_text_peek (segs : list (mystring * list mystring)) :
  isatom (peek (dat_text segs)) = false.
Proof. destruct segs; reflexivity. Qed.

Lemma tokenize_loop_dat (segs : list (mystring * list mystring)) :
  Forall (fun d => atomic (fst d) /\ Forall atomic (snd d)) segs ->
  forall tokens : list token,
    tokenize_loop (S (length (dat_text segs))) tokens (dat_text segs)
    = Ret (Some (tokens ++ dat_chain segs ++ [anode0 EOT])).
Proof.
  induction 1 as [|d segs [[Hne Ha] Hds] _ IH]; intros tokens.
  - reflexivity.
  - cbn [dat_text dat_chain]. unfold dom_text. rewrite <- !app_assoc.
    rewrite (tokenize_loop_next tokens _ (anode0 AT)
               (fst d ++ dot_text (snd d) ++ dat_text segs));
      [|reflexivity | discriminate].
    rewrite tokenize_loop_word;
      [|assumption..|destruct (snd d); [apply dat_text_peek | reflexivity]].
    rewrite tokenize_loop_dots by (assumption || apply dat_text_peek).
    rewrite IH. cbn [app]. rewrite <- !app_assoc. reflexivity.
Qed.

Lemma tokenize_routes (l0 : mystring) (ls : list mystring)
  (segs : list (mystring * list mystring)) :
  atomic l0 -> Forall atomic ls ->
  Forall (fun d => atomic (fst d) /\ Forall atomic (snd d)) segs ->
  tokenize (l0 ++ dot_text ls ++ dat_text segs)
  = Ret (Some (mk_token ATOM l0 :: dot_chain ls
               ++ dat_chain segs ++ [anode0 EOT])).
Proof.
  intros [Hne Ha] Hls Hsegs. unfold tokenize.
  rewrite tokenize_loop_word;
    [|assumption..|destruct ls; [apply dat_text_peek | reflexivity]].
  rewrite tokenize_loop_dots by (assumption || apply dat_text_peek).
  rewrite tokenize_loop_dat by assumption. reflexivity.
Qed.

Lemma parse_addresses_routes (canonicalize : mystring -> mystring)
  (l0 : mystring) (ls : list mystring)
  (segs : list (mystring * list mystring)) (list_ : mystring) :
  atomic l0 -> Forall atomic ls -> segs <> [] ->
  Forall (fun d => atomic (fst d) /\ Forall atomic (snd d)) segs ->
  parse_addresses canonicalize (l0 ++ dot_text ls ++ dat_text segs) list_
  = Ret (true,
         (l0 ++ dot_text ls ++ at_text (removelast (map dom_text segs))
          ++ lit "@" ++ canonicalize (last (map dom_text segs) []),
          l0 ++ dot_text ls ++ at_text (removelast (map dom_text segs))
          ++ lit "@" ++ canonicalize (last (map dom_text segs) []) ++ [CR])).
Proof.
  intros Hl0 Hls Hne Hsegs. unfold parse_addresses.
  rewrite nonul_of_cstr
    by (destruct Hl0 as [_ Ha]; repeat apply nonul_app;
        auto using atoms_nonul, dot_text_nonul, dat_text_nonul).
  rewrite tokenize_routes by assumption. cbn [bind].
  set (node := mk_token ATOM l0 :: dot_chain ls
               ++ dat_chain segs ++ [anode0 EOT]).
  assert (Hspec : match_addr_spec canonicalize node
            = Ret (Some (mk_result [anode0 EOT]
                 (l0 ++ dot_text ls ++ at_text (removelast (map dom_text segs))
                  ++ lit "@" ++ canonicalize (last (map dom_text segs) []))
                 []
                 (l0 ++ dot_text ls ++ at_text (removelast (map dom_text segs))
                  ++ lit "@" ++ canonicalize (last (map dom_text segs) [])
                  ++ [CR])))).
  { subst node. destruct segs as [|d segs]; [contradiction|].
    rewrite (match_addr_spec_segments canonicalize _
               (mk_result (dat_chain (d :: segs) ++ [anode0 EOT])
                  (l0 ++ dot_text ls) [] (l0 ++ dot_text ls))
               (map dom_text (d :: segs)) [] [anode0 EOT]).
    - cbn [str comment addr app]. rewrite <- !app_assoc. reflexivity.
    - apply match_local_part_dots; discriminate.
    - apply segments_dat.
    - discriminate.
    - apply dom_text_nonempty. assumption. }
  assert (Hhead : exists t rest,
            node = mk_token ATOM l0 :: t :: rest /\
            (type t = PERIOD \/ type t = AT)).
  { subst node. destruct ls as [|l ls]; cbn [dot_chain app].
    - destruct segs as [|d segs]; [contradiction|]. cbn [dat_chain app]. eauto.
    - eauto. }
  destruct Hhead as (t & rest & E & Ht). rewrite E in *.
  rewrite (match_addresses_addr_spec canonicalize l0 t rest (anode0 EOT) _ _
             Ht Hspec eq_refl).
  reflexivity.
Qed.

(** C3.  Source-route accumulation.  Let [match_local_part] return [rL], and
    let the domains [d1 ... dn], one at least and none empty, follow, each
    behind an [@] and each as [match_domain] reads it (atoms and periods, or
    a domain literal, with comments between the tokens).  Then
    [match_addr_spec] returns the display text of the local part followed by
    [@d1@...@d(n-1)] and by [@] and the canonicalized [dn], and as canonical
    text the canonical text of the local part followed by the same and a
    line feed: the canonicalizer sees the last domain only.  With the
    canonicalizer that changes nothing both end in [@d1@...@dn].  So it is
    for the whole call on a text [l0.l1....lk@dom1@...@domn] whose parts
    between the periods are atoms, and the input [a@b@c] gives the display
    [a@b@c] and the canonical text [a@b@c] with its line feed. *)
Theorem source_route_accumulation :
  (forall (canonicalize : mystring -> mystring) (node : list token)
          (rL : result) (ds : list mystring) (cmt : mystring)
          (stop : list token),
     match_local_part node = Ret (Some rL) ->
     segments (next rL) ds cmt stop ->
     ds <> [] -> Forall (fun d => d <> []) ds ->
     match_addr_spec canonicalize node
     = Ret (Some (mk_result stop
                    (str rL ++ at_text (removelast ds) ++ lit "@"
                     ++ canonicalize (last ds []))
                    (comment rL ++ cmt)
                    (addr rL ++ at_text (removelast ds) ++ lit "@"
                     ++ canonicalize (last ds []) ++ [CR]))) /\
     match_addr_spec stub node
     = Ret (Some (mk_result stop
                    (str rL ++ at_text ds)
                    (comment rL ++ cmt)
                    (addr rL ++ at_text ds ++ [CR])))) /\
  (forall (canonicalize : mystring -> mystring) (l0 : mystring)
          (ls : list mystring) (segs : list (mystring * list mystring))
          (list_ : mystring),
     atomic l0 -> Forall atomic ls -> segs <> [] ->
     Forall (fun d => atomic (fst d) /\ Forall atomic (snd d)) segs ->
     parse_addresses canonicalize (l0 ++ dot_text ls ++ dat_text segs) list_
     = Ret (true,
            (l0 ++ dot_text ls ++ at_text (removelast (map dom_text segs))
             ++ lit "@" ++ canonicalize (last (map dom_text segs) []),
             l0 ++ dot_text ls ++ at_text (removelast (map dom_text segs))
             ++ lit "@" ++ canonicalize (last (map dom_text segs) [])
             ++ [CR])) /\
     parse_addresses stub (l0 ++ dot_text ls ++ dat_text segs) list_
     = Ret (true,
            (l0 ++ dot_text ls ++ dat_text segs,
             l0 ++ dot_text ls ++ dat_text segs ++ [CR]))) /\
  parse_addresses stub (lit "a@b@c") []
  = Ret (true, (lit "a@b@c", lit "a@b@c" ++ [CR])).
Proof.
  assert (Hstub : forall ds : list mystring,
            ds <> [] -> Forall (fun d => d <> []) ds ->
            forall tail : mystring,
              at_text (removelast ds) ++ lit "@" ++ stub (last ds []) ++ tail
              = at_text ds ++ tail).
  { intros ds Hne Hds tail. unfold stub.
    rewrite <- (at_text_removelast ds Hne Hds).
    rewrite <- !app_assoc. reflexivity. }
  split; [|split; [|reflexivity]].
  - intros canonicalize node rL ds cmt stop HL Hseg Hne Hds. split.
    + apply match_addr_spec_segments; assumption.
    + rewrite (match_addr_spec_segments stub node rL ds cmt stop)
        by assumption.
      rewrite (Hstub ds Hne Hds [CR]).
      rewrite <- (app_nil_r (stub (last ds []))), (Hstub ds Hne Hds []).
      rewrite app_nil_r. reflexivity.
  - intros canonicalize l0 ls segs list_ Hl0 Hls Hne Hsegs. split.
    + apply parse_addresses_routes; assumption.
    + rewrite parse_addresses_routes by assumption.
      assert (Hm : map dom_text segs <> [])
        by (destruct segs; [contradiction | discriminate]).
      pose proof (dom_text_nonempty segs Hsegs) as Hd.
      rewrite (Hstub _ Hm Hd [CR]).
      rewrite <- (app_nil_r (stub (last (map dom_text segs) []))),
        (Hstub _ Hm Hd []).
      rewrite app_nil_r, at_text_dat. reflexivity.
Qed.

Lemma source_route_accumulation_witness :
  match_addr_spec stub
    [mk_token ATOM (lit "a"); mk_token COMMENT (lit "(k)"); anode0 AT;
     mk_token ATOM (lit "b"); anode0 PERIOD; mk_token ATOM (lit "c");
     mk_token COMMENT (lit "(u)"); anode0 AT; mk_token ATOM (lit "d");
     anode0 RABRACKET; anode0 EOT]
  = Ret (Some (mk_result [anode0 RABRACKET; anode0 EOT]
                 (lit "a" ++ at_text [lit "b.c"; lit "d"])
                 (lit " (k)" ++ lit " (u)")
                 (lit "a" ++ at_text [lit "b.c"; lit "d"] ++ [CR]))) /\
  parse_addresses stub
    (lit "a" ++ dot_text [lit "x"]
     ++ dat_text [(lit "b", [lit "c"]); (lit "d", [])]) (lit "old")
  = Ret (true,
         (lit "a" ++ dot_text [lit "x"]
          ++ dat_text [(lit "b", [lit "c"]); (lit "d", [])],
          lit "a" ++ dot_text [lit "x"]
          ++ dat_text [(lit "b", [lit "c"]); (lit "d", [])] ++ [CR])).
Proof.
  split.
  - apply (proj1 source_route_accumulation stub
             [mk_token ATOM (lit "a"); mk_token COMMENT (lit "(k)");
              anode0 AT; mk_token ATOM (lit "b"); anode0 PERIOD;
              mk_token ATOM (lit "c"); mk_token COMMENT (lit "(u)");
              anode0 AT; mk_token ATOM (lit "d"); anode0 RABRACKET;
              anode0 EOT]
             (mk_result
                [anode0 AT; mk_token ATOM (lit "b"); anode0 PERIOD;
                 mk_token ATOM (lit "c"); mk_token COMMENT (lit "(u)");
                 anode0 AT; mk_token ATOM (lit "d"); anode0 RABRACKET;
                 anode0 EOT]
                (lit "a") (lit " (k)") (lit "a"))
             [lit "b.c"; lit "d"] (lit " (u)")
             [anode0 RABRACKET; anode0 EOT]).
    + reflexivity.
    + apply (segments_more
               [anode0 AT; mk_token ATOM (lit "b"); anode0 PERIOD;
                mk_token ATOM (lit "c"); mk_token COMMENT (lit "(u)");
                anode0 AT; mk_token ATOM (lit "d"); anode0 RABRACKET;
                anode0 EOT]
               (anode0 AT)
               [mk_token ATOM (lit "b"); anode0 PERIOD;
                mk_token ATOM (lit "c"); mk_token COMMENT (lit "(u)");
                anode0 AT; mk_token ATOM (lit "d"); anode0 RABRACKET;
                anode0 EOT]
               []
               (mk_result
                  [anode0 AT; mk_token ATOM (lit "d"); anode0 RABRACKET;
                   anode0 EOT]
                  (lit "b.c") (lit " (u)") (lit "b.c"))
               [lit "d"] [] [anode0 RABRACKET; anode0 EOT]);
        [reflexivity | reflexivity | reflexivity |].
      apply (segments_more
               [anode0 AT; mk_token ATOM (lit "d"); anode0 RABRACKET;
                anode0 EOT]
               (anode0 AT)
               [mk_token ATOM (lit "d"); anode0 RABRACKET; anode0 EOT]
               []
               (mk_result [anode0 RABRACKET; anode0 EOT]
                  (lit "d") [] (lit "d"))
               [] [] [anode0 RABRACKET; anode0 EOT]);
        [reflexivity | reflexivity | reflexivity |].
      apply (segments_end [anode0 RABRACKET; anode0 EOT]
               (anode0 RABRACKET) [anode0 EOT] []);
        [reflexivity | left; discriminate].
    + discriminate.
    + repeat constructor; discriminate.
  - refine (proj2 (proj1 (proj2 source_route_accumulation) stub
                     (lit "a") [lit "x"]
                     [(lit "b", [lit "c"]); (lit "d", [])]
                     (lit "old") _ _ _ _)).
    + split; [discriminate | reflexivity].
    + constructor; [split; [discriminate | reflexivity] | constructor].
    + discriminate.
    + constructor; [|constructor; [|constructor]].
      * split; [split; [discriminate | reflexivity]|].
        constructor; [split; [discriminate | reflexivity] | constructor].
      * split; [split; [discriminate | reflexivity] | constructor].
Defined.

(** C3 does not hold as it is worded where the local part is a quoted
    string with a symbol in it.  On the field ["a,b"@c@d] the display shows
    the local part as [quote] writes it, ["a\,b"], and the canonical text
    holds it unquoted, [a,b]: no one text [L] stands before [@c@d] in
    both. *)
Lemma quoted_local_part_two_forms :
  parse_addresses stub (QUOTE :: lit "a,b" ++ QUOTE :: lit "@c@d") []
  = Ret (true,
         (QUOTE :: lit "a\,b" ++ QUOTE :: lit "@c@d",
          lit "a,b@c@d" ++ [CR])) /\
  ~ exists L : mystring,
      QUOTE :: lit "a\,b" ++ QUOTE :: lit "@c@d" = L ++ lit "@c@d" /\
      lit "a,b@c@d" ++ [CR] = L ++ lit "@c@d" ++ [CR].
Proof.
  split; [reflexivity|]. intros (L & H1 & H2).
  apply (app_inv_tail (lit "@c@d" ++ [CR]) (lit "a,b") L) in H2.
  subst L. discriminate H1.
Qed.

(** ** The arrays of [quote] and [unquote] *)

Lemma uint_wrap (z : Z) :
  (UINT_MOD <= z < 2 * UINT_MOD -> z mod UINT_MOD = z - UINT_MOD)%Z.
Proof.
  intros H. symmetry. apply (Z.mod_unique z UINT_MOD 1); unfold UINT_MOD in *; lia.
Qed.

Lemma ulength_small (s : mystring) :
  (Z.of_nat (length s) < UINT_MOD)%Z -> Machine.ulength s = length s.
Proof.
  intros H. unfold Machine.ulength.
  rewrite Z.mod_small by lia. apply Nat2Z.id.
Qed.

Lemma escaped_longer (s : mystring) : length s <= length (escaped s).
Proof.
  induction s as [|c s IH]; [reflexivity|].
  cbn [escaped]. destruct (issymbol c); simpl; lia.
Qed.

Lemma quote_array_holds (stack : Z) (s : mystring) :
  holds stack s -> Machine.quote stack s = Ret (quote s).
Proof.
  intros [Hw Hs]. unfold Machine.quote, quote.
  rewrite ulength_small by lia.
  rewrite Z.mod_small by lia.
  replace (stack <? Z.of_nat (length s) * 2 + 2 + 1)%Z with false
    by (symmetry; apply Z.ltb_ge; lia).
  rewrite firstn_all, quote_loop_spec.
  pose proof (escaped_length s).
  replace (Z.of_nat (length s) * 2 + 2 + 1 <? Z.of_nat (length (escaped s)) + 1)%Z
    with false by (symmetry; apply Z.ltb_ge; lia).
  reflexivity.
Qed.

Lemma quote_array_overrun (stack : Z) (s : mystring) :
  (UINT_MOD <= 2 * Z.of_nat (length s) + 3)%Z ->
  (Z.of_nat (length s) + 2 < UINT_MOD)%Z ->
  Machine.quote stack s = Fault OutOfBounds.
Proof.
  intros Hw Hl. unfold Machine.quote.
  rewrite ulength_small by lia.
  rewrite uint_wrap by lia.
  destruct (stack <? Z.of_nat (length s) * 2 + 2 + 1 - UINT_MOD)%Z;
    [reflexivity|].
  rewrite firstn_all, quote_loop_spec.
  pose proof (escaped_longer s).
  replace (Z.of_nat (length s) * 2 + 2 + 1 - UINT_MOD
           <? Z.of_nat (length (escaped s)) + 1)%Z
    with true by (symmetry; apply Z.ltb_lt; lia).
  reflexivity.
Qed.

Lemma unquote_not_longer (s t : mystring) :
  unquote s = Ret t -> length t <= length s.
Proof.
  unfold unquote.
  destruct ((nth 0 s NUL =? QUOTE) && (nth (length s - 1) s NUL =? QUOTE)).
  - destruct (length s <? 2)%nat eqn:El; [discriminate|].
    apply Nat.ltb_ge in El. intros H. inv_bind H x Hx. destruct x as [out m].
    injection H as <-. apply unquote_loop_length in Hx.
    pose proof (of_cstr_length out). lia.
  - intros H. inv_bind H x Hx. destruct x as [out m].
    apply unquote_loop_length in Hx. pose proof (of_cstr_length out).
    destruct m; injection H as <-; lia.
Qed.

Lemma unquote_array_holds (stack : Z) (s : mystring) :
  (Z.of_nat (length s) + 1 < UINT_MOD)%Z ->
  (Z.of_nat (length s) + 1 <= stack)%Z ->
  Machine.unquote stack s = unquote s.
Proof.
  intros Hw Hs. unfold Machine.unquote, unquote.
  rewrite ulength_small by lia.
  rewrite Z.mod_small by lia.
  replace (stack <? Z.of_nat (length s) + 1)%Z with false
    by (symmetry; apply Z.ltb_ge; lia).
  destruct ((nth 0 s NUL =? QUOTE) && (nth (length s - 1) s NUL =? QUOTE)).
  - destruct (length s <? 2)%nat; [reflexivity|].
    destruct (unquote_loop (length s - 2) (tl s) true) as [[out m]|f] eqn:E;
      [|reflexivity].
    cbn [bind]. apply unquote_loop_length in E.
    replace (Z.of_nat (length s) + 1 <? Z.of_nat (length out) + 1)%Z
      with false by (symmetry; apply Z.ltb_ge; lia).
    reflexivity.
  - destruct (unquote_loop (length s) s false) as [[out m]|f] eqn:E;
      [|reflexivity].
    cbn [bind]. apply unquote_loop_length in E.
    replace (Z.of_nat (length s) + 1 <? Z.of_nat (length out) + 1)%Z
      with false by (symmetry; apply Z.ltb_ge; lia).
    reflexivity.
Qed.

Lemma unquote_array_stack (stack : Z) (s : mystring) :
  (Z.of_nat (length s) + 1 < UINT_MOD)%Z ->
  (stack < Z.of_nat (length s) + 1)%Z ->
  Machine.unquote stack s = Fault OutOfBounds.
Proof.
  intros Hw Hs. unfold Machine.unquote.
  rewrite ulength_small by lia.
  rewrite Z.mod_small by lia.
  replace (stack <? Z.of_nat (length s) + 1)%Z with true
    by (symmetry; apply Z.ltb_lt; lia).
  reflexivity.
Qed.

(** ** The rules, with the arrays and without *)

Lemma chain_holds_gadv (stack : Z) (a b : list token) :
  gadv a b -> chain_holds stack a -> chain_holds stack b.
Proof.
  intros Hg Ha. apply gadv_prefix in Hg as (pre & -> & _).
  apply Forall_app in Ha. tauto.
Qed.

Lemma chain_holds_tail (stack : Z) (t : token) (nxt : list token) :
  chain_holds stack (t :: nxt) -> chain_holds stack nxt.
Proof. intros H. inversion H. assumption. Qed.

Lemma holds_shorter (stack : Z) (s s' : mystring) :
  length s' <= length s -> holds stack s -> holds stack s'.
Proof. unfold holds. lia. Qed.

Section Simulation.

Variable stack : Z.
Variable canonicalize : mystring -> mystring.

Lemma sim_word (node : list token) :
  chain_holds stack node -> Machine.match_word stack node = match_word node.
Proof.
  intros Hh. unfold Machine.match_word, match_word.
  destruct (skipcomment node []) as [[n c]|f] eqn:Es; cbn [bind]; [|reflexivity].
  pose proof (chain_holds_gadv _ _ _ (skipcomment_gadv _ _ _ _ Es) Hh) as Hn.
  destruct n as [|t nxt]; cbn [deref bind]; [reflexivity|].
  destruct (node_type_eqb (type t) ATOM); cbn [negb bind]; [reflexivity|].
  destruct (node_type_eqb (type t) QUOTED_STRING) eqn:Eq; cbn [negb bind]; [|reflexivity].
  apply node_type_eqb_eq in Eq.
  inversion Hn as [|? ? Ht Hnxt]; subst. specialize (Ht Eq).
  rewrite unquote_array_holds by (unfold holds in Ht; lia).
  destruct (unquote (text t)) as [a|f] eqn:Eu; cbn [bind]; [|reflexivity].
  rewrite quote_array_holds; [reflexivity|].
  eapply holds_shorter; [|eassumption].
  apply unquote_not_longer. assumption.
Qed.

(** What the steps below share: a call of a rule whose twin is known, and
    the position it leaves, on which the quoted strings are still held. *)
Ltac twin Hsim Hgadv o E Htr Hh' :=
  rewrite Hsim;
  match goal with
  | |- bind ?m _ = bind ?m _ =>
      destruct m as [o|] eqn:E; cbn [bind]; [|reflexivity];
      destruct (truthy (value o)) eqn:Htr; cbn [negb];
      [pose proof (truthy_gadv _ _ _ Hgadv E Htr) as Hh';
       eapply chain_holds_gadv in Hh'; [|eassumption]
      |]
  end.

Lemma sim_local_part_loop (bound : nat) :
  forall r : result,
    chain_holds stack (next r) ->
    Machine.local_part_loop stack bound r = local_part_loop bound r.
Proof.
  induction bound as [|bound IH]; intros r Hh; [reflexivity|].
  cbn [Machine.local_part_loop local_part_loop].
  destruct (skipcomment (next r) (comment r)) as [[n c]|f] eqn:Es; cbn [bind];
    [|reflexivity].
  pose proof (chain_holds_gadv _ _ _ (skipcomment_gadv _ _ _ _ Es) Hh) as Hn.
  destruct n as [|t nxt]; cbn [deref bind]; [reflexivity|].
  destruct (negb (node_type_eqb (type t) PERIOD)); cbn [negb bind]; [reflexivity|].
  apply chain_holds_tail in Hn.
  twin (sim_word nxt Hn) match_word_gadv o E Htr Hh'; [|reflexivity].
  apply IH. exact Hh'.
Qed.

Lemma sim_local_part (node : list token) :
  chain_holds stack node ->
  Machine.match_local_part stack node = match_local_part node.
Proof.
  intros Hh. unfold Machine.match_local_part, match_local_part, MATCHRULE.
  twin (sim_word node Hh) match_word_gadv o E Htr Hh'; [|reflexivity].
  rewrite sim_local_part_loop by assumption. reflexivity.
Qed.

Lemma sim_addr_spec (node : list token) :
  chain_holds stack node ->
  Machine.match_addr_spec stack canonicalize node
  = match_addr_spec canonicalize node.
Proof.
  intros Hh. unfold Machine.match_addr_spec, match_addr_spec, MATCHRULE.
  twin (sim_local_part node Hh) match_local_part_gadv o E Htr Hh';
    reflexivity.
Qed.

Lemma sim_route_addr (node : list token) :
  chain_holds stack node ->
  Machine.match_route_addr stack canonicalize node
  = match_route_addr canonicalize node.
Proof.
  intros Hh. unfold Machine.match_route_addr, match_route_addr, MATCHTOKEN,
    MATCHRULE.
  destruct (skipcomment node []) as [[n c]|f] eqn:Es; cbn [bind]; [|reflexivity].
  pose proof (chain_holds_gadv _ _ _ (skipcomment_gadv _ _ _ _ Es) Hh) as Hn.
  destruct n as [|t nxt]; cbn [deref bind]; [reflexivity|].
  destruct (node_type_eqb (type t) LABRACKET); cbn [negb bind]; [|reflexivity].
  apply chain_holds_tail in Hn.
  destruct (match_route nxt) as [o|f] eqn:Er; cbn [bind]; [|reflexivity].
  pose proof (option_gadv _ _ _ match_route_gadv Er) as Hg.
  eapply chain_holds_gadv in Hg; [|eassumption].
  rewrite sim_addr_spec by assumption. reflexivity.
Qed.

Lemma sim_phrase_loop (bound : nat) :
  forall r1 : result,
    chain_holds stack (next r1) ->
    Machine.phrase_loop stack bound r1 = phrase_loop bound r1.
Proof.
  induction bound as [|bound IH]; intros r1 Hh; [reflexivity|].
  cbn [Machine.phrase_loop phrase_loop].
  twin (sim_word (next r1) Hh) match_word_gadv o E Htr Hh'; [|reflexivity].
  apply IH. exact Hh'.
Qed.

Lemma sim_phrase (node : list token) :
  chain_holds stack node ->
  Machine.match_phrase stack node = match_phrase node.
Proof.
  intros Hh. unfold Machine.match_phrase, match_phrase, MATCHRULE.
  twin (sim_word node Hh) match_word_gadv o E Htr Hh'; [|reflexivity].
  rewrite sim_phrase_loop by assumption. reflexivity.
Qed.

Lemma sim_route_spec (node : list token) :
  chain_holds stack node ->
  Machine.match_route_spec stack canonicalize node
  = match_route_spec canonicalize node.
Proof.
  intros Hh. unfold Machine.match_route_spec, match_route_spec.
  rewrite sim_phrase by assumption.
  destruct (match_phrase node) as [o|f] eqn:E; cbn [bind]; [|reflexivity].
  pose proof (option_gadv _ _ _ match_phrase_gadv E) as Hg.
  eapply chain_holds_gadv in Hg; [|eassumption].
  rewrite sim_route_addr by assumption. reflexivity.
Qed.

Lemma sim_mailbox (node : list token) :
  chain_holds stack node ->
  Machine.match_mailbox stack canonicalize node
  = match_mailbox canonicalize node.
Proof.
  intros Hh. unfold Machine.match_mailbox, match_mailbox, OR_RULE.
  rewrite sim_route_spec, sim_addr_spec by assumption. reflexivity.
Qed.

(** The loop over the members runs the same with two member rules that
    agree on the chains whose quoted strings are held. *)
Lemma members_loop_twin (f g : list token -> exec outcome) :
  (forall n, chain_holds stack n -> f n = g n) ->
  (forall n r, g n = Ret (Some r) -> gadv n (next r)) ->
  forall (bound : nat) (r1 : result),
    chain_holds stack (next r1) ->
    members_loop f bound r1 = members_loop g bound r1.
Proof.
  intros Hfg Hg. induction bound as [|bound IH]; intros r1 Hh;
    [reflexivity|].
  cbn [members_loop].
  destruct (comma_loop (S (length (next r1))) (next r1) (str r1))
    as [[n s]|flt] eqn:Ec; cbn [bind]; [|reflexivity].
  pose proof (chain_holds_gadv _ _ _ (comma_loop_gadv _ _ _ _ _ Ec) Hh) as Hn.
  destruct n as [|t nxt]; cbn [deref bind]; [reflexivity|].
  destruct (node_type_eqb (type t) EOT); cbn [negb bind]; [reflexivity|].
  rewrite (Hfg _ Hn).
  destruct (g (t :: nxt)) as [o|flt] eqn:E; cbn [bind]; [|reflexivity].
  destruct (truthy (value o)) eqn:Htr; cbn [negb]; [|reflexivity].
  apply IH. cbn [next].
  eapply chain_holds_gadv; [|exact Hn]. eapply truthy_gadv; eassumption.
Qed.

Lemma sim_mailboxes (node : list token) :
  chain_holds stack node ->
  Machine.match_mailboxes stack canonicalize node
  = match_mailboxes canonicalize node.
Proof.
  intros Hh. unfold Machine.match_mailboxes, match_mailboxes, MATCHRULE.
  twin (sim_mailbox node Hh) (match_mailbox_gadv canonicalize) o E Htr Hh';
    [|reflexivity].
  rewrite (members_loop_twin _ (match_mailbox canonicalize) sim_mailbox
             (match_mailbox_gadv canonicalize)) by exact Hh'.
  reflexivity.
Qed.

Lemma sim_group (node : list token) :
  chain_holds stack node ->
  Machine.match_group stack canonicalize node
  = match_group canonicalize node.
Proof.
  intros Hh. unfold Machine.match_group, match_group, MATCHRULE, MATCHTOKEN.
  twin (sim_phrase node Hh) match_phrase_gadv o E Htr Hh'; [|reflexivity].
  destruct (next (value o)) as [|t nxt]; cbn [deref bind]; [reflexivity|].
  destruct (node_type_eqb (type t) COLON); cbn [negb bind]; [|reflexivity].
  apply chain_holds_tail in Hh'.
  rewrite sim_mailboxes by assumption. reflexivity.
Qed.

Lemma sim_address (node : list token) :
  chain_holds stack node ->
  Machine.match_address stack canonicalize node
  = match_address canonicalize node.
Proof.
  intros Hh. unfold Machine.match_address, match_address, OR_RULE.
  rewrite sim_group, sim_mailbox by assumption. reflexivity.
Qed.

Lemma sim_addresses (node : list token) :
  chain_holds stack node ->
  Machine.match_addresses stack canonicalize node
  = match_addresses canonicalize node.
Proof.
  intros Hh. unfold Machine.match_addresses, match_addresses, MATCHRULE.
  twin (sim_address node Hh) (match_address_gadv canonicalize) o E Htr Hh';
    [|reflexivity].
  rewrite (members_loop_twin _ (match_address canonicalize) sim_address
             (match_address_gadv canonicalize)) by exact Hh'.
  reflexivity.
Qed.

End Simulation.

(** ** The whole call, with the arrays *)

Lemma weave_render_length (t : token) :
  forall (gaps : list (list ascii)) (toks : list token),
    length gaps = length toks -> In t toks ->
    length (render t) <= length (weave gaps toks).
Proof.
  intros gaps toks. revert gaps.
  induction toks as [|u toks IH]; intros gaps Hl Hin; [contradiction|].
  destruct gaps as [|g gaps]; [discriminate|]. cbn [weave].
  rewrite !length_app. destruct Hin as [-> | Hin].
  - lia.
  - specialize (IH gaps ltac:(simpl in Hl; lia) Hin). lia.
Qed.

Lemma tokens_hold (stack : Z) (str : mystring) (toks : list token) :
  tokenize str = Ret (Some toks) -> holds stack str ->
  chain_holds stack toks.
Proof.
  intros H Hs. unfold tokenize in H.
  apply tokenize_loop_slices in H
    as (more & gaps & tail & E & Hl & _ & Es & _).
  cbn [app] in E. subst more. apply Forall_forall. intros t Hin Hq.
  eapply holds_shorter; [|exact Hs].
  pose proof (weave_render_length t gaps toks Hl Hin) as Hr.
  unfold render in Hr. rewrite Hq in Hr.
  rewrite Es, length_app. lia.
Qed.

Lemma sim_parse_addresses (stack : Z) (canonicalize : mystring -> mystring)
  (line list_ : mystring) :
  holds stack line ->
  Machine.parse_addresses stack canonicalize line list_
  = parse_addresses canonicalize line list_.
Proof.
  intros Hs. unfold Machine.parse_addresses, parse_addresses.
  destruct (tokenize (of_cstr line)) as [[toks|]|f] eqn:Et; cbn [bind];
    [|reflexivity..].
  rewrite sim_addresses; [reflexivity|].
  apply (tokens_hold stack (of_cstr line)); [assumption|].
  eapply holds_shorter; [|exact Hs]. apply of_cstr_length.
Qed.

Lemma letters_plain (n : nat) :
  existsb issymbol (repeat "a"%char n) = false /\
  nonul (repeat "a"%char n) = true /\ qbody (repeat "a"%char n).
Proof.
  induction n as [|n (H1 & H2 & H3)]; [repeat split; constructor|].
  cbn [repeat existsb]. unfold nonul in *. cbn [forallb].
  rewrite H1, H2. repeat split. constructor; [reflexivity | assumption].
Qed.

Lemma unquote_letters (n : nat) :
  unquote (quoted_letters n) = Ret (repeat "a"%char n).
Proof.
  destruct (letters_plain n) as (Hs & Hn & _).
  unfold quoted_letters. rewrite unquote_strip.
  pose proof (unquote_loop_nonul _ Hn [QUOTE] true) as H.
  rewrite (escaped_plain _ Hs) in H. rewrite H. cbn [bind].
  rewrite nonul_of_cstr by assumption. reflexivity.
Qed.

Lemma quoted_letters_length (n : nat) : length (quoted_letters n) = n + 2.
Proof.
  unfold quoted_letters. cbn [length]. rewrite length_app, repeat_length.
  simpl. lia.
Qed.

Lemma tokenize_letters (n : nat) :
  tokenize (of_cstr (quoted_letters n))
  = Ret (Some [mk_token QUOTED_STRING (quoted_letters n); anode0 EOT]).
Proof.
  destruct (letters_plain n) as (_ & Hn & Hq).
  rewrite nonul_of_cstr.
  - apply tokenize_quoted. assumption.
  - unfold quoted_letters, nonul in *. cbn [forallb].
    rewrite forallb_app, Hn. reflexivity.
Qed.

(** On a quoted string of [n] letters [match_word] ends in a fault where the
    stack has no room for the array of [unquote], and where the size of the
    array of [quote] wraps around. *)
Lemma machine_word_fault (stack : Z) (n : nat) (nxt : list token) :
  (Z.of_nat n + 3 < UINT_MOD)%Z ->
  (stack < Z.of_nat n + 3 \/ UINT_MOD <= 2 * Z.of_nat n + 3)%Z ->
  Machine.match_word stack (mk_token QUOTED_STRING (quoted_letters n) :: nxt)
  = Fault OutOfBounds.
Proof.
  intros Hn Hcase. unfold Machine.match_word.
  cbn [skipcomment type node_type_eqb bind deref text].
  pose proof (quoted_letters_length n) as Hl.
  destruct (Z.ltb_spec stack (Z.of_nat n + 3)) as [Hs | Hs].
  - rewrite unquote_array_stack by lia. reflexivity.
  - destruct Hcase as [Hc | Hc]; [lia|].
    rewrite unquote_array_holds, unquote_letters by lia. cbn [bind].
    rewrite quote_array_overrun by (rewrite repeat_length; lia).
    reflexivity.
Qed.

Lemma machine_parse_fault (stack : Z) (canonicalize : mystring -> mystring)
  (n : nat) (list_ : mystring) :
  (Z.of_nat n + 3 < UINT_MOD)%Z ->
  (stack < Z.of_nat n + 3 \/ UINT_MOD <= 2 * Z.of_nat n + 3)%Z ->
  Machine.parse_addresses stack canonicalize (quoted_letters n) list_
  = Fault OutOfBounds.
Proof.
  intros Hn Hcase. unfold Machine.parse_addresses.
  rewrite tokenize_letters. cbn [bind].
  unfold Machine.match_addresses, Machine.match_address, OR_RULE,
    Machine.match_group, Machine.match_phrase, MATCHRULE.
  rewrite machine_word_fault by assumption. reflexivity.
Qed.

(** C9.  [parse_addresses] does not return on every input text.  [unquote]
    and [quote] build their result in arrays on the stack, sized from the
    length of the text in 32-bit [unsigned] arithmetic.  Where the text of
    [line] is short enough that twice its length and three bytes is a size
    that does not wrap around and fits the stack, the call runs to a result,
    the same as without the arrays; none of its loops uses up its bound.  On
    a field that is a quoted string of [n] letters the call ends in a fault
    when the array of [unquote] does not fit the stack, and on 2147483647
    letters it ends in a fault whatever the stack: the size [length*2 + 2 + 1]
    of the array of [quote] wraps around to 1, and the loop writes past
    it. *)
Theorem parse_addresses_array_fault
  (stack : Z) (canonicalize : mystring -> mystring) (list_ : mystring) :
  (forall line : mystring,
     holds stack line ->
     Machine.parse_addresses stack canonicalize line list_
     = parse_addresses canonicalize line list_ /\
     exists b line' list',
       Machine.parse_addresses stack canonicalize line list_
       = Ret (b, (line', list'))) /\
  (forall n : nat,
     (Z.of_nat n + 3 < UINT_MOD)%Z -> (stack < Z.of_nat n + 3)%Z ->
     Machine.parse_addresses stack canonicalize (quoted_letters n) list_
     = Fault OutOfBounds) /\
  Machine.parse_addresses stack canonicalize
    (quoted_letters (Z.to_nat 2147483647)) list_
  = Fault OutOfBounds.
Proof.
  split; [|split].
  - intros line Hs. rewrite sim_parse_addresses by assumption.
    split; [reflexivity | apply parse_addresses_returns].
  - intros n Hn Hs. apply machine_parse_fault; auto.
  - apply machine_parse_fault; unfold UINT_MOD; rewrite Z2Nat.id; lia.
Qed.

Lemma parse_addresses_array_fault_witness :
  (Machine.parse_addresses 64 stub (QUOTE :: lit "a b" ++ QUOTE :: lit "@c")
     (lit "old")
   = parse_addresses stub (QUOTE :: lit "a b" ++ QUOTE :: lit "@c")
       (lit "old") /\
   exists b line' list',
     Machine.parse_addresses 64 stub (QUOTE :: lit "a b" ++ QUOTE :: lit "@c")
       (lit "old")
     = Ret (b, (line', list'))) /\
  Machine.parse_addresses 64 stub (quoted_letters 70) (lit "old")
  = Fault OutOfBounds.
Proof.
  split.
  - apply (proj1 (parse_addresses_array_fault 64 stub (lit "old"))).
    unfold holds, UINT_MOD. simpl. lia.
  - apply (proj1 (proj2 (parse_addresses_array_fault 64 stub (lit "old")))).
    + unfold UINT_MOD. simpl. lia.
    + simpl. lia.
Defined.

(** X2.  The array of [quote].  [quote] builds its text in
    [char out[length*2 + 2 + 1]], and its loop writes two bytes at most for
    a byte of [in].  Where twice the length and three bytes is a size that
    does not wrap around and that fits the stack, [quote] stays within the
    array and returns its text.  Where that size, computed in 32-bit
    [unsigned], wraps around, on a text of 2147483647 bytes and more, the
    loop writes past the array. *)
Theorem quote_array (stack : Z) (s : mystring) :
  (forall quoted : bool,
     length (fst (quote_loop s quoted)) <= 2 * length s) /\
  (holds stack s -> Machine.quote stack s = Ret (quote s)) /\
  ((UINT_MOD <= 2 * Z.of_nat (length s) + 3)%Z ->
   (Z.of_nat (length s) + 2 < UINT_MOD)%Z ->
   Machine.quote stack s = Fault OutOfBounds).
Proof.
  split; [|split].
  - intros quoted. rewrite quote_loop_spec. cbn [fst].
    pose proof (escaped_length s). lia.
  - apply quote_array_holds.
  - apply quote_array_overrun.
Qed.

Lemma quote_array_witness :
  Machine.quote 64 (lit "a,b") = Ret (quote (lit "a,b")) /\
  Machine.quote 64 (repeat "a"%char (Z.to_nat 2147483647))
  = Fault OutOfBounds.
Proof.
  split.
  - apply (proj1 (proj2 (quote_array 64 (lit "a,b")))).
    unfold holds, UINT_MOD. simpl. lia.
  - apply (proj2 (proj2 (quote_array 64
                           (repeat "a"%char (Z.to_nat 2147483647)))));
      unfold UINT_MOD; rewrite repeat_length, Z2Nat.id; lia.
Defined.

(** ** The canonical list, mailbox by mailbox *)

Section Listed.

Variable canonicalize : mystring -> mystring.












End Listed.


